(** * tiles-maps: the tile acquisition pipeline of [index.js]

    A shallow embedding of the downloader (provider registry, coordinate
    math, tile store, failure ledger, batch scheduler, retry pass, command
    line, log file), of its first version and of the first downloader's
    retry loop and URL templates.  Part II proves what the specification
    states about the code (the statements marked Claim) and further
    properties of the code itself (marked Property): how the passes, the
    ledger and the store fit together, what the codes of a tile (URL, path,
    quadkey) determine, and how the program behaves at the edges of its
    input.

    Conventions.
    - JavaScript numbers that hold integers are [Z]; a number that may be
      [NaN] (the result of [parseInt]) is [option Z] with [None] for [NaN];
      numbers used in floating-point arithmetic are binary64 [float]s.
    - The 32-bit operators [<<] and [&] are written out with their
      wrap-around ([toInt32]).
    - The file system is a finite map from paths to contents plus a set of
      directories; a path is the list of its components.
    - Asynchronous code is run by a machine whose steps are chosen by a
      script: the script fixes in which order the started operations settle
      and what the network, the disk and the ledger file answer.  A
      statement over all scripts is a statement over all interleavings and
      all environments.
    - The machine comes twice: first with a log file that takes every
      line, then ([Logged]) with a log file whose appends may fail and
      with the bounds argument read by [JSON.parse]; the second runs as
      the first when nothing of this fails ([main_plain]). *)

From Stdlib Require Import ZArith String Ascii List Lia Bool.
From Stdlib Require Import DecimalString DecimalZ DecimalPos.
From Stdlib Require Import Permutation.
From Stdlib Require Import Floats.PrimFloat Numbers.Cyclic.Int63.Uint63.
From Stdlib Require Floats.FloatAxioms Floats.FloatOps Floats.SpecFloat.
From Stdlib Require Import Strings.Byte.
From stdpp Require Import gmap strings list.

Open Scope string_scope.
Open Scope list_scope.
Open Scope Z_scope.

(* ===================================================================== *)
(** * Part I: the model                                                   *)
(* ===================================================================== *)

(** ** JavaScript numbers, 32-bit operators and strings *)

(** [ToInt32]: reduce modulo 2^32 into [-2^31, 2^31). *)
Definition toInt32 (v : Z) : Z :=
  let u := v mod 2 ^ 32 in
  if 2 ^ 31 <=? u then u - 2 ^ 32 else u.

(** [a << n]: the shift count is taken modulo 32, the result is an int32. *)
Definition js_shl (a n : Z) : Z :=
  toInt32 (Z.shiftl (toInt32 a) (n mod 32)).

(** [a & b] on the int32 images of both operands. *)
Definition js_and (a b : Z) : Z :=
  Z.land (toInt32 a) (toInt32 b).

(** [String(n)] for an integer [n] (plain decimal, as JavaScript prints
    every integer of magnitude below 10^21). *)
Definition numberToString (n : Z) : string :=
  NilZero.string_of_int (Z.to_int n).

(** A number that may be [NaN]. *)
Definition Num : Type := option Z.

Definition numToString (n : Num) : string :=
  match n with
  | Some v => numberToString v
  | None => "NaN"
  end.

Definition LF : ascii := ascii_of_nat 10.
Definition COMMA : ascii := ascii_of_nat 44.
Definition newline : string := String LF EmptyString.

(** [s.split(sep)] for a one-character separator. *)
Fixpoint split (sep : ascii) (s : string) : list string :=
  match s with
  | EmptyString => [EmptyString]
  | String c rest =>
      if Ascii.eqb c sep then EmptyString :: split sep rest
      else match split sep rest with
           | f :: fs => String c f :: fs
           | [] => [String c EmptyString]
           end
  end.

(** The white space [trim] and [parseInt] strip, as far as the ASCII
    characters go (the program's also strip U+00A0, U+FEFF and the other
    Unicode space characters). *)
Definition isSpace (c : ascii) : bool :=
  let n := nat_of_ascii c in
  ((9 <=? n)%nat && (n <=? 13)%nat) || (n =? 32)%nat.

Fixpoint trimStart (s : string) : string :=
  match s with
  | String c rest => if isSpace c then trimStart rest else s
  | EmptyString => EmptyString
  end.

Fixpoint trimEnd (s : string) : string :=
  match s with
  | EmptyString => EmptyString
  | String c rest =>
      match trimEnd rest with
      | EmptyString => if isSpace c then EmptyString else String c EmptyString
      | r => String c r
      end
  end.

Definition trim (s : string) : string := trimEnd (trimStart s).

(** Value of a digit in the given radix, if it is one. *)
Definition digitValue (radix : Z) (c : ascii) : option Z :=
  let n := Z.of_nat (nat_of_ascii c) in
  let v := if (48 <=? n) && (n <=? 57) then Some (n - 48)
           else if (97 <=? n) && (n <=? 122) then Some (n - 87)
           else if (65 <=? n) && (n <=? 90) then Some (n - 55)
           else None in
  match v with
  | Some d => if d <? radix then Some d else None
  | None => None
  end.

(** Longest prefix of digits, accumulated; [None] when there is no digit. *)
Fixpoint parseDigits (radix : Z) (s : string) (acc : option Z) : option Z :=
  match s with
  | EmptyString => acc
  | String c rest =>
      match digitValue radix c with
      | Some d => parseDigits radix rest (Some (radix * default 0 acc + d))
      | None => acc
      end
  end.

Definition isX (c : ascii) : bool :=
  Ascii.eqb c "x"%char || Ascii.eqb c "X"%char.

Definition parseUnsigned (s : string) : option Z :=
  match s with
  | String "0"%char (String c rest) =>
      if isX c then parseDigits 16 rest None else parseDigits 10 s None
  | _ => parseDigits 10 s None
  end.

(** [parseInt(s)] with no radix argument.  The value is the integer the
    digits denote; the program's is the nearest number, which is the same
    for magnitudes up to [2^53]. *)
Definition parseInt (s : string) : Num :=
  match trimStart s with
  | String "-"%char rest => Z.opp <$> parseUnsigned rest
  | String "+"%char rest => parseUnsigned rest
  | t => parseUnsigned t
  end.

(** ** Provider registry *)

(** [quadKey(x, y, z)]: the loop [for (let i = z; i > 0; i--)], with [n]
    the current value of [i]. *)
Fixpoint quadKey_loop (n : nat) (x y : Z) (key : string) : string :=
  match n with
  | O => key
  | S n' =>
      let i := Z.of_nat n in
      let mask := js_shl 1 (i - 1) in
      let digit := 0 in
      let digit := if js_and x mask =? 0 then digit else digit + 1 in
      let digit := if js_and y mask =? 0 then digit else digit + 2 in
      quadKey_loop n' x y (key +:+ numberToString digit)
  end.

(** The digit one round of that loop computes, for the shift count [k]. *)
Definition roundDigit (x y k : Z) : Z :=
  let mask := js_shl 1 k in
  let digit := 0 in
  let digit := if js_and x mask =? 0 then digit else digit + 1 in
  if js_and y mask =? 0 then digit else digit + 2.

Definition quadKey (x y z : Z) : string :=
  quadKey_loop (Z.to_nat z) x y "".

(** [quadKey] called with numbers that may be [NaN]: a [NaN] zoom never
    enters the loop, a [NaN] coordinate is 0 under [ToInt32]. *)
Definition quadKeyNum (x y z : Num) : string :=
  match z with
  | Some z' => quadKey (default 0 x) (default 0 y) z'
  | None => ""
  end.

Inductive TileProvider : Type :=
  | GoogleTileProvider (langParam : string)
  | YandexTileProvider (langParam : string)
  | OpenStreetMapTileProvider
  | BingTileProvider.

Definition name (p : TileProvider) : string :=
  match p with
  | GoogleTileProvider _ => "google"
  | YandexTileProvider _ => "yandex"
  | OpenStreetMapTileProvider => "osm"
  | BingTileProvider => "bing"
  end.

(** [lang ? prefix + lang : ''] ([null] and the empty string are falsy). *)
Definition langParamOf (prefix : string) (lang : option string) : string :=
  match lang with
  | Some l => if String.eqb l "" then "" else prefix +:+ l
  | None => ""
  end.

Inductive RunError : Type :=
  | UnsupportedProvider (providerName : string)
  | LedgerIOError.

(** [TileProviderFactory.create(providerName, lang)]. *)
Definition create (providerName : string) (lang : option string)
  : RunError + TileProvider :=
  if String.eqb providerName "google" then
    inr (GoogleTileProvider (langParamOf "&hl=" lang))
  else if String.eqb providerName "yandex" then
    inr (YandexTileProvider (langParamOf "&lang=" lang))
  else if String.eqb providerName "osm" then inr OpenStreetMapTileProvider
  else if String.eqb providerName "bing" then inr BingTileProvider
  else inl (UnsupportedProvider providerName).

(** [(x + y) % 4] (remainder with the sign of the dividend). *)
Definition bingServer (x y : Num) : Num :=
  match x, y with
  | Some a, Some b => Some (Z.rem (a + b) 4)
  | _, _ => None
  end.

Definition getTileUrl (p : TileProvider) (x y z : Num) : string :=
  match p with
  | GoogleTileProvider langParam =>
      "https://mt.google.com/vt/lyrs=y&x=" +:+ numToString x +:+ "&y="
        +:+ numToString y +:+ "&z=" +:+ numToString z +:+ langParam
  | YandexTileProvider langParam =>
      "https://core-renderer-tiles.maps.yandex.net/tiles?l=sat&x="
        +:+ numToString x +:+ "&y=" +:+ numToString y +:+ "&z="
        +:+ numToString z +:+ langParam
  | OpenStreetMapTileProvider =>
      "https://tile.openstreetmap.org/" +:+ numToString z +:+ "/"
        +:+ numToString x +:+ "/" +:+ numToString y +:+ ".png"
  | BingTileProvider =>
      "https://ecn.t" +:+ numToString (bingServer x y)
        +:+ ".tiles.virtualearth.net/tiles/a" +:+ quadKeyNum x y z
        +:+ ".png?g=1"
  end.

(** ** Coordinate math *)

(** The engine's [Math] object: [Math.PI] and the transcendental functions,
    whose results ECMAScript leaves to the implementation. *)
Class JsMath : Type := {
  Math_PI : float;
  Math_pow : float -> float -> float;
  Math_atan : float -> float;
  Math_sinh : float -> float
}.

(** The number holding an integer loop counter (exact below 2^53). *)
Definition numberOfZ (n : Z) : float :=
  if n <? 0 then PrimFloat.opp (PrimFloat.of_uint63 (Uint63.of_Z (- n)))
  else PrimFloat.of_uint63 (Uint63.of_Z n).

Record Bounds : Type := {
  north : float;
  south : float;
  east : float;
  west : float
}.

(** [isTileInBounds] of the downloader: [if (!bounds) return true] first. *)
Definition isTileInBounds `{JsMath} (x y z : float) (bounds : option Bounds)
  : bool :=
  match bounds with
  | None => true
  | Some b =>
      let n := Math_pow 2%float z in
      let lon_deg := (x / n * 360.0 - 180.0)%float in
      let lat_rad :=
        Math_atan (Math_sinh (Math_PI * (1 - 2 * y / n)))%float in
      let lat_deg := (lat_rad * 180.0 / Math_PI)%float in
      (south b <=? lat_deg)%float && (lat_deg <=? north b)%float
        && (west b <=? lon_deg)%float && (lon_deg <=? east b)%float
  end.

(** [isTileInBounds] of the first downloader: no guard, the caller tests
    [!bounds] itself, so it is only ever given a box. *)
Definition isTileInBounds_unguarded `{JsMath} (x y z : float) (b : Bounds)
  : bool :=
  let n := Math_pow 2%float z in
  let lon_deg := (x / n * 360.0 - 180.0)%float in
  let lat_rad := Math_atan (Math_sinh (Math_PI * (1 - 2 * y / n)))%float in
  let lat_deg := (lat_rad * 180.0 / Math_PI)%float in
  (south b <=? lat_deg)%float && (lat_deg <=? north b)%float
    && (west b <=? lon_deg)%float && (lon_deg <=? east b)%float.

(** The test of both enumeration loops:
    [!bounds || isTileInBounds(x, y, z, bounds)]. *)
Definition keepTile `{JsMath} (bounds : option Bounds) (z x y : Z) : bool :=
  negb (bool_decide (is_Some bounds))
  || isTileInBounds (numberOfZ x) (numberOfZ y) (numberOfZ z) bounds.

Definition keepTile_unguarded `{JsMath} (bounds : option Bounds) (z x y : Z)
  : bool :=
  match bounds with
  | None => true
  | Some b =>
      isTileInBounds_unguarded (numberOfZ x) (numberOfZ y) (numberOfZ z) b
  end.

(** What the specification calls [tileToGeo]: the formulas in its words,
    read with the usual precedence.  (Compared with [isTileInBounds].) *)
Definition tileToGeo_lon `{JsMath} (x zoom : float) : float :=
  (x / Math_pow 2 zoom * 360 - 180)%float.

Definition tileToGeo_lat `{JsMath} (y zoom : float) : float :=
  (Math_atan (Math_sinh (Math_PI * (1 - 2 * y / Math_pow 2 zoom)))
     * 180 / Math_PI)%float.

(** ** File system and tile store *)

Abbreviation Path := (list string).

Record FS : Type := {
  dirs : gset Path;
  files : gmap Path (list byte)
}.

Definition TILE_FOLDER : string := "tiles".

(** [fs.existsSync(p)]. *)
Definition existsSync (fs : FS) (p : Path) : bool :=
  bool_decide (is_Some (files fs !! p)) || bool_decide (p ∈ dirs fs).

(** The path and all its ancestors, shortest first. *)
Definition ancestors (d : Path) : list Path :=
  map (fun n => take n d) (seq 1 (length d)).

(** [fs.mkdirSync(d, { recursive: true })]. *)
Definition mkdirSync (fs : FS) (d : Path) : FS :=
  {| dirs := dirs fs ∪ list_to_set (ancestors d); files := files fs |}.

(** The state [fs.writeFileSync(p, data)] leaves: the file at [p] itself is
    opened (created or truncated) and filled; [content] is all of [data]
    when the call returns, and what had been written when it does not. *)
Definition writeFileSync (fs : FS) (p : Path) (content : list byte) : FS :=
  {| dirs := dirs fs; files := <[p := content]> (files fs) |}.

(** [path.join(TILE_FOLDER, provider, z.toString(), x.toString())], each
    argument one component: so it is for the names of the four providers
    and for printed numbers.  (A provider field of a ledger line that is
    empty, [.], [..] or holds a [/] is normalised by [path.join].) *)
Definition tileDir (provider : string) (z x : Num) : Path :=
  [TILE_FOLDER; provider; numToString z; numToString x].

(** [path.join(outputDir, `${y}.png`)]. *)
Definition tileFile (provider : string) (z x y : Num) : Path :=
  tileDir provider z x ++ [numToString y +:+ ".png"].

(** What the environment answers to [axios.get]. *)
Inductive FetchResult : Type :=
  | FetchFail
  | FetchOk (data : list byte).

(** What the disk answers to [mkdirSync] and [writeFileSync]: [MkdirFail]
    when [mkdirSync] throws (it is taken to create nothing then),
    [WriteFail None] when the file could not be opened, [WriteFail (Some k)]
    when the write stopped (error or crash) after [k] bytes. *)
Inductive DiskResult : Type :=
  | DiskOk
  | MkdirFail
  | WriteFail (written : option nat).

(** One call of [saveTile] with the paths it computes. *)
Record Job : Type := {
  url : string;
  outputDir : Path;
  outputFile : Path;
  (** the line the caller's [catch] appends to the ledger, if it does *)
  failedLine : option string
}.

(** [saveTile] up to its [await]: [true] when it returns at once because
    the file exists. *)
Definition saveTile_enter (fs : FS) (j : Job) : bool :=
  existsSync fs (outputFile j).

(** [saveTile] after [axios.get] has settled: the file system it leaves,
    the content it wrote if it reached the file, and whether it returned
    ([true]) or threw ([false]). *)
Definition saveTile_resume (fs : FS) (j : Job) (net : FetchResult)
    (disk : DiskResult) : FS * option (list byte) * bool :=
  match net with
  | FetchFail => (fs, None, false)
  | FetchOk data =>
      match disk with
      | MkdirFail => (fs, None, false)
      | WriteFail None => (mkdirSync fs (outputDir j), None, false)
      | WriteFail (Some k) =>
          let part := take k data in
          (writeFileSync (mkdirSync fs (outputDir j)) (outputFile j) part,
           Some part, false)
      | DiskOk =>
          (writeFileSync (mkdirSync fs (outputDir j)) (outputFile j) data,
           Some data, true)
      end
  end.

(** ** Failure ledger *)

Record World : Type := {
  fs : FS;
  (** content of [failed_tiles.log]; [None] when the file is absent *)
  ledger : option string
}.

(** [fs.appendFileSync(FAILED_TILES_LOG, line)]. *)
Definition appendLedger (w : World) (line : string) : World :=
  {| fs := fs w; ledger := Some (default "" (ledger w) +:+ line) |}.

(** [fs.unlinkSync(FAILED_TILES_LOG)]. *)
Definition unlinkLedger (w : World) : World :=
  {| fs := fs w; ledger := None |}.

Definition withFs (w : World) (f : FS) : World :=
  {| fs := f; ledger := ledger w |}.

(** The line [downloadTilesForZoom] appends:
    [`${providerInstance.name},${z},${x},${y},${lang}\n`]. *)
Definition failedTileLine (providerName : string) (z x y : Z) (lang : string)
  : string :=
  providerName +:+ "," +:+ numberToString z +:+ "," +:+ numberToString x
    +:+ "," +:+ numberToString y +:+ "," +:+ lang +:+ newline.

(** The line [downloadTilesParallel] appends and the [logEntry] of
    [logFailedTile]: [`${provider},${z},${x},${y}\n`]. *)
Definition failedTileLine_noLang (providerName : string) (z x y : Z)
  : string :=
  providerName +:+ "," +:+ numberToString z +:+ "," +:+ numberToString x
    +:+ "," +:+ numberToString y +:+ newline.

(** ** Acquisition scheduler *)

(** Number of iterations of [for (let x = 0; x < Math.pow(2, z); x++)].
    [Math.pow(2, z)] is [2^z] for [0 <= z]; it lies strictly between 0 and
    1 for [-1074 <= z < 0], down to the smallest positive number, and the
    loop runs once; below that it is 0 and the loop does not run.  (The
    counter is exact up to [2^53]: for [z > 53] the loop of the program
    does not come to an end, and the list below is what it goes through.) *)
Definition loopBound (z : Z) : Z :=
  if z <? -1074 then 0 else if z <? 0 then 1 else 2 ^ z.

Definition range (n : Z) : list Z := map Z.of_nat (seq 0 (Z.to_nat n)).

(** The coordinates the two nested loops keep, in the order they meet
    them: [x] outer, [y] inner. *)
Definition enumerate (keep : Z -> Z -> bool) (z : Z) : list (Z * Z) :=
  flat_map
    (fun x => flat_map (fun y => if keep x y then [(x, y)] else [])
                       (range (loopBound z)))
    (range (loopBound z)).

(** The body of the loops: push, and once [tilePromises.length ===
    maxThreads] run the buffer as one batch and empty it; after the loops,
    run what is left.  The result lists the batches passed to
    [Promise.all], in order.  (The loops are suspended while a batch runs;
    the test that keeps a coordinate is pure, so that the coordinates still
    to come, [todo], are the same computed up front.) *)
Fixpoint batchLoop {A : Type} (maxThreads : Z) (todo tilePromises : list A)
  : list (list A) :=
  match todo with
  | [] => match tilePromises with [] => [] | _ => [tilePromises] end
  | t :: rest =>
      let pushed := tilePromises ++ [t] in
      if Z.of_nat (length pushed) =? maxThreads
      then pushed :: batchLoop maxThreads rest []
      else batchLoop maxThreads rest pushed
  end.

(** How a thunk settled. *)
Inductive Settled : Type :=
  | Skipped     (* the tile file existed *)
  | Saved       (* fetched and written *)
  | Failed      (* fetch or write failed; the [catch] block ran through *)
  | Rejected.   (* the [catch] block itself threw: the ledger append failed *)

Inductive Event : Type :=
  | EvStart (j : Job)                  (* the thunk is called *)
  | EvFetch (j : Job)                  (* [axios.get(url)] is issued *)
  | EvWrite (file : Path) (content : list byte) (* [writeFileSync] reached the file *)
  | EvAppend (line : string)           (* a line is appended to the ledger *)
  | EvProgress (completed total : nat) (* a progress line is reported *)
  | EvSettle (j : Job) (how : Settled). (* the thunk's promise settles *)

(** A started thunk, suspended at [await saveTile(...)]. *)
Inductive Slot : Type :=
  | Existing (j : Job)    (* [saveTile] returned at once *)
  | Fetching (j : Job).   (* [saveTile] waits for [axios.get] *)

Definition slotJob (s : Slot) : Job :=
  match s with Existing j => j | Fetching j => j end.

(** One pass of the batch loop (one call of [downloadTilesForZoom] or of
    [processFailedTiles]) at one of its [await]s. *)
Record Pass : Type := {
  pending : list (list Job);   (* batches not yet started *)
  flight : list Slot;          (* started thunks that have not settled *)
  completedTiles : nat;
  totalTiles : nat;
  rejected : bool;             (* [Promise.all] rejected: the pass threw *)
  world : World;
  trace : list Event           (* what the pass has done, oldest first *)
}.

(** The choices of the environment and of the event loop. *)
Inductive Choice : Type :=
  | Launch
  | Settle (i : nat) (net : FetchResult) (disk : DiskResult)
           (ledgerOk : bool).

(** Calling one thunk: it runs [saveTile] up to the [await]. *)
Definition startThunk (f : FS) (j : Job) : Slot :=
  if saveTile_enter f j then Existing j else Fetching j.

Definition startEvents (f : FS) (j : Job) : list Event :=
  if saveTile_enter f j then [EvStart j] else [EvStart j; EvFetch j].

(** [await Promise.all(tilePromises.map(promise => promise()))]: every
    thunk of the next batch is called, in order, before anything else
    runs.  Only possible when the previous [await] has returned. *)
Definition launch (p : Pass) : option Pass :=
  match pending p, flight p, rejected p with
  | b :: bs, [], false =>
      Some {| pending := bs;
              flight := map (startThunk (fs (world p))) b;
              completedTiles := completedTiles p;
              totalTiles := totalTiles p;
              rejected := false;
              world := world p;
              trace := trace p ++ flat_map (startEvents (fs (world p))) b |}
  | _, _, _ => None
  end.

Definition writeEvents (j : Job) (wrote : option (list byte)) : list Event :=
  match wrote with
  | Some content => [EvWrite (outputFile j) content]
  | None => []
  end.

(** The rest of a thunk once its [saveTile] has settled: on return,
    [completedTiles++] and the progress line; in the [catch] block, the
    ledger append of a download thunk (a retry thunk only logs).  The
    calls of [logToFile] return here, in [saveTile] and in the thunk: this
    machine runs the program with a log file that takes every line.
    [Logged.resume] below is the thunk whose log lines may fail. *)
Definition resume (p : Pass) (rest : list Slot) (s : Slot)
    (net : FetchResult) (disk : DiskResult) (ledgerOk : bool) : Pass :=
  let counted (w : World) (evs : list Event) (how : Settled) :=
    {| pending := pending p; flight := rest;
       completedTiles := S (completedTiles p);
       totalTiles := totalTiles p;
       rejected := rejected p;
       world := w;
       trace := trace p ++ evs
                  ++ [EvProgress (S (completedTiles p)) (totalTiles p);
                      EvSettle (slotJob s) how] |} in
  let caught (w : World) (evs : list Event) (how : Settled) (rej : bool) :=
    {| pending := pending p; flight := rest;
       completedTiles := completedTiles p;
       totalTiles := totalTiles p;
       rejected := rejected p || rej;
       world := w;
       trace := trace p ++ evs ++ [EvSettle (slotJob s) how] |} in
  match s with
  | Existing j => counted (world p) [] Skipped
  | Fetching j =>
      let '(f, wrote, ok) := saveTile_resume (fs (world p)) j net disk in
      let w := withFs (world p) f in
      if ok then counted w (writeEvents j wrote) Saved
      else match failedLine j with
           | Some line =>
               if ledgerOk
               then caught (appendLedger w line)
                           (writeEvents j wrote ++ [EvAppend line]) Failed false
               else caught w (writeEvents j wrote) Rejected true
           | None => caught w (writeEvents j wrote) Failed false
           end
  end.

Definition step (p : Pass) (c : Choice) : option Pass :=
  match c with
  | Launch => launch p
  | Settle i net disk ledgerOk =>
      match flight p !! i with
      | Some s => Some (resume p (delete i (flight p)) s net disk ledgerOk)
      | None => None
      end
  end.

Fixpoint exec (p : Pass) (script : list Choice) : option Pass :=
  match script with
  | [] => Some p
  | c :: cs => match step p c with
               | Some p' => exec p' cs
               | None => None
               end
  end.

(** The pass has nothing left to run. *)
Definition finished (p : Pass) : bool :=
  match pending p, flight p with
  | [], [] => true
  | _, _ => false
  end.

(** Nothing in flight and no further batch will start. *)
Definition quiescent (p : Pass) : bool :=
  match flight p with
  | [] => rejected p || finished p
  | _ => false
  end.

Definition startPass (jobs : list Job) (maxThreads : Z) (w : World) : Pass :=
  {| pending := batchLoop maxThreads jobs [];
     flight := [];
     completedTiles := 0;
     totalTiles := length jobs;
     rejected := false;
     world := w;
     trace := [] |}.

(** The thunk [downloadTilesForZoom] pushes for the tile [(x, y)]. *)
Definition tileJob (provider : TileProvider) (z : Z) (lang : string)
    (xy : Z * Z) : Job :=
  let '(x, y) := xy in
  {| url := getTileUrl provider (Some x) (Some y) (Some z);
     outputDir := tileDir (name provider) (Some z) (Some x);
     outputFile := tileFile (name provider) (Some z) (Some x) (Some y);
     failedLine := Some (failedTileLine (name provider) z x y lang) |}.

(** The thunk [downloadTilesParallel] pushes for the tile [(x, y)]: the
    same call of [saveTile], a ledger line without the locale. *)
Definition parallelJob (provider : TileProvider) (z : Z) (xy : Z * Z) : Job :=
  let '(x, y) := xy in
  {| url := getTileUrl provider (Some x) (Some y) (Some z);
     outputDir := tileDir (name provider) (Some z) (Some x);
     outputFile := tileFile (name provider) (Some z) (Some x) (Some y);
     failedLine := Some (failedTileLine_noLang (name provider) z x y) |}.

Definition zoomJobs `{JsMath} (provider : TileProvider) (z : Z)
    (bounds : option Bounds) (lang : string) : list Job :=
  map (tileJob provider z lang) (enumerate (keepTile bounds z) z).

(** How a call ended. *)
Inductive Returned : Type :=
  | Normal
  | Threw (e : RunError).

(** The world and what the program has done so far. *)
Definition State : Type := World * list Event.

(** The pass a call of [downloadTilesForZoom] starts in. *)
Definition zoomPass `{JsMath} (provider : TileProvider) (z : Z)
    (bounds : option Bounds) (maxThreads : Z) (lang : string) (st : State)
  : Pass :=
  startPass (zoomJobs provider z bounds lang) maxThreads st.1.

(** [downloadTilesForZoom] run to the end under a script; [None] when the
    script is not a complete run of it.  (With a log file that takes every
    line; [Logged.downloadTilesForZoom] is the call whose log lines may
    fail.) *)
Definition downloadTilesForZoom `{JsMath} (provider : TileProvider) (z : Z)
    (bounds : option Bounds) (maxThreads : Z) (lang : string) (st : State)
    (script : list Choice) : option (Returned * State) :=
  match exec (zoomPass provider z bounds maxThreads lang st) script with
  | Some p =>
      if quiescent p
      then Some (if rejected p then Threw LedgerIOError else Normal,
                 (world p, st.2 ++ trace p))
      else None
  | None => None
  end.

(** [for (let z = zoomStart; z <= zoomEnd; z++)]. *)
Definition zoomLevels (zoomStart zoomEnd : Z) : list Z :=
  map (fun k => zoomStart + Z.of_nat k)
      (seq 0 (Z.to_nat (zoomEnd - zoomStart + 1))).

(** The zoom loop of [main]: one script per zoom level. *)
Fixpoint zoomLoop `{JsMath} (provider : TileProvider) (zs : list Z)
    (bounds : option Bounds) (maxThreads : Z) (lang : string) (st : State)
    (scripts : list (list Choice)) : option (Returned * State) :=
  match zs, scripts with
  | [], _ => Some (Normal, st)
  | z :: zs', sc :: scs =>
      match downloadTilesForZoom provider z bounds maxThreads lang st sc with
      | Some (Normal, st') =>
          zoomLoop provider zs' bounds maxThreads lang st' scs
      | Some (Threw e, st') => Some (Threw e, st')
      | None => None
      end
  | _ :: _, [] => None
  end.

(** ** Retry pass *)

(** The thunk [processFailedTiles] pushes for one ledger line: the URL comes
    from the provider of the current run, the path from the line. *)
Definition retryJob (provider : TileProvider) (line : string) : Job :=
  let fields := split COMMA line in
  let providerName := nth 0 fields "undefined" in
  let z := parseInt (nth 1 fields "undefined") in
  let x := parseInt (nth 2 fields "undefined") in
  let y := parseInt (nth 3 fields "undefined") in
  {| url := getTileUrl provider x y z;
     outputDir := tileDir providerName z x;
     outputFile := tileFile providerName z x y;
     failedLine := None |}.

(** The lines [processFailedTiles] reads from a ledger with this content. *)
Definition ledgerLines (content : string) : list string :=
  split LF (trim content).

(** What the ledger file answers beside the pass itself. *)
Record RetryScript : Type := {
  readOk : bool;            (* [readFileSync] returns *)
  choices : list Choice;    (* the batch loop *)
  unlinkOk : bool           (* [unlinkSync] returns *)
}.

(** [processFailedTiles(providerInstance, maxThreads)], with a log file
    that takes every line ([Logged.processFailedTiles] is the call whose
    log lines may fail). *)
Definition processFailedTiles (provider : TileProvider) (maxThreads : Z)
    (st : State) (rs : RetryScript) : option (Returned * State) :=
  match ledger st.1 with
  | None => Some (Normal, st)
  | Some content =>
      if negb (readOk rs) then Some (Threw LedgerIOError, st)
      else
        let failedTiles := ledgerLines content in
        match failedTiles with
        | [] => Some (Normal, st)
        | _ =>
            match exec (startPass (map (retryJob provider) failedTiles)
                                  maxThreads st.1) (choices rs) with
            | Some p =>
                if finished p
                then if unlinkOk rs
                     then Some (Normal,
                                (unlinkLedger (world p), st.2 ++ trace p))
                     else Some (Threw LedgerIOError,
                                (world p, st.2 ++ trace p))
                else None
            | None => None
            end
        end
  end.

(** ** The program *)

Record MainScript : Type := {
  retryBefore : RetryScript;
  zoomScripts : list (list Choice);
  retryAfter : RetryScript
}.

(** [main()], from the parsed command line, with a log file that takes
    every line.  ([Logged.main] is [main] from the command line itself,
    with [JSON.parse] and a log file that may fail.) *)
Definition main `{JsMath} (providerName : string) (zoomStart zoomEnd : Z)
    (bounds : option Bounds) (lang : string) (maxThreads : Z) (w : World)
    (ms : MainScript) : option (Returned * State) :=
  match create providerName (Some lang) with
  | inl e => Some (Threw e, (w, []))
  | inr provider =>
      match processFailedTiles provider maxThreads (w, []) (retryBefore ms) with
      | Some (Normal, st1) =>
          match zoomLoop provider (zoomLevels zoomStart zoomEnd) bounds
                         maxThreads lang st1 (zoomScripts ms) with
          | Some (Normal, st2) =>
              processFailedTiles provider maxThreads st2 (retryAfter ms)
          | r => r
          end
      | r => r
      end
  end.

(** ** The first version of [index.js]

    It has no retry pass, creates the provider anew for every zoom level
    and writes ledger lines without the locale. *)

(** [a || b] for numbers: [b] when [a] is 0 or [NaN]. *)
Definition orNum (a b : Num) : Num :=
  match a with
  | Some 0 | None => b
  | Some _ => a
  end.

(** The thunks [downloadTilesParallel] pushes, in order. *)
Definition parallelJobs `{JsMath} (provider : TileProvider) (z : Z)
    (bounds : option Bounds) : list Job :=
  map (parallelJob provider z) (enumerate (keepTile_unguarded bounds z) z).

(** [downloadTilesParallel] run to the end under a script; [None] when the
    script is not a complete run of it. *)
Definition downloadTilesParallel `{JsMath} (provider : TileProvider) (z : Z)
    (bounds : option Bounds) (maxThreads : Z) (st : State)
    (script : list Choice) : option (Returned * State) :=
  match exec (startPass (parallelJobs provider z bounds) maxThreads st.1)
             script with
  | Some p =>
      if quiescent p
      then Some (if rejected p then Threw LedgerIOError else Normal,
                 (world p, st.2 ++ trace p))
      else None
  | None => None
  end.

(** The values [z] takes in [for (let z = zoomStart; z <= zoomEnd; z++)]
    for numbers that may be [NaN]: a comparison with [NaN] is false. *)
Definition zoomLevelsNum (zoomStart zoomEnd : Num) : list Z :=
  match zoomStart, zoomEnd with
  | Some a, Some b => zoomLevels a b
  | _, _ => []
  end.

(** The loop of [downloadZoomRange]: the provider is created at every
    level, before the level's pass. *)
Fixpoint rangeLoop `{JsMath} (provider : string) (zs : list Z)
    (bounds : option Bounds) (lang : string) (maxThreads : Z) (st : State)
    (scripts : list (list Choice)) : option (Returned * State) :=
  match zs with
  | [] => Some (Normal, st)
  | z :: zs' =>
      match create provider (Some lang) with
      | inl e => Some (Threw e, st)
      | inr providerInstance =>
          match scripts with
          | sc :: scs =>
              match downloadTilesParallel providerInstance z bounds
                                          maxThreads st sc with
              | Some (Normal, st') =>
                  rangeLoop provider zs' bounds lang maxThreads st' scs
              | Some (Threw e, st') => Some (Threw e, st')
              | None => None
              end
          | [] => None
          end
      end
  end.

(** [downloadZoomRange(provider, zoomStart, zoomEnd, bounds, lang,
    maxThreads)]: [zoomEnd = zoomEnd || zoomStart], then the loop. *)
Definition downloadZoomRange `{JsMath} (provider : string)
    (zoomStart zoomEnd : Num) (bounds : option Bounds) (lang : string)
    (maxThreads : Z) (st : State) (scripts : list (list Choice))
  : option (Returned * State) :=
  let zoomEnd := orNum zoomEnd zoomStart in
  rangeLoop provider (zoomLevelsNum zoomStart zoomEnd) bounds lang maxThreads
            st scripts.

(** ** The command line *)

(** [a || b] for a number [b] that is not [NaN]. *)
Definition orZ (a : Num) (b : Z) : Z :=
  match a with
  | Some 0 | None => b
  | Some v => v
  end.

(** [s || d] for an argument of the command line: [d] when the argument
    is missing or empty. *)
Definition orString (s : option string) (d : string) : string :=
  match s with
  | Some EmptyString | None => d
  | Some v => v
  end.

(** [parseInt(process.argv[i])]; a missing argument is [undefined]. *)
Definition parseIntArg (a : option string) : Num :=
  parseInt (default "undefined" a).

(** What [JSON.parse] answers for the bounds argument: it throws a
    [SyntaxError], or it returns a value; a value that is falsy ([null],
    [0], [false], the empty string) is [None], every other value is read
    as a box (a key that is missing compares as [NaN]). *)
Inductive Json : Type :=
  | JsonSyntaxError
  | JsonValue (bounds : option Bounds).

(** [process.argv[5] ? JSON.parse(process.argv[5]) : null]: an argument
    that is missing or empty is not parsed. *)
Definition boundsArg (JSON_parse : string -> Json) (a : option string)
  : Json :=
  match a with
  | Some (String c s) => JSON_parse (String c s)
  | Some EmptyString | None => JsonValue None
  end.



(** The body of [main] of the downloader after its first lines, for the
    zoom levels its loop runs through. *)
Definition mainLevels `{JsMath} (providerName : string) (levels : list Z)
    (bounds : option Bounds) (lang : string) (maxThreads : Z) (w : World)
    (ms : MainScript) : option (Returned * State) :=
  match create providerName (Some lang) with
  | inl e => Some (Threw e, (w, []))
  | inr provider =>
      match processFailedTiles provider maxThreads (w, []) (retryBefore ms) with
      | Some (Normal, st1) =>
          match zoomLoop provider levels bounds maxThreads lang st1
                         (zoomScripts ms) with
          | Some (Normal, st2) =>
              processFailedTiles provider maxThreads st2 (retryAfter ms)
          | r => r
          end
      | r => r
      end
  end.

(** [main] of the downloader from the command line.  A missing provider
    name is [undefined], which [create] reports under that name.  [bounds]
    is the value of [process.argv[5] ? JSON.parse(process.argv[5]) : null],
    for an argument [JSON.parse] accepts ([Logged.main] calls it). *)
Definition main_argv `{JsMath} (argv : list string) (bounds : option Bounds)
    (w : World) (ms : MainScript) : option (Returned * State) :=
  let providerName := default "undefined" (argv !! 2%nat) in
  let zoomStart := parseIntArg (argv !! 3%nat) in
  let zoomEnd := orNum (parseIntArg (argv !! 4%nat)) zoomStart in
  let lang := orString (argv !! 6%nat) "ru" in
  let maxThreads := orZ (parseIntArg (argv !! 7%nat)) 6 in
  mainLevels providerName (zoomLevelsNum zoomStart zoomEnd) bounds lang
             maxThreads w ms.

(** ** The log file *)

Definition LOG_FOLDER : string := "logs".
Definition MAX_LOG_LINES : Z := 150000.

(** What the clock answers during one call of [logToFile]:
    [dayjs().format('YYYY-MM-DD_HH-mm-ss')], read when a file is opened,
    and [new Date().toISOString()]. *)
Record Clock : Type := {
  stamp : string;
  isoTime : string
}.

(** [getLogFileName()]. *)
Definition getLogFileName (now : Clock) : Path :=
  [LOG_FOLDER; "log_" +:+ stamp now +:+ ".log"].

(** The variables [logFileName] and [logLines] and the files of the log
    folder. *)
Record Logger : Type := {
  logFileName : Path;
  logLines : Z;
  logFiles : gmap Path string
}.

(** [fs.appendFileSync(p, data)] on the log files (the folder [logs] is
    there: it is created when the program starts). *)
Definition appendFileSync (files : gmap Path string) (p : Path)
    (data : string) : gmap Path string :=
  <[p := default "" (files !! p) +:+ data]> files.

(** The state at the start: [let logFileName = getLogFileName(); let
    logLines = 0]. *)
Definition startLogger (now : Clock) (files : gmap Path string) : Logger :=
  {| logFileName := getLogFileName now; logLines := 0; logFiles := files |}.

(** [logToFile(message)]. *)
Definition logToFile (lg : Logger) (now : Clock) (message : string)
  : Logger :=
  let opened :=
    if MAX_LOG_LINES <=? logLines lg
    then {| logFileName := getLogFileName now; logLines := 0;
            logFiles := logFiles lg |}
    else lg in
  {| logFileName := logFileName opened;
     logLines := logLines opened + 1;
     logFiles :=
       appendFileSync (logFiles opened) (logFileName opened)
         (isoTime now +:+ " - " +:+ message +:+ newline) |}.

(** A sequence of calls of [logToFile], each with the clock it reads. *)
Definition logAll (lg : Logger) (calls : list (Clock * string)) : Logger :=
  fold_left (fun l c => logToFile l c.1 c.2) calls lg.

(** The file the call number [k] (from 0) of a sequence writes to, when
    the sequence starts with [c] messages in the file [current]: the
    current file for the first [MAX_LOG_LINES - c] calls, then for every
    block of [MAX_LOG_LINES] calls the file named after the clock of the
    block's first call. *)
Definition logTarget (current : Path) (c : Z) (calls : list (Clock * string))
    (k : nat) : Path :=
  let d := MAX_LOG_LINES - c in
  if Z.of_nat k <? d then current
  else
    let first := d + MAX_LOG_LINES * ((Z.of_nat k - d) / MAX_LOG_LINES) in
    match calls !! Z.to_nat first with
    | Some call => getLogFileName call.1
    | None => current
    end.

(** ** Reading a trace *)

Definition starts (tr : list Event) : list Job :=
  flat_map (fun e => match e with EvStart j => [j] | _ => [] end) tr.

Definition settles (tr : list Event) : list Job :=
  flat_map (fun e => match e with EvSettle j _ => [j] | _ => [] end) tr.

Definition outcomes (tr : list Event) : list Settled :=
  flat_map (fun e => match e with EvSettle _ how => [how] | _ => [] end) tr.

Definition fetches (tr : list Event) : list Job :=
  flat_map (fun e => match e with EvFetch j => [j] | _ => [] end) tr.

Definition writes (tr : list Event) : list Path :=
  flat_map (fun e => match e with EvWrite f _ => [f] | _ => [] end) tr.

Definition appends (tr : list Event) : list string :=
  flat_map (fun e => match e with EvAppend l => [l] | _ => [] end) tr.


(** The thunk went through its [try] block: the tile is there. *)
Definition counted (how : Settled) : bool :=
  match how with Skipped | Saved => true | Failed | Rejected => false end.

(** No [Settle] of the script makes the ledger append fail. *)
Definition ledgerFine (c : Choice) : bool :=
  match c with
  | Launch => true
  | Settle _ _ _ ledgerOk => ledgerOk
  end.

(** A complete script for a list of batches: each batch is launched and
    its thunks settle first to last, with the answers [env] gives. *)
Definition fifoScript (env : Job -> FetchResult * DiskResult)
    (batches : list (list Job)) : list Choice :=
  flat_map
    (fun b => Launch :: map (fun j => Settle 0 (env j).1 (env j).2 true) b)
    batches.

(** ** The specification's own wording, for comparison *)

(** The digit of bit position [i]: [bit_i(x) + 2 * bit_i(y)]. *)
Definition bitDigit (x y i : Z) : Z :=
  Z.b2z (Z.testbit x i) + 2 * Z.b2z (Z.testbit y i).

(** The digits for the bit positions [n - 1] down to [0]. *)
Fixpoint spec_digits (x y : Z) (n : nat) : string :=
  match n with
  | O => ""
  | S k => numberToString (bitDigit x y (Z.of_nat k)) +:+ spec_digits x y k
  end.

Definition spec_quadKey (x y z : Z) : string :=
  spec_digits x y (Z.to_nat z).

(** ** Auxiliary predicates on strings *)

Fixpoint contains (c : ascii) (s : string) : bool :=
  match s with
  | EmptyString => false
  | String d rest => Ascii.eqb d c || contains c rest
  end.

Definition isQuadDigit (c : ascii) : bool :=
  Ascii.eqb c "0" || Ascii.eqb c "1" || Ascii.eqb c "2" || Ascii.eqb c "3".

(** The characters of a printed integer. *)
Definition isNumChar (c : ascii) : bool :=
  Ascii.eqb c "-"
  || ((48 <=? nat_of_ascii c)%nat && (nat_of_ascii c <=? 57)%nat).

Fixpoint allChars (P : ascii -> bool) (s : string) : bool :=
  match s with
  | EmptyString => true
  | String d rest => P d && allChars P rest
  end.

(** ** The first retry loop

    [retryFailedTiles] of the first downloader.  Its [saveTile] has no
    existence test and catches every error itself ([logFailedTile] in the
    [catch] block, whose append is taken to succeed here), so the [catch]
    around [await saveTile(...)], which is meant to collect the lines that
    failed again, never runs. *)

(** [saveTile(url, x, y, z, provider)] of the first downloader, called
    with the fields of a ledger line: the world it leaves and whether it
    threw. *)
Definition saveTile_first (w : World) (provider z x y : string)
    (net : FetchResult) (disk : DiskResult) : World * bool :=
  let dir := [TILE_FOLDER; provider; z; x] in
  let file := dir ++ [y +:+ ".png"] in
  let logEntry :=
    provider +:+ "," +:+ z +:+ "," +:+ x +:+ "," +:+ y +:+ newline in
  match net with
  | FetchFail => (appendLedger w logEntry, false)
  | FetchOk data =>
      match disk with
      | DiskOk =>
          (withFs w (writeFileSync (mkdirSync (fs w) dir) file data), false)
      | MkdirFail => (appendLedger w logEntry, false)
      | WriteFail None =>
          (appendLedger (withFs w (mkdirSync (fs w) dir)) logEntry, false)
      | WriteFail (Some k) =>
          (appendLedger
             (withFs w (writeFileSync (mkdirSync (fs w) dir) file
                                      (take k data)))
             logEntry, false)
      end
  end.

(** The providers the first factory knows. *)
Definition supported_first (providerName : string) : bool :=
  String.eqb providerName "google" || String.eqb providerName "yandex".

(** The loop [for (const line of failedTiles)], one answer per line. *)
Fixpoint retryLoop_first (w : World) (failedTiles : list string)
    (answers : list (FetchResult * DiskResult))
    (remainingFailedTiles : list string)
  : option (Returned * World * list string) :=
  match failedTiles with
  | [] => Some (Normal, w, remainingFailedTiles)
  | line :: rest =>
      let fields := split COMMA line in
      let provider := nth 0 fields "undefined" in
      let z := nth 1 fields "undefined" in
      let x := nth 2 fields "undefined" in
      let y := nth 3 fields "undefined" in
      if supported_first provider then
        match answers with
        | a :: answers' =>
            let '(w', threw) := saveTile_first w provider z x y a.1 a.2 in
            retryLoop_first w' rest answers'
              (if threw then remainingFailedTiles ++ [line]
               else remainingFailedTiles)
        | [] => None
        end
      else Some (Threw (UnsupportedProvider provider), w,
                 remainingFailedTiles)
  end.

(** [remainingFailedTiles.join('\n')]. *)
Fixpoint join (sep : string) (l : list string) : string :=
  match l with
  | [] => ""
  | [a] => a
  | a :: rest => a +:+ sep +:+ join sep rest
  end.

(** [retryFailedTiles()]. *)
Definition retryFailedTiles (w : World)
    (answers : list (FetchResult * DiskResult)) : option (Returned * World) :=
  match ledger w with
  | None => Some (Normal, w)
  | Some content =>
      match retryLoop_first w (ledgerLines content) answers [] with
      | Some (Normal, w', remaining) =>
          Some (Normal,
                {| fs := fs w'; ledger := Some (join newline remaining) |})
      | Some (Threw e, w', _) => Some (Threw e, w')
      | None => None
      end
  end.

(** ** URL templates of the first downloader *)

(** What follows [pat] in [s] when [s] starts with [pat]. *)
Fixpoint stripPrefix (pat s : string) : option string :=
  match pat, s with
  | EmptyString, _ => Some s
  | String a p, String b r => if Ascii.eqb a b then stripPrefix p r else None
  | String _ _, EmptyString => None
  end.

(** The first occurrence of [pat] in [s]: what precedes it and what
    follows it. *)
Fixpoint indexSplit (pat s : string) : option (string * string) :=
  match stripPrefix pat s with
  | Some after => Some (EmptyString, after)
  | None =>
      match s with
      | EmptyString => None
      | String c rest =>
          match indexSplit pat rest with
          | Some (before, after) => Some (String c before, after)
          | None => None
          end
      end
  end.

(** The replacement text of [String.prototype.replace] for a string
    pattern: [$$], [$&], [$`] and [$'] are expanded, every other character
    stands for itself. *)
Fixpoint getSubstitution (matched before after repl : string) : string :=
  match repl with
  | EmptyString => EmptyString
  | String c r =>
      if Ascii.eqb c "$"
      then match r with
           | String d r' =>
               if Ascii.eqb d "$"
               then String "$" (getSubstitution matched before after r')
               else if Ascii.eqb d "&"
               then matched +:+ getSubstitution matched before after r'
               else if Ascii.eqb d "`"
               then before +:+ getSubstitution matched before after r'
               else if Ascii.eqb d "'"
               then after +:+ getSubstitution matched before after r'
               else String c (getSubstitution matched before after r)
           | EmptyString => String c EmptyString
           end
      else String c (getSubstitution matched before after r)
  end.

(** [s.replace(pat, repl)] for a string [pat]: the first occurrence only. *)
Definition js_replace (pat repl s : string) : string :=
  match indexSplit pat s with
  | Some (before, after) =>
      before +:+ getSubstitution pat before after repl +:+ after
  | None => s
  end.

(** The base URL [TileProviderFactory.create] of the first downloader
    gives the provider; [None] for a name it does not support. *)
Definition baseUrl_first (providerName : string) : option string :=
  if String.eqb providerName "google"
  then Some "https://mt1.google.com/vt/lyrs=y&x={x}&y={y}&z={z}"
  else if String.eqb providerName "yandex"
  then Some ("https://core-renderer-tiles.maps.yandex.net/tiles?l=map"
               +:+ "&v=21.07.10-0&x={x}&y={y}&z={z}&scale=1&lang=ru_RU")
  else None.

(** [getTileUrl(x, y, z)] of the first downloader, whose providers have
    no options: the three placeholders are replaced in turn. *)
Definition getTileUrl_first (baseUrl x y z : string) : string :=
  js_replace "{z}" z (js_replace "{y}" y (js_replace "{x}" x baseUrl)).

(** ** Statements and invariants *)

(** [tr] obeys the batch barrier for the batches [bs]: when a thunk
    starts, the thunks started before it are those of the earlier batches
    followed by its predecessors in its own batch, and the thunks settled
    before it are exactly those of the earlier batches. *)
Definition barrier (bs : list (list Job)) (tr : list Event) : Prop :=
  forall e1 j e2,
    tr = e1 ++ EvStart j :: e2 ->
    exists bs1 b1 b2 bs2,
      bs = bs1 ++ (b1 ++ j :: b2) :: bs2
      /\ starts e1 = concat bs1 ++ b1
      /\ Permutation (settles e1) (concat bs1).

(** Every batch holds between 1 and [c] items, and every batch but the
    last exactly [c]. *)
Definition batchSizes {A : Type} (c : Z) (bs : list (list A)) : Prop :=
  Forall (fun b => 1 <= Z.of_nat (length b) <= c) bs
  /\ forall bs1 b bs2,
       bs = bs1 ++ b :: bs2 -> bs2 <> [] -> Z.of_nat (length b) = c.

(** The invariant of a pass over the batches [bs]. *)
Definition passInv (bs : list (list Job)) (p : Pass) : Prop :=
  exists launched,
    bs = launched ++ pending p
    /\ starts (trace p) = concat launched
    /\ Permutation (starts (trace p))
                   (settles (trace p) ++ map slotJob (flight p))
    /\ barrier bs (trace p).

(** No batch, started or not, holds more than [n] thunks. *)
Definition flightInv (n : nat) (p : Pass) : Prop :=
  Forall (fun b => (length b <= n)%nat) (pending p)
  /\ (length (flight p) <= n)%nat.

(** How the thunk in slot [s] settles, given the answers. *)
Definition settledAs (f : FS) (s : Slot) (net : FetchResult)
    (disk : DiskResult) (ledgerOk : bool) : Settled :=
  match s with
  | Existing _ => Skipped
  | Fetching j =>
      if (saveTile_resume f j net disk).2 then Saved
      else match failedLine j with
           | Some _ => if ledgerOk then Failed else Rejected
           | None => Failed
           end
  end.


(** The ledger file after the given lines have been appended, in order. *)
Definition ledgerAfter (l : option string) (lines : list string)
  : option string :=
  fold_left (fun acc line => Some (default "" acc +:+ line)) lines l.

(** The ledger lines of the thunks that settled as [Failed]. *)
Definition failureLines (tr : list Event) : list string :=
  flat_map (fun e => match e with
                     | EvSettle j Failed =>
                         match failedLine j with
                         | Some line => [line]
                         | None => []
                         end
                     | _ => []
                     end) tr.

(** The ledger holds what it held plus one line per failed thunk. *)
Definition ledgerInv (l0 : option string) (p : Pass) : Prop :=
  ledger (world p) = ledgerAfter l0 (appends (trace p))
  /\ appends (trace p) = failureLines (trace p).

(** Some operation on the ledger file fails in the script. *)
Definition ledgerTrouble (ms : MainScript) : bool :=
  negb (readOk (retryBefore ms)) || negb (unlinkOk (retryBefore ms))
  || negb (forallb (forallb ledgerFine) (zoomScripts ms))
  || negb (readOk (retryAfter ms)) || negb (unlinkOk (retryAfter ms)).

(** A complete script for [processFailedTiles] in the state [st]. *)
Definition fifoRetry (env : Job -> FetchResult * DiskResult)
    (provider : TileProvider) (maxThreads : Z) (st : State) : RetryScript :=
  {| readOk := true;
     choices :=
       fifoScript env
         (batchLoop maxThreads
            (map (retryJob provider) (ledgerLines (default "" (ledger st.1))))
            []);
     unlinkOk := true |}.

(** The tile store only grows from [f0] to [f]: every file of [f0] is in
    [f] with the same bytes, and so is every directory. *)
Definition storeGrows (f0 f : FS) : Prop :=
  (forall q c, files f0 !! q = Some c -> files f !! q = Some c)
  /\ dirs f0 ⊆ dirs f.

(** The invariant of a pass that started with the file system [f0]: the
    store has only grown, and what the pass fetches and writes was not
    in [f0]. *)
Definition growInv (f0 : FS) (p : Pass) : Prop :=
  storeGrows f0 (fs (world p))
  /\ (forall j, Fetching j ∈ flight p -> files f0 !! outputFile j = None)
  /\ (forall q, q ∈ writes (trace p) ->
        files f0 !! q = None /\ is_Some (files (fs (world p)) !! q))
  /\ (forall j, j ∈ fetches (trace p) ->
        existsSync f0 (outputFile j) = false).

(** The paths written so far, those of the thunks in flight and those of
    the thunks still to start are pairwise distinct. *)
Definition freshInv (p : Pass) : Prop :=
  NoDup (writes (trace p)
           ++ map (fun s => outputFile (slotJob s)) (flight p)
           ++ map outputFile (concat (pending p))).

(** The invariant of a pass all of whose tiles are in the store. *)
Definition cachedInv (w0 : World) (p : Pass) : Prop :=
  world p = w0
  /\ rejected p = false
  /\ fetches (trace p) = [] /\ writes (trace p) = []
  /\ appends (trace p) = []
  /\ (forall s, s ∈ flight p -> exists j, s = Existing j)
  /\ (forall j, j ∈ concat (pending p) ->
        existsSync (fs w0) (outputFile j) = true).

(** The thunks that settled as [Failed], in the order they settled. *)
Definition failedJobs (tr : list Event) : list Job :=
  flat_map (fun e => match e with EvSettle j Failed => [j] | _ => [] end) tr.

(** The call of [saveTile] a thunk makes, whatever its [catch] block
    appends. *)
Definition withoutLine (j : Job) : Job :=
  {| url := url j; outputDir := outputDir j; outputFile := outputFile j;
     failedLine := None |}.

(** Every thunk of the pass, waiting, in flight or settled, satisfies [P]. *)
Definition jobsInv (P : Job -> Prop) (p : Pass) : Prop :=
  Forall P (concat (pending p))
  /\ Forall (fun s => P (slotJob s)) (flight p)
  /\ Forall P (settles (trace p)).

(** The tiles of the thunks that went through their [try] block are in
    the store, and so are those [saveTile] found there; a thunk settles
    as [Rejected] only in a pass that throws. *)
Definition doneInv (p : Pass) : Prop :=
  (forall j, Existing j ∈ flight p ->
     existsSync (fs (world p)) (outputFile j) = true)
  /\ (forall j how, EvSettle j how ∈ trace p ->
        match how with
        | Skipped | Saved => existsSync (fs (world p)) (outputFile j) = true
        | Failed => True
        | Rejected => rejected p = true
        end).

(** A retry pass leaves the ledger file alone: its thunks have no line to
    append, none of them rejects. *)
Definition retryInv (l0 : option string) (p : Pass) : Prop :=
  ledger (world p) = l0 /\ rejected p = false /\ appends (trace p) = [].

(** A box that can hold no point: an edge that is [NaN] (as for a box
    that lacks the key: [undefined] compares as [NaN]), or the north edge
    below the south edge, or the east edge west of the west edge. *)
Definition emptyBox (b : Bounds) : bool :=
  is_nan (south b) || is_nan (north b) || is_nan (west b) || is_nan (east b)
  || (north b <? south b)%float || (east b <? west b)%float.

(** ** Examples *)

(** An engine for the examples below.  They run without a bounding box,
    where no function of [Math] is called: only [Math_PI] is the real
    constant, the functions are placeholders. *)
Definition exampleMath : JsMath :=
  {| Math_PI := 0x1.921fb54442d18p+1%float;
     Math_pow := fun b _ => b;
     Math_atan := fun v => v;
     Math_sinh := fun v => v |}.

Definition emptyFS : FS := {| dirs := ∅; files := ∅ |}.

Definition emptyWorld : World := {| fs := emptyFS; ledger := None |}.

Definition google : TileProvider := GoogleTileProvider "&hl=ru".

(** A ledger holding the one record [google,1,0,0,ru]. *)
Definition oneFailure : World :=
  {| fs := emptyFS; ledger := Some ("google,1,0,0,ru" +:+ newline) |}.

(** The retry pass over [oneFailure] in which the fetch fails again. *)
Definition failsAgain : RetryScript :=
  {| readOk := true;
     choices := [Launch; Settle 0 FetchFail DiskOk true];
     unlinkOk := true |}.

Definition sampleTile : Job := tileJob google 1 "ru" (0, 0).

Definition sampleData : list byte := [x01; x02; x03; x04].

(** A ledger of the first downloader holding the record [google,1,0,0]. *)
Definition oneFailure_first : World :=
  {| fs := emptyFS; ledger := Some ("google,1,0,0" +:+ newline) |}.

(** A run of zoom level 1 (four tiles, three thunks at a time) in which
    one fetch fails, one write stops half way and two tiles are saved. *)
Definition mixedRun : list Choice :=
  [Launch;
   Settle 1 FetchFail DiskOk true;
   Settle 0 (FetchOk sampleData) DiskOk true;
   Settle 0 (FetchOk sampleData) (WriteFail (Some 1%nat)) true;
   Launch;
   Settle 0 (FetchOk sampleData) DiskOk true].

(** A store that holds the only tile of zoom level 0. *)
Definition cachedWorld : World :=
  {| fs := writeFileSync emptyFS
             (outputFile (tileJob google 0 "ru" (0, 0))) sampleData;
     ledger := None |}.

(** A retry pass over two records, three thunks at a time. *)
Definition retryTwo : RetryScript :=
  {| readOk := true;
     choices := [Launch; Settle 0 FetchFail DiskOk true;
                 Settle 0 FetchFail DiskOk true];
     unlinkOk := true |}.

(** A run of [main] over zoom level 1: no ledger at the start, [mixedRun]
    in the zoom loop, then the retry pass over its two failures. *)
Definition mixedMain : MainScript :=
  {| retryBefore := failsAgain;
     zoomScripts := [mixedRun];
     retryAfter := retryTwo |}.

(** A box without its south edge. *)
Definition noSouth : Bounds :=
  {| north := 56%float; south := nan; east := 33%float; west := 23%float |}.

(** A ledger of three records. *)
Definition threeRecords : string :=
  "google,1,0,0,ru" +:+ newline +:+ "google,1,0,1,ru" +:+ newline
    +:+ "google,1,1,0,ru" +:+ newline.

(** ** Runs under a fixed environment *)

(** What [saveTile] writes to the tile file under the given answers, if it
    reaches the file. *)
Definition written (a : FetchResult * DiskResult) : option (list byte) :=
  match a with
  | (FetchOk data, DiskOk) => Some data
  | (FetchOk data, WriteFail (Some k)) => Some (take k data)
  | _ => None
  end.

(** Whether [saveTile] creates the directories under the given answers. *)
Definition madeDir (a : FetchResult * DiskResult) : bool :=
  match a with
  | (FetchOk _, DiskOk) | (FetchOk _, WriteFail _) => true
  | _ => false
  end.

(** The store the calls of [saveTile] leave when they run one after the
    other, in the order of the list, each to its end before the next
    starts, with the answers [env] gives for each of them. *)
Definition sequentialStore (env : Job -> FetchResult * DiskResult) (f : FS)
    (jobs : list Job) : FS :=
  fold_left
    (fun f j => if saveTile_enter f j then f
                else (saveTile_resume f j (env j).1 (env j).2).1.1)
    jobs f.

(** The script gives every thunk the answers of [env], in whatever order
    it lets the thunks settle. *)
Fixpoint obeys (env : Job -> FetchResult * DiskResult) (p : Pass)
    (script : list Choice) : Prop :=
  match script with
  | [] => True
  | c :: cs =>
      match c with
      | Launch => True
      | Settle i net disk _ =>
          match flight p !! i with
          | Some s => env (slotJob s) = (net, disk)
          | None => True
          end
      end
      /\ match step p c with
         | Some p' => obeys env p' cs
         | None => True
         end
  end.

(** The store [f] is the store [f0] after the calls of [saveTile] for the
    thunks [done], each of which found its tile in [f0] or not, have run
    to their ends under [env]. *)
Definition storeIs (f0 : FS) (env : Job -> FetchResult * DiskResult)
    (done : list Job) (f : FS) : Prop :=
  (forall j c, j ∈ done -> existsSync f0 (outputFile j) = false ->
     written (env j) = Some c -> files f !! outputFile j = Some c)
  /\ (forall q,
        (forall j, j ∈ done -> existsSync f0 (outputFile j) = false ->
           is_Some (written (env j)) -> q <> outputFile j) ->
        files f !! q = files f0 !! q)
  /\ (forall d, d ∈ dirs f <->
        d ∈ dirs f0
        \/ exists j, j ∈ done /\ existsSync f0 (outputFile j) = false
                     /\ madeDir (env j) = true
                     /\ d ∈ ancestors (outputDir j)).

(** No tile file of the list is a directory of the list. *)
Definition filesApart (jobs : list Job) : Prop :=
  forall j j', j ∈ jobs -> j' ∈ jobs ->
    outputFile j ∉ ancestors (outputDir j').

(** The invariant of a pass over [jobs] that started with the store [f0]
    and runs under [env]. *)
Definition schedInv (f0 : FS) (env : Job -> FetchResult * DiskResult)
    (jobs : list Job) (p : Pass) : Prop :=
  Permutation jobs
    (settles (trace p) ++ map slotJob (flight p) ++ concat (pending p))
  /\ storeIs f0 env (settles (trace p)) (fs (world p))
  /\ (forall s, s ∈ flight p -> s = startThunk f0 (slotJob s)).

(** The answers of [mixedRun], by tile. *)
Definition mixedEnv (j : Job) : FetchResult * DiskResult :=
  if String.eqb (url j) (url (tileJob google 1 "ru" (0, 1)))
  then (FetchFail, DiskOk)
  else if String.eqb (url j) (url (tileJob google 1 "ru" (1, 0)))
  then (FetchOk sampleData, WriteFail (Some 1%nat))
  else (FetchOk sampleData, DiskOk).

(** ** What a run changes *)



(** A [JSON.parse] for the examples: the text of one box, [null], and
    nothing else. *)
Definition exampleParse (s : string) : Json :=
  if String.eqb s "null" then JsonValue None
  else if String.eqb s "{}"
  then JsonValue (Some {| north := nan; south := nan; east := nan;
                          west := nan |})
  else JsonSyntaxError.

(** ** The program with its log file

    [logToFile] is an [fs.appendFileSync] that nothing guards.  The machine
    above runs the program with a log file that takes every line; here the
    environment also tells, for every call of [logToFile], whether it
    returns or throws, and [main] reads its bounds argument with
    [JSON.parse].  What the log file receives is the subject of
    [logToFile] above and is not tracked here. *)

Module Logged.

(** What a call can throw. *)
Inductive Error : Type :=
  | Plain (e : RunError)   (* [create] threw, or the ledger file failed *)
  | LogIOError             (* [fs.appendFileSync] on the log file threw *)
  | BoundsSyntaxError.     (* [JSON.parse] threw *)

(** How a call ended. *)
Inductive Result : Type :=
  | Ok
  | Err (e : Error).

(** Whether the calls of [logToFile] of one thunk return: the line of
    [saveTile] before it returns ([Tile already exists] or [Saved tile]),
    the progress line in the [try] block of the thunk, and the line in its
    [catch] block ([Failed tile] or [Failed tile again]).  The line in the
    [catch] block of [saveTile] needs no answer: [saveTile] throws after
    it, whether it was written or not. *)
Record ThunkLogs : Type := {
  saveLogOk : bool;
  progressLogOk : bool;
  catchLogOk : bool
}.

Inductive Choice : Type :=
  | Launch
  | Settle (i : nat) (net : FetchResult) (disk : DiskResult)
           (ledgerOk : bool) (logs : ThunkLogs).

(** A pass and the error its [Promise.all] rejected with, which is the
    error of the first thunk that rejected. *)
Record Run : Type := {
  pass : Pass;
  thrown : option Error
}.

(** [saveTile] from its [await] on, with its log lines: the file system
    it leaves, what it wrote, and whether it returned. *)
Definition saveTile_resume (f : FS) (j : Job) (net : FetchResult)
    (disk : DiskResult) (logs : ThunkLogs) : FS * option (list byte) * bool :=
  let '(f', wrote, ok) := saveTile_resume f j net disk in
  (f', wrote, ok && saveLogOk logs).

(** The rest of a thunk once its [saveTile] has settled, and the error it
    rejects with, if it does.  A failing progress line is caught by the
    thunk's own [catch] block, after [completedTiles++]. *)
Definition resume (p : Pass) (rest : list Slot) (s : Slot)
    (net : FetchResult) (disk : DiskResult) (ledgerOk : bool)
    (logs : ThunkLogs) : Pass * option Error :=
  let counted (w : World) (evs : list Event) (how : Settled) :=
    ({| pending := pending p; flight := rest;
        completedTiles := S (completedTiles p);
        totalTiles := totalTiles p;
        rejected := rejected p;
        world := w;
        trace := trace p ++ evs
                   ++ [EvProgress (S (completedTiles p)) (totalTiles p);
                       EvSettle (slotJob s) how] |}, None) in
  let caught (n : nat) (w : World) (evs : list Event) :=
    let settled (w' : World) (evs' : list Event) (how : Settled)
                (err : option Error) :=
      ({| pending := pending p; flight := rest;
          completedTiles := n;
          totalTiles := totalTiles p;
          rejected := rejected p || bool_decide (is_Some err);
          world := w';
          trace := trace p ++ evs ++ evs' ++ [EvSettle (slotJob s) how] |},
       err) in
    match failedLine (slotJob s) with
    | Some line =>
        if ledgerOk
        then if catchLogOk logs
             then settled (appendLedger w line) [EvAppend line] Failed None
             else settled (appendLedger w line) [EvAppend line] Rejected
                          (Some LogIOError)
        else settled w [] Rejected (Some (Plain LedgerIOError))
    | None =>
        if catchLogOk logs then settled w [] Failed None
        else settled w [] Rejected (Some LogIOError)
    end in
  let attempt (w : World) (evs : list Event) (returned : bool) (how : Settled) :=
    if returned then
      if progressLogOk logs then counted w evs how
      else caught (S (completedTiles p)) w
                  (evs ++ [EvProgress (S (completedTiles p)) (totalTiles p)])
    else caught (completedTiles p) w evs in
  match s with
  | Existing j => attempt (world p) [] (saveLogOk logs) Skipped
  | Fetching j =>
      let '(f, wrote, returned) :=
        saveTile_resume (fs (world p)) j net disk logs in
      attempt (withFs (world p) f) (writeEvents j wrote) returned Saved
  end.

Definition step (r : Run) (c : Choice) : option Run :=
  match c with
  | Launch =>
      match launch (pass r) with
      | Some p' => Some {| pass := p'; thrown := thrown r |}
      | None => None
      end
  | Settle i net disk ledgerOk logs =>
      match flight (pass r) !! i with
      | Some s =>
          let '(p', err) :=
            resume (pass r) (delete i (flight (pass r))) s net disk ledgerOk
                   logs in
          Some {| pass := p';
                  thrown := match thrown r with
                            | Some e => Some e
                            | None => err
                            end |}
      | None => None
      end
  end.

Fixpoint exec (r : Run) (script : list Choice) : option Run :=
  match script with
  | [] => Some r
  | c :: cs => match step r c with
               | Some r' => exec r' cs
               | None => None
               end
  end.

Definition startRun (jobs : list Job) (maxThreads : Z) (w : World) : Run :=
  {| pass := startPass jobs maxThreads w; thrown := None |}.

(** The answers during one call of [downloadTilesForZoom]: for the line
    before the loops, for the thunks, for the line after them. *)
Record ZoomScript : Type := {
  totalLogOk : bool;
  zoomChoices : list Choice;
  allLogOk : bool
}.

(** [downloadTilesForZoom] run to the end under a script; [None] when the
    script is not a complete run of it. *)
Definition downloadTilesForZoom `{JsMath} (provider : TileProvider) (z : Z)
    (bounds : option Bounds) (maxThreads : Z) (lang : string) (st : State)
    (zc : ZoomScript) : option (Result * State) :=
  if totalLogOk zc then
    match exec (startRun (zoomJobs provider z bounds lang) maxThreads st.1)
               (zoomChoices zc) with
    | Some r =>
        if quiescent (pass r)
        then Some (match thrown r with
                   | Some e => Err e
                   | None => if allLogOk zc then Ok else Err LogIOError
                   end,
                   (world (pass r), st.2 ++ trace (pass r)))
        else None
    | None => None
    end
  else Some (Err LogIOError, st).

(** The answers during one round of the zoom loop of [main]: the line
    before the call, the call, the line after it. *)
Record LevelScript : Type := {
  startingLogOk : bool;
  level : ZoomScript;
  completedLogOk : bool
}.

(** The zoom loop of [main]. *)
Fixpoint zoomLoop `{JsMath} (provider : TileProvider) (zs : list Z)
    (bounds : option Bounds) (maxThreads : Z) (lang : string) (st : State)
    (scripts : list LevelScript) : option (Result * State) :=
  match zs, scripts with
  | [], _ => Some (Ok, st)
  | z :: zs', sc :: scs =>
      if startingLogOk sc then
        match downloadTilesForZoom provider z bounds maxThreads lang st
                                   (level sc) with
        | Some (Ok, st') =>
            if completedLogOk sc
            then zoomLoop provider zs' bounds maxThreads lang st' scs
            else Some (Err LogIOError, st')
        | Some (Err e, st') => Some (Err e, st')
        | None => None
        end
      else Some (Err LogIOError, st)
  | _ :: _, [] => None
  end.

(** The answers during one call of [processFailedTiles]. *)
Record RetryScript : Type := {
  readOk : bool;            (* [readFileSync] returns *)
  retryingLogOk : bool;     (* the line before the loop *)
  retryChoices : list Choice;
  unlinkOk : bool;          (* [unlinkSync] returns *)
  finishedLogOk : bool      (* the line after [unlinkSync] *)
}.

(** [processFailedTiles(providerInstance, maxThreads)]. *)
Definition processFailedTiles (provider : TileProvider) (maxThreads : Z)
    (st : State) (rs : RetryScript) : option (Result * State) :=
  match ledger st.1 with
  | None => Some (Ok, st)
  | Some content =>
      if negb (readOk rs) then Some (Err (Plain LedgerIOError), st)
      else
        let failedTiles := ledgerLines content in
        match failedTiles with
        | [] => Some (Ok, st)
        | _ =>
            if negb (retryingLogOk rs) then Some (Err LogIOError, st)
            else
              match exec (startRun (map (retryJob provider) failedTiles)
                                   maxThreads st.1) (retryChoices rs) with
              | Some r =>
                  if quiescent (pass r) then
                    let st' := (world (pass r), st.2 ++ trace (pass r)) in
                    match thrown r with
                    | Some e => Some (Err e, st')
                    | None =>
                        if unlinkOk rs
                        then Some (if finishedLogOk rs then Ok
                                   else Err LogIOError,
                                   (unlinkLedger (world (pass r)), st'.2))
                        else Some (Err (Plain LedgerIOError), st')
                    end
                  else None
              | None => None
              end
        end
  end.

Record MainScript : Type := {
  retryBefore : RetryScript;
  levels : list LevelScript;
  retryAfter : RetryScript
}.

(** [main()], from the command line. *)
Definition main `{JsMath} (JSON_parse : string -> Json)
    (argv : list string) (w : World) (ms : MainScript)
  : option (Result * State) :=
  let providerName := default "undefined" (argv !! 2%nat) in
  let zoomStart := parseIntArg (argv !! 3%nat) in
  let zoomEnd := orNum (parseIntArg (argv !! 4%nat)) zoomStart in
  match boundsArg JSON_parse (argv !! 5%nat) with
  | JsonSyntaxError => Some (Err BoundsSyntaxError, (w, []))
  | JsonValue bounds =>
      let lang := orString (argv !! 6%nat) "ru" in
      let maxThreads := orZ (parseIntArg (argv !! 7%nat)) 6 in
      match create providerName (Some lang) with
      | inl e => Some (Err (Plain e), (w, []))
      | inr provider =>
          match processFailedTiles provider maxThreads (w, [])
                                   (retryBefore ms) with
          | Some (Ok, st1) =>
              match zoomLoop provider (zoomLevelsNum zoomStart zoomEnd)
                             bounds maxThreads lang st1 (levels ms) with
              | Some (Ok, st2) =>
                  processFailedTiles provider maxThreads st2 (retryAfter ms)
              | r => r
              end
          | r => r
          end
      end
  end.

End Logged.

(** ** Runs with and without the log file *)

(** Forgetting the answers of the log file. *)
Definition plainChoice (c : Logged.Choice) : Choice :=
  match c with
  | Logged.Launch => Launch
  | Logged.Settle i net disk ledgerOk _ => Settle i net disk ledgerOk
  end.

Definition plainRetry (rs : Logged.RetryScript) : RetryScript :=
  {| readOk := Logged.readOk rs;
     choices := map plainChoice (Logged.retryChoices rs);
     unlinkOk := Logged.unlinkOk rs |}.

Definition plainMain (ms : Logged.MainScript) : MainScript :=
  {| retryBefore := plainRetry (Logged.retryBefore ms);
     zoomScripts :=
       map (fun sc => map plainChoice (Logged.zoomChoices (Logged.level sc)))
           (Logged.levels ms);
     retryAfter := plainRetry (Logged.retryAfter ms) |}.

Definition plainResult (r : Returned) : Logged.Result :=
  match r with
  | Normal => Logged.Ok
  | Threw e => Logged.Err (Logged.Plain e)
  end.

(** The result of a run without the log file, as a result with it. *)
Definition plainRun (o : option (Returned * State))
  : option (Logged.Result * State) :=
  match o with
  | Some (r, st) => Some (plainResult r, st)
  | None => None
  end.

(** Every call of [logToFile] returns. *)
Definition thunkLogsFine (logs : Logged.ThunkLogs) : bool :=
  Logged.saveLogOk logs && Logged.progressLogOk logs
  && Logged.catchLogOk logs.

Definition choiceLogsFine (c : Logged.Choice) : bool :=
  match c with
  | Logged.Launch => true
  | Logged.Settle _ _ _ _ logs => thunkLogsFine logs
  end.

Definition zoomLogsFine (zc : Logged.ZoomScript) : bool :=
  Logged.totalLogOk zc && forallb choiceLogsFine (Logged.zoomChoices zc)
  && Logged.allLogOk zc.

Definition levelLogsFine (sc : Logged.LevelScript) : bool :=
  Logged.startingLogOk sc && zoomLogsFine (Logged.level sc)
  && Logged.completedLogOk sc.

Definition retryLogsFine (rs : Logged.RetryScript) : bool :=
  Logged.retryingLogOk rs
  && forallb choiceLogsFine (Logged.retryChoices rs)
  && Logged.finishedLogOk rs.

Definition mainLogsFine (ms : Logged.MainScript) : bool :=
  retryLogsFine (Logged.retryBefore ms)
  && forallb levelLogsFine (Logged.levels ms)
  && retryLogsFine (Logged.retryAfter ms).

(** A run with the log file agrees with a run without it. *)
Definition agree (r : Logged.Run) (p : Pass) : Prop :=
  Logged.pass r = p
  /\ Logged.thrown r
     = if rejected p then Some (Logged.Plain LedgerIOError) else None.

(** What a pass can throw, and why. *)
Definition thrownBy (cs : list Logged.Choice) (e : option Logged.Error)
  : Prop :=
  match e with
  | None => True
  | Some Logged.LogIOError => forallb choiceLogsFine cs = false
  | Some (Logged.Plain LedgerIOError) =>
      forallb ledgerFine (map plainChoice cs) = false
  | Some _ => False
  end.

(** The thunks started so far and those still to start are the thunks of
    the pass, in order. *)
Definition startsInv (jobs : list Job) (r : Logged.Run) : Prop :=
  starts (trace (Logged.pass r)) ++ concat (pending (Logged.pass r)) = jobs.

(** A retry pass with its log file leaves the ledger file alone: its
    thunks have no line to append; one that rejects does so because its
    log line failed. *)
Definition loggedRetryInv (l0 : option string) (r : Logged.Run) : Prop :=
  Forall (fun j => failedLine j = None) (concat (pending (Logged.pass r)))
  /\ Forall (fun s => failedLine (slotJob s) = None) (flight (Logged.pass r))
  /\ ledger (world (Logged.pass r)) = l0
  /\ appends (trace (Logged.pass r)) = []
  /\ (Logged.thrown r = None \/ Logged.thrown r = Some Logged.LogIOError).

(** A complete script for a call with a log file that takes every line. *)
Definition fineLogs : Logged.ThunkLogs :=
  {| Logged.saveLogOk := true; Logged.progressLogOk := true;
     Logged.catchLogOk := true |}.

Definition loggedChoice (c : Choice) : Logged.Choice :=
  match c with
  | Launch => Logged.Launch
  | Settle i net disk ledgerOk => Logged.Settle i net disk ledgerOk fineLogs
  end.

Definition loggedRetry (rs : RetryScript) : Logged.RetryScript :=
  {| Logged.readOk := readOk rs; Logged.retryingLogOk := true;
     Logged.retryChoices := map loggedChoice (choices rs);
     Logged.unlinkOk := unlinkOk rs; Logged.finishedLogOk := true |}.

Definition loggedLevel (cs : list Choice) : Logged.LevelScript :=
  {| Logged.startingLogOk := true;
     Logged.level := {| Logged.totalLogOk := true;
                        Logged.zoomChoices := map loggedChoice cs;
                        Logged.allLogOk := true |};
     Logged.completedLogOk := true |}.

Definition loggedMain (ms : MainScript) : Logged.MainScript :=
  {| Logged.retryBefore := loggedRetry (retryBefore ms);
     Logged.levels := map loggedLevel (zoomScripts ms);
     Logged.retryAfter := loggedRetry (retryAfter ms) |}.

(** A run of [main] over zoom level 1, one thunk at a time, without a
    ledger at the start: the fetch of the first tile fails, its line is
    appended to the ledger, and the log line of the [catch] block cannot
    be written. *)
Definition logFails : Logged.MainScript :=
  let noRetry :=
    {| Logged.readOk := true; Logged.retryingLogOk := true;
       Logged.retryChoices := []; Logged.unlinkOk := true;
       Logged.finishedLogOk := true |} in
  {| Logged.retryBefore := noRetry;
     Logged.levels :=
       [{| Logged.startingLogOk := true;
           Logged.level :=
             {| Logged.totalLogOk := true;
                Logged.zoomChoices :=
                  [Logged.Launch;
                   Logged.Settle 0 FetchFail DiskOk true
                     {| Logged.saveLogOk := true;
                        Logged.progressLogOk := true;
                        Logged.catchLogOk := false |}];
                Logged.allLogOk := true |};
           Logged.completedLogOk := true |}];
     Logged.retryAfter := noRetry |}.

(** The retry pass over [oneFailure] in which the fetch fails again and
    only the last log line cannot be written. *)
Definition lastLogFails : Logged.RetryScript :=
  {| Logged.readOk := true; Logged.retryingLogOk := true;
     Logged.retryChoices :=
       [Logged.Launch; Logged.Settle 0 FetchFail DiskOk true fineLogs];
     Logged.unlinkOk := true; Logged.finishedLogOk := false |}.



(** ** What the zoom loop may change *)



(* ===================================================================== *)
(** * Part II: properties                                                 *)
(* ===================================================================== *)

(** ** 32-bit operators *)

Ltac pow32 :=
  change (2 ^ 32) with 4294967296 in *;
  change (2 ^ 31) with 2147483648 in *.

Lemma toInt32_range v : - 2 ^ 31 <= toInt32 v < 2 ^ 31.
Proof.
  unfold toInt32. pow32.
  pose proof (Z.mod_pos_bound v 4294967296 ltac:(lia)).
  destruct (Z.leb_spec 2147483648 (v mod 4294967296)); lia.
Qed.

Lemma toInt32_testbit v j :
  0 <= j < 32 -> Z.testbit (toInt32 v) j = Z.testbit v j.
Proof.
  intros Hj. unfold toInt32.
  destruct (Z.leb_spec (2 ^ 31) (v mod 2 ^ 32)) as [_|_].
  - transitivity (Z.testbit ((v mod 2 ^ 32 - 2 ^ 32) mod 2 ^ 32) j).
    + symmetry. apply Z.mod_pow2_bits_low. lia.
    + replace ((v mod 2 ^ 32 - 2 ^ 32) mod 2 ^ 32) with (v mod 2 ^ 32).
      * apply Z.mod_pow2_bits_low. lia.
      * rewrite <- (Z.mod_add (v mod 2 ^ 32 - 2 ^ 32) 1 (2 ^ 32)) by (pow32; lia).
        replace (v mod 2 ^ 32 - 2 ^ 32 + 1 * 2 ^ 32) with (v mod 2 ^ 32) by lia.
        symmetry. apply Z.mod_mod. pow32; lia.
  - apply Z.mod_pow2_bits_low. lia.
Qed.

Lemma toInt32_small v : - 2 ^ 31 <= v < 2 ^ 31 -> toInt32 v = v.
Proof.
  intros Hv. unfold toInt32. pow32.
  destruct (Z_lt_le_dec v 0).
  - replace (v mod 4294967296) with (v + 4294967296).
    + destruct (Z.leb_spec 2147483648 (v + 4294967296)); lia.
    + apply Z.mod_unique with (q := -1); lia.
  - rewrite Z.mod_small by lia.
    destruct (Z.leb_spec 2147483648 v); lia.
Qed.

(** Bit 31 of an int32 is its sign. *)
Lemma int32_sign_bit a :
  - 2 ^ 31 <= a < 2 ^ 31 -> Z.testbit a 31 = (a <? 0).
Proof.
  intros Ha. pow32.
  destruct (Z.ltb_spec a 0).
  - apply Z.testbit_true; [lia|].
    replace (a / 2 ^ 31) with (-1); [reflexivity|].
    apply Z.div_unique with (r := a + 2 ^ 31); pow32; lia.
  - apply Z.testbit_false; [lia|].
    rewrite Z.div_small by (pow32; lia). reflexivity.
Qed.

Lemma land_pow2 a k :
  0 <= k -> Z.land a (2 ^ k) = if Z.testbit a k then 2 ^ k else 0.
Proof.
  intros Hk. apply Z.bits_inj'. intros j Hj.
  rewrite Z.land_spec, Z.pow2_bits_eqb by lia.
  destruct (Z.eqb_spec k j) as [->|Hne].
  - destruct (Z.testbit a j); simpl.
    + rewrite Z.pow2_bits_true; auto.
    + rewrite Z.bits_0; auto.
  - rewrite andb_false_r.
    destruct (Z.testbit a k).
    + rewrite Z.pow2_bits_false; auto.
    + rewrite Z.bits_0; auto.
Qed.

Lemma land_min_int32 a :
  - 2 ^ 31 <= a < 2 ^ 31 ->
  (Z.land a (- 2 ^ 31) =? 0) = negb (a <? 0).
Proof.
  intros Ha.
  destruct (Z.ltb_spec a 0); simpl.
  - apply Z.eqb_neq.
    assert (Z.land a (- 2 ^ 31) < 0); [|lia].
    apply Z.land_neg. pow32. lia.
  - apply Z.eqb_eq. apply Z.bits_inj'. intros j Hj.
    rewrite Z.land_spec, Z.bits_0.
    destruct (Z_lt_le_dec j 31).
    + replace (- 2 ^ 31) with (- (2 ^ 31)) by reflexivity.
      rewrite Z.bits_opp by lia.
      replace (Z.pred (2 ^ 31)) with (Z.ones 31) by reflexivity.
      rewrite Z.ones_spec_low by lia. apply andb_false_r.
    + destruct (Z.eq_dec a 0) as [->|Hne].
      * rewrite Z.bits_0. reflexivity.
      * rewrite Z.bits_above_log2; [reflexivity|lia|].
        apply Z.log2_lt_pow2; [lia|].
        apply Z.lt_le_trans with (2 ^ 31); [lia|].
        apply Z.pow_le_mono_r; lia.
Qed.

Lemma js_shl_one k :
  0 <= k < 31 -> js_shl 1 k = 2 ^ k.
Proof.
  intros Hk. unfold js_shl.
  change (toInt32 1) with 1.
  rewrite Z.mod_small by lia.
  rewrite Z.shiftl_1_l.
  apply toInt32_small.
  split.
  - pose proof (Z.pow_nonneg 2 k ltac:(lia)). pow32. lia.
  - apply Z.pow_lt_mono_r; lia.
Qed.

(** The test [(x & mask) !== 0] of [quadKey] reads bit [k] of [x] as
    long as the shift count [k] stays below 32. *)
Lemma quadKey_test x k :
  0 <= k < 32 ->
  (js_and x (js_shl 1 k) =? 0) = negb (Z.testbit x k).
Proof.
  intros Hk. unfold js_and.
  rewrite <- (toInt32_testbit x k) by lia.
  pose proof (toInt32_range x) as Hr.
  assert (Hm : k = 31 \/ 0 <= k < 31) by lia.
  destruct Hm as [->|Hk'].
  - change (toInt32 (js_shl 1 31)) with (- 2 ^ 31).
    rewrite land_min_int32 by assumption.
    rewrite int32_sign_bit by assumption. reflexivity.
  - rewrite js_shl_one by assumption.
    rewrite (toInt32_small (2 ^ k)).
    + rewrite land_pow2 by lia.
      pose proof (Z.pow_pos_nonneg 2 k ltac:(lia) ltac:(lia)).
      destruct (Z.testbit (toInt32 x) k); simpl.
      * apply Z.eqb_neq. lia.
      * reflexivity.
    + split.
      * pose proof (Z.pow_nonneg 2 k ltac:(lia)). pow32. lia.
      * apply Z.pow_lt_mono_r; lia.
Qed.

(** ** Strings *)

Lemma append_cons ch (a b : string) :
  String ch a +:+ b = String ch (a +:+ b).
Proof. reflexivity. Qed.

Lemma append_empty_l (b : string) : "" +:+ b = b.
Proof. reflexivity. Qed.

Lemma append_assoc (a b c : string) : (a +:+ b) +:+ c = a +:+ (b +:+ c).
Proof.
  induction a as [|ch a IH]; [reflexivity|].
  rewrite !append_cons. now rewrite IH.
Qed.

Lemma append_empty_r (a : string) : a +:+ "" = a.
Proof.
  induction a as [|ch a IH]; [reflexivity|].
  rewrite append_cons. now rewrite IH.
Qed.

Lemma length_append (a b : string) :
  String.length (a +:+ b) = (String.length a + String.length b)%nat.
Proof.
  induction a as [|ch a IH]; [reflexivity|].
  rewrite append_cons. simpl. now rewrite IH.
Qed.

Lemma allChars_append P (a b : string) :
  allChars P (a +:+ b) = allChars P a && allChars P b.
Proof.
  induction a as [|ch a IH]; [reflexivity|].
  rewrite append_cons. simpl. rewrite IH. now rewrite andb_assoc.
Qed.

(** ** quadKey *)

Lemma quadKey_loop_S n x y key :
  quadKey_loop (S n) x y key
  = quadKey_loop n x y (key +:+ numberToString (roundDigit x y (Z.of_nat n))).
Proof.
  cbn [quadKey_loop]. unfold roundDigit.
  replace (Z.of_nat (S n) - 1) with (Z.of_nat n) by lia.
  reflexivity.
Qed.

Lemma roundDigit_cases x y k :
  roundDigit x y k = 0 \/ roundDigit x y k = 1
  \/ roundDigit x y k = 2 \/ roundDigit x y k = 3.
Proof.
  unfold roundDigit.
  destruct (js_and x (js_shl 1 k) =? 0), (js_and y (js_shl 1 k) =? 0);
    simpl; auto.
Qed.

Lemma roundDigit_string x y k :
  String.length (numberToString (roundDigit x y k)) = 1%nat
  /\ allChars isQuadDigit (numberToString (roundDigit x y k)) = true.
Proof.
  destruct (roundDigit_cases x y k) as [H|[H|[H|H]]]; rewrite H;
    split; reflexivity.
Qed.

Lemma roundDigit_bits x y k :
  0 <= k < 32 -> roundDigit x y k = bitDigit x y k.
Proof.
  intros Hk. unfold roundDigit, bitDigit.
  rewrite !quadKey_test by assumption.
  destruct (Z.testbit x k), (Z.testbit y k); reflexivity.
Qed.

Lemma quadKey_loop_shape n x y key :
  String.length (quadKey_loop n x y key) = (String.length key + n)%nat
  /\ (allChars isQuadDigit key = true ->
      allChars isQuadDigit (quadKey_loop n x y key) = true).
Proof.
  revert key. induction n as [|n IH]; intros key.
  - simpl. split; [lia|auto].
  - rewrite quadKey_loop_S.
    destruct (IH (key +:+ numberToString (roundDigit x y (Z.of_nat n))))
      as [Hlen Hall].
    destruct (roundDigit_string x y (Z.of_nat n)) as [H1 H2].
    split.
    + rewrite Hlen, length_append, H1. lia.
    + intros Hk. apply Hall. rewrite allChars_append, Hk, H2. reflexivity.
Qed.

Lemma quadKey_loop_spec n x y key :
  (n <= 32)%nat -> quadKey_loop n x y key = key +:+ spec_digits x y n.
Proof.
  revert key. induction n as [|n IH]; intros key Hn.
  - simpl. now rewrite append_empty_r.
  - rewrite quadKey_loop_S, IH by lia.
    rewrite roundDigit_bits by lia.
    cbn [spec_digits]. now rewrite append_assoc.
Qed.

(** Claim C10.  For every zoom [z >= 0], whatever [x] and [y] are,
    [quadKey x y z] has exactly [z] characters, each of them one of the
    digits 0, 1, 2, 3; for [z = 0] it is the empty string. *)
Theorem quadKey_length_digits (x y z : Z) :
  0 <= z ->
  Z.of_nat (String.length (quadKey x y z)) = z
  /\ allChars isQuadDigit (quadKey x y z) = true
  /\ quadKey x y 0 = "".
Proof.
  intros Hz. unfold quadKey.
  destruct (quadKey_loop_shape (Z.to_nat z) x y "") as [Hlen Hall].
  split; [|split].
  - rewrite Hlen. simpl. lia.
  - apply Hall. reflexivity.
  - reflexivity.
Qed.

(** Claim C10 at [x = 5], [y = 3], [z = 3]. *)
Lemma quadKey_length_digits_witness :
  Z.of_nat (String.length (quadKey 5 3 3)) = 3
  /\ allChars isQuadDigit (quadKey 5 3 3) = true
  /\ quadKey 5 3 0 = "".
Proof. apply (quadKey_length_digits 5 3 3). lia. Defined.

(** Claim C6, amended.  For [0 <= z <= 32] and [0 <= x, y < 2^z],
    [quadKey x y z] is the string of the [z] digits
    [bit_i(x) + 2 * bit_i(y)] for the bit positions [i = z - 1] down to
    [0]; in particular [quadKey 0 0 1 = "0"], [quadKey 1 1 1 = "3"] and
    [quadKey 1 0 2 = "01"].  The bound on [z] is what the claim lacks: the
    mask [1 << (i - 1)] and the test [x & mask] are 32-bit operations. *)
Theorem quadKey_interleaves (x y z : Z) :
  0 <= z <= 32 -> 0 <= x < 2 ^ z -> 0 <= y < 2 ^ z ->
  quadKey x y z = spec_quadKey x y z
  /\ quadKey 0 0 1 = "0" /\ quadKey 1 1 1 = "3" /\ quadKey 1 0 2 = "01".
Proof.
  intros Hz _ _. split; [|repeat split; reflexivity].
  unfold quadKey, spec_quadKey.
  rewrite quadKey_loop_spec by lia. reflexivity.
Qed.

(** The amended claim C6 at [x = 5], [y = 3], [z = 3]. *)
Lemma quadKey_interleaves_witness :
  quadKey 5 3 3 = spec_quadKey 5 3 3
  /\ quadKey 0 0 1 = "0" /\ quadKey 1 1 1 = "3" /\ quadKey 1 0 2 = "01".
Proof. apply (quadKey_interleaves 5 3 3); simpl; lia. Defined.

(** Claim C6 as stated fails at zoom 33.  With [x = 1] and [y = 0], both
    below [2^33], the first round shifts by 32, which is a shift by 0: the
    leading digit reads bit 0 of [x] and the key starts with 1, where the
    interleaving of the bits starts with 0. *)
Lemma quadKey_zoom33_counterexample :
  (0 <= 1 < 2 ^ 33) /\ (0 <= 0 < 2 ^ 33)
  /\ quadKey 1 0 33 <> spec_quadKey 1 0 33.
Proof.
  split; [|split]; [simpl; lia| simpl; lia|].
  vm_compute. discriminate.
Qed.

(** ** Ledger lines *)

Lemma contains_append c (a b : string) :
  contains c (a +:+ b) = contains c a || contains c b.
Proof.
  induction a as [|ch a IH]; [reflexivity|].
  rewrite append_cons. simpl. rewrite IH. now rewrite orb_assoc.
Qed.

Lemma allChars_contains P c s :
  allChars P s = true -> P c = false -> contains c s = false.
Proof.
  intros Hall Hc. induction s as [|d s IH]; [reflexivity|].
  simpl in *. apply andb_true_iff in Hall as [Hd Hs].
  rewrite IH by assumption. rewrite orb_false_r.
  destruct (Ascii.eqb_spec d c) as [->|]; [congruence|reflexivity].
Qed.

Lemma string_of_uint_numChars d :
  allChars isNumChar (NilEmpty.string_of_uint d) = true.
Proof. induction d; simpl; auto. Qed.

Lemma numberToString_numChars n :
  allChars isNumChar (numberToString n) = true.
Proof.
  unfold numberToString.
  destruct (Z.to_int n) as [d|d]; simpl.
  - destruct d; try apply (string_of_uint_numChars (_ _)); reflexivity.
  - destruct d; try apply (string_of_uint_numChars (_ _)); reflexivity.
Qed.

Lemma numberToString_plain c n :
  isNumChar c = false -> contains c (numberToString n) = false.
Proof. intros Hc. eapply allChars_contains; eauto using numberToString_numChars. Qed.

Lemma split_cons_sep sep (a rest : string) :
  contains sep a = false ->
  split sep (a +:+ String sep rest) = a :: split sep rest.
Proof.
  induction a as [|ch a IH]; intros Ha.
  - rewrite append_empty_l. simpl. now rewrite Ascii.eqb_refl.
  - rewrite append_cons. simpl in *.
    apply orb_false_iff in Ha as [Hch Ha].
    rewrite Hch, IH by assumption. reflexivity.
Qed.

Lemma split_single sep (a : string) :
  contains sep a = false -> split sep a = [a].
Proof.
  induction a as [|ch a IH]; intros Ha; [reflexivity|].
  simpl in *. apply orb_false_iff in Ha as [Hch Ha].
  rewrite Hch, IH by assumption. reflexivity.
Qed.

Lemma split_comma (a rest : string) :
  contains COMMA a = false ->
  split COMMA (a +:+ "," +:+ rest) = a :: split COMMA rest.
Proof. exact (split_cons_sep COMMA a rest). Qed.

Lemma name_plain p :
  contains COMMA (name p) = false /\ contains LF (name p) = false.
Proof. destruct p; split; reflexivity. Qed.

(** Claim C9, amended.  The line [downloadTilesForZoom] appends for a
    failed tile is one line [provider,zoom,x,y,locale]: for a locale
    without comma and line break, five comma-separated fields that split
    back into the record.  The line [downloadTilesParallel] and
    [logFailedTile] append is one line of four fields [provider,zoom,x,y],
    without the locale. *)
Theorem failedLine_fields (p : TileProvider) (z x y : Z) (lang : string) :
  contains COMMA lang = false -> contains LF lang = false ->
  (exists body,
      failedLine (tileJob p z lang (x, y)) = Some (body +:+ newline)
      /\ contains LF body = false
      /\ split COMMA body
         = [name p; numberToString z; numberToString x; numberToString y;
            lang])
  /\ (exists body,
         failedLine (parallelJob p z (x, y)) = Some (body +:+ newline)
         /\ contains LF body = false
         /\ split COMMA body
            = [name p; numberToString z; numberToString x;
               numberToString y]).
Proof.
  intros Hc Hl.
  destruct (name_plain p) as [Hnc Hnl].
  assert (Hnum : forall n, contains COMMA (numberToString n) = false
                           /\ contains LF (numberToString n) = false)
    by (intros n; split; apply numberToString_plain; reflexivity).
  split.
  - exists (name p +:+ "," +:+ numberToString z +:+ "," +:+ numberToString x
            +:+ "," +:+ numberToString y +:+ "," +:+ lang).
    split; [|split].
    + simpl. unfold failedTileLine. now rewrite !append_assoc.
    + rewrite !contains_append, Hnl, Hl.
      rewrite !(proj2 (Hnum _)). reflexivity.
    + rewrite !split_comma by (auto; apply Hnum).
      now rewrite split_single.
  - exists (name p +:+ "," +:+ numberToString z +:+ "," +:+ numberToString x
            +:+ "," +:+ numberToString y).
    split; [|split].
    + simpl. unfold failedTileLine_noLang. now rewrite !append_assoc.
    + rewrite !contains_append, Hnl.
      rewrite !(proj2 (Hnum _)). reflexivity.
    + rewrite !split_comma by (auto; apply Hnum).
      rewrite split_single by apply Hnum. reflexivity.
Qed.

(** The amended claim C9 for the tile (0, 0) of zoom 1, provider google,
    locale ru. *)
Lemma failedLine_fields_witness :
  (exists body,
      failedLine (tileJob (GoogleTileProvider "&hl=ru") 1 "ru" (0, 0))
      = Some (body +:+ newline)
      /\ contains LF body = false
      /\ split COMMA body = ["google"; "1"; "0"; "0"; "ru"])
  /\ (exists body,
         failedLine (parallelJob (GoogleTileProvider "&hl=ru") 1 (0, 0))
         = Some (body +:+ newline)
         /\ contains LF body = false
         /\ split COMMA body = ["google"; "1"; "0"; "0"]).
Proof.
  apply (failedLine_fields (GoogleTileProvider "&hl=ru") 1 0 0 "ru");
    reflexivity.
Defined.

(** Claim C9 as stated fails for [downloadTilesParallel] and
    [logFailedTile]: the line they append for the tile (0, 0) of zoom 1
    splits into four fields, not five; the locale is not recorded. *)
Lemma failedLine_noLang_counterexample :
  exists body,
    failedLine (parallelJob google 1 (0, 0)) = Some (body +:+ newline)
    /\ split COMMA body = ["google"; "1"; "0"; "0"]
    /\ length (split COMMA body) <> 5%nat.
Proof.
  exists "google,1,0,0". split; [reflexivity|]. split; [reflexivity|].
  vm_compute. discriminate.
Qed.

(** ** Coordinate math *)

(** Claim C7.  [isTileInBounds x y z box] is true exactly when the
    latitude computed for the tile lies in [[south, north]] and the
    longitude in [[west, east]], with the two formulas of the
    specification ([tileToGeo_lat], [tileToGeo_lon]); without a box it is
    true, and both enumeration loops keep every tile.  The first
    downloader's unguarded version agrees with it on every box. *)
Theorem isTileInBounds_spec `{JsMath} (x y z : float) (box : Bounds) :
  (isTileInBounds x y z (Some box) = true <->
     ((south box <=? tileToGeo_lat y z)%float = true
      /\ (tileToGeo_lat y z <=? north box)%float = true)
     /\ ((west box <=? tileToGeo_lon x z)%float = true
         /\ (tileToGeo_lon x z <=? east box)%float = true))
  /\ isTileInBounds x y z None = true
  /\ isTileInBounds_unguarded x y z box = isTileInBounds x y z (Some box)
  /\ (forall zi xi yi : Z,
         keepTile None zi xi yi = true
         /\ keepTile_unguarded None zi xi yi = true
         /\ keepTile (Some box) zi xi yi
            = isTileInBounds (numberOfZ xi) (numberOfZ yi) (numberOfZ zi)
                             (Some box)
         /\ keepTile_unguarded (Some box) zi xi yi
            = keepTile (Some box) zi xi yi).
Proof.
  split; [|split; [|split]].
  - unfold isTileInBounds, tileToGeo_lat, tileToGeo_lon.
    cbv zeta. rewrite !andb_true_iff. tauto.
  - reflexivity.
  - reflexivity.
  - intros zi xi yi. repeat split; reflexivity.
Qed.


(** ** The batch loop *)

Lemma batchLoop_concat {A} (c : Z) (todo buf : list A) :
  concat (batchLoop c todo buf) = buf ++ todo.
Proof.
  revert buf. induction todo as [|t rest IH]; intros buf; simpl.
  - destruct buf; simpl; [reflexivity|]. now rewrite !app_nil_r.
  - destruct (Z.eqb_spec (Z.of_nat (length (buf ++ [t]))) c).
    + simpl. rewrite IH. simpl. now rewrite <- app_assoc.
    + rewrite IH. now rewrite <- app_assoc.
Qed.

Lemma batchLoop_bounds {A} (c : Z) (todo buf : list A) :
  1 <= c -> Z.of_nat (length buf) < c ->
  Forall (fun b => 1 <= Z.of_nat (length b) <= c) (batchLoop c todo buf).
Proof.
  intros Hc. revert buf. induction todo as [|t rest IH]; intros buf Hb; simpl.
  - destruct buf as [|a buf]; constructor; [|constructor].
    simpl length in *. lia.
  - assert (Hlen : length (buf ++ [t]) = S (length buf))
      by (rewrite length_app; simpl; lia).
    destruct (Z.eqb_spec (Z.of_nat (length (buf ++ [t]))) c) as [He|Hne].
    + constructor; [lia|]. apply IH. simpl. lia.
    + apply IH. lia.
Qed.

Lemma batchLoop_full {A} (c : Z) (todo buf : list A) bs1 b bs2 :
  batchLoop c todo buf = bs1 ++ b :: bs2 -> bs2 <> [] ->
  Z.of_nat (length b) = c.
Proof.
  revert buf bs1. induction todo as [|t rest IH]; intros buf bs1 He Hne; simpl in He.
  - destruct buf; destruct bs1 as [|? [|? ?]]; simpl in He; try discriminate.
    injection He as _ He. symmetry in He. contradiction.
  - destruct (Z.eqb_spec (Z.of_nat (length (buf ++ [t]))) c) as [Hfull|Hn].
    + destruct bs1 as [|b0 bs1]; simpl in He.
      * injection He as <- _. exact Hfull.
      * injection He as _ He. eapply IH; eauto.
    + eapply IH; eauto.
Qed.

Lemma batchLoop_sizes {A} (c : Z) (todo : list A) :
  1 <= c -> batchSizes c (batchLoop c todo []).
Proof.
  intros Hc. split.
  - apply batchLoop_bounds; simpl; lia.
  - intros bs1 b bs2 He Hne. eapply batchLoop_full; eauto.
Qed.

(** ** Traces *)

Lemma starts_app a b : starts (a ++ b) = starts a ++ starts b.
Proof. apply flat_map_app. Qed.

Lemma settles_app a b : settles (a ++ b) = settles a ++ settles b.
Proof. apply flat_map_app. Qed.


Lemma fetches_app a b : fetches (a ++ b) = fetches a ++ fetches b.
Proof. apply flat_map_app. Qed.

Lemma writes_app a b : writes (a ++ b) = writes a ++ writes b.
Proof. apply flat_map_app. Qed.

Lemma appends_app a b : appends (a ++ b) = appends a ++ appends b.
Proof. apply flat_map_app. Qed.


Lemma starts_startEvents f b :
  starts (flat_map (startEvents f) b) = b.
Proof.
  induction b as [|j b IH]; [reflexivity|].
  simpl. rewrite starts_app, IH. unfold startEvents.
  destruct (saveTile_enter f j); reflexivity.
Qed.

Lemma settles_startEvents f b :
  settles (flat_map (startEvents f) b) = [].
Proof.
  induction b as [|j b IH]; [reflexivity|].
  simpl. rewrite settles_app, IH. unfold startEvents.
  destruct (saveTile_enter f j); reflexivity.
Qed.

(** Splitting the events of a launch at one of its starts. *)
Lemma startEvents_split f b pre j post :
  flat_map (startEvents f) b = pre ++ EvStart j :: post ->
  exists b1 b2, b = b1 ++ j :: b2 /\ starts pre = b1 /\ settles pre = [].
Proof.
  revert pre. induction b as [|j0 b IH]; intros pre He.
  - destruct pre; discriminate.
  - simpl in He.
    destruct pre as [|e pre].
    + exists [], b. unfold startEvents in He.
      destruct (saveTile_enter f j0); injection He as -> _; auto.
    + unfold startEvents in He.
      destruct (saveTile_enter f j0); simpl in He.
      * injection He as <- He. apply IH in He as (b1 & b2 & Hb & H1 & H2).
        exists (j0 :: b1), b2. subst b. simpl. rewrite H1. auto.
      * injection He as <- He.
        destruct pre as [|e' pre]; [discriminate|].
        injection He as <- He. apply IH in He as (b1 & b2 & Hb & H1 & H2).
        exists (j0 :: b1), b2. subst b. simpl. rewrite H1. auto.
Qed.

(** A start found in a trace extended by events that start nothing lies
    in the trace itself. *)
Lemma split_before_tail (tr new e1 e2 : list Event) j :
  starts new = [] ->
  tr ++ new = e1 ++ EvStart j :: e2 ->
  exists e2', tr = e1 ++ EvStart j :: e2'.
Proof.
  intros Hnew He.
  apply app_eq_app in He as [l [[-> Hl]|[-> Hl]]].
  - destruct l as [|e l].
    + simpl in Hl. subst new. discriminate.
    + injection Hl as -> _. eauto.
  - subst new. rewrite starts_app in Hnew. simpl in Hnew.
    destruct (starts l); discriminate.
Qed.

(** ** The machine *)

Lemma exec_invariant (I : Pass -> Prop) :
  (forall p c p', I p -> step p c = Some p' -> I p') ->
  forall script p p', I p -> exec p script = Some p' -> I p'.
Proof.
  intros Hstep script. induction script as [|c cs IH]; intros p p' Hp He.
  - simpl in He. injection He as <-. exact Hp.
  - simpl in He. destruct (step p c) as [q|] eqn:Hq; [|discriminate].
    eapply IH; [|exact He]. eapply Hstep; eauto.
Qed.

Lemma exec_app p s1 s2 :
  exec p (s1 ++ s2) = match exec p s1 with
                      | Some q => exec q s2
                      | None => None
                      end.
Proof.
  revert p. induction s1 as [|c cs IH]; intros p; simpl; [reflexivity|].
  destruct (step p c); auto.
Qed.

(** What a launch is. *)
Lemma launch_inv p p' :
  launch p = Some p' ->
  exists b bs,
    pending p = b :: bs /\ flight p = [] /\ rejected p = false
    /\ p' = {| pending := bs;
               flight := map (startThunk (fs (world p))) b;
               completedTiles := completedTiles p;
               totalTiles := totalTiles p;
               rejected := false;
               world := world p;
               trace := trace p ++ flat_map (startEvents (fs (world p))) b |}.
Proof.
  unfold launch. intros H.
  destruct (pending p) as [|b bs]; [discriminate|].
  destruct (flight p); [|discriminate].
  destruct (rejected p); [discriminate|].
  injection H as <-. eauto 10.
Qed.

Lemma slotJob_startThunk f b : map slotJob (map (startThunk f) b) = b.
Proof.
  induction b as [|j b IH]; [reflexivity|]. simpl. rewrite IH.
  unfold startThunk. destruct (saveTile_enter f j); reflexivity.
Qed.

(** All the ways a thunk can go on after [saveTile]. *)
Ltac resume_cases s net disk ledgerOk :=
  unfold resume, saveTile_resume;
  destruct s as [?j|?j];
  [| destruct net as [|?data];
     [| destruct disk as [| |[?k|]]];
     cbv iota beta zeta;
     [ destruct (failedLine _) as [?line|] eqn:?Hline; [destruct ledgerOk|]
     | 
     | destruct (failedLine _) as [?line|] eqn:?Hline; [destruct ledgerOk|]
     | destruct (failedLine _) as [?line|] eqn:?Hline; [destruct ledgerOk|]
     | destruct (failedLine _) as [?line|] eqn:?Hline; [destruct ledgerOk|] ] ].

(** What settling one thunk adds to the trace. *)
Lemma resume_trace p rest s net disk ledgerOk :
  exists new,
    trace (resume p rest s net disk ledgerOk) = trace p ++ new
    /\ starts new = [] /\ settles new = [slotJob s].
Proof.
  resume_cases s net disk ledgerOk; simpl; eexists; (split; [reflexivity|]);
    split; reflexivity.
Qed.

Lemma resume_pending_flight p rest s net disk ledgerOk :
  pending (resume p rest s net disk ledgerOk) = pending p
  /\ flight (resume p rest s net disk ledgerOk) = rest
  /\ totalTiles (resume p rest s net disk ledgerOk) = totalTiles p.
Proof. resume_cases s net disk ledgerOk; simpl; auto. Qed.

Lemma passInv_step bs p c p' :
  passInv bs p -> step p c = Some p' -> passInv bs p'.
Proof.
  intros (launched & Hbs & Hst & Hperm & Hbar) Hstep.
  destruct c as [|i net disk ledgerOk]; simpl in Hstep.
  - apply launch_inv in Hstep as (b & bs' & Hpend & Hfl & _ & ->).
    rewrite Hfl, app_nil_r in Hperm.
    exists (launched ++ [b]). simpl. repeat split.
    + rewrite Hbs, Hpend, <- app_assoc. reflexivity.
    + rewrite starts_app, starts_startEvents, concat_app, Hst.
      simpl. now rewrite app_nil_r.
    + rewrite starts_app, settles_app, starts_startEvents,
        settles_startEvents, app_nil_r, slotJob_startThunk.
      now apply Permutation_app_tail.
    + intros e1 j e2 He.
      apply app_eq_app in He as [l [[Htr Hl]|[-> Hl]]].
      * destruct l as [|e l].
        -- simpl in Hl. rewrite app_nil_r in Htr. subst e1.
           symmetry in Hl.
           apply (startEvents_split _ _ []) in Hl as (b1 & b2 & -> & H1 & H2).
           simpl in H1. subst b1.
           exists launched, [], b2, bs'.
           repeat split.
           ++ now rewrite Hbs, Hpend.
           ++ now rewrite app_nil_r.
           ++ rewrite <- Hst. now apply Permutation_sym.
        -- injection Hl as He' Hl. subst e.
           exact (Hbar e1 j l Htr).
      * apply startEvents_split in Hl as (b1 & b2 & -> & H1 & H2).
        exists launched, b1, b2, bs'. repeat split.
        -- now rewrite Hbs, Hpend.
        -- now rewrite starts_app, Hst, H1.
        -- rewrite settles_app, H2, app_nil_r, <- Hst.
           now apply Permutation_sym.
  - destruct (flight p !! i) as [s|] eqn:Hi; [|discriminate].
    injection Hstep as <-.
    destruct (resume_trace p (delete i (flight p)) s net disk ledgerOk)
      as (new & Htr & Hns & Hnt).
    destruct (resume_pending_flight p (delete i (flight p)) s net disk ledgerOk)
      as (Hp & Hf & _).
    exists launched. rewrite Hp, Hf, Htr. repeat split.
    + exact Hbs.
    + now rewrite starts_app, Hns, app_nil_r.
    + rewrite starts_app, Hns, app_nil_r, settles_app, Hnt.
      rewrite Hperm, <- app_assoc. apply Permutation_app_head.
      change (Permutation (map slotJob (flight p))
                (map slotJob (s :: delete i (flight p)))).
      apply Permutation_map. now apply delete_Permutation.
    + intros e1 j e2 He.
      apply split_before_tail in He as [e2' He]; [|exact Hns].
      exact (Hbar e1 j e2' He).
Qed.

Lemma passInv_start jobs c w :
  passInv (batchLoop c jobs []) (startPass jobs c w).
Proof.
  exists []. simpl. repeat split; auto.
  intros e1 j e2 He. destruct e1; discriminate.
Qed.


Lemma flightInv_step n p c p' :
  flightInv n p -> step p c = Some p' -> flightInv n p'.
Proof.
  intros [Hpend Hfl] Hstep.
  destruct c as [|i net disk ledgerOk]; simpl in Hstep.
  - apply launch_inv in Hstep as (b & bs' & Hp & _ & _ & ->).
    rewrite Hp in Hpend. inversion Hpend; subst.
    split; simpl; [assumption|]. now rewrite length_map.
  - destruct (flight p !! i) as [s|] eqn:Hi; [|discriminate].
    injection Hstep as <-.
    destruct (resume_pending_flight p (delete i (flight p)) s net disk ledgerOk)
      as (Hp & Hf & _).
    split; [now rewrite Hp|]. rewrite Hf.
    pose proof (length_delete (flight p) i (ltac:(eauto))). lia.
Qed.


Lemma flightInv_start jobs c w :
  1 <= c -> flightInv (Z.to_nat c) (startPass jobs c w).
Proof.
  intros Hc. split; simpl; [|lia].
  eapply List.Forall_impl; [|apply batchLoop_bounds; simpl; lia].
  simpl. intros b Hb. lia.
Qed.



(** ** Progress *)








Lemma finished_inv p : finished p = true -> pending p = [] /\ flight p = [].
Proof.
  unfold finished. destruct (pending p), (flight p); auto; discriminate.
Qed.







(** ** Failures *)

Lemma failureLines_app a b :
  failureLines (a ++ b) = failureLines a ++ failureLines b.
Proof. apply flat_map_app. Qed.

Lemma ledgerAfter_app l a b :
  ledgerAfter l (a ++ b) = ledgerAfter (ledgerAfter l a) b.
Proof. apply fold_left_app. Qed.

Lemma appends_startEvents f b : appends (flat_map (startEvents f) b) = [].
Proof.
  induction b as [|j b IH]; [reflexivity|].
  simpl. rewrite appends_app, IH. unfold startEvents.
  destruct (saveTile_enter f j); reflexivity.
Qed.

Lemma failureLines_startEvents f b :
  failureLines (flat_map (startEvents f) b) = [].
Proof.
  induction b as [|j b IH]; [reflexivity|].
  simpl. rewrite failureLines_app, IH. unfold startEvents.
  destruct (saveTile_enter f j); reflexivity.
Qed.

(** What settling one thunk does to the ledger. *)
Lemma resume_ledger p rest s net disk ledgerOk :
  let p' := resume p rest s net disk ledgerOk in
  exists new,
    trace p' = trace p ++ new
    /\ ledger (world p') = ledgerAfter (ledger (world p)) (appends new)
    /\ appends new = failureLines new.
Proof.
  resume_cases s net disk ledgerOk; simpl; eexists;
    (split; [reflexivity|]); simpl; rewrite ?Hline;
    split; reflexivity.
Qed.

Lemma ledgerInv_step l0 p c p' :
  ledgerInv l0 p -> step p c = Some p' -> ledgerInv l0 p'.
Proof.
  intros [Hl Ha] Hstep.
  destruct c as [|i net disk ledgerOk]; simpl in Hstep.
  - apply launch_inv in Hstep as (b & bs' & _ & _ & _ & ->).
    split; simpl.
    + now rewrite appends_app, appends_startEvents, app_nil_r.
    + now rewrite appends_app, failureLines_app, appends_startEvents,
        failureLines_startEvents, Ha.
  - destruct (flight p !! i) as [s|] eqn:Hi; [|discriminate].
    injection Hstep as <-.
    destruct (resume_ledger p (delete i (flight p)) s net disk ledgerOk)
      as (new & Htr & Hled & Hnew).
    split.
    + now rewrite Hled, Htr, appends_app, ledgerAfter_app, Hl.
    + now rewrite Htr, appends_app, failureLines_app, Ha, Hnew.
Qed.

Lemma ledgerInv_start jobs c w : ledgerInv (ledger w) (startPass jobs c w).
Proof. split; reflexivity. Qed.

(** A failing tile is recorded and the pass goes on. *)
Lemma resume_recovers p rest j net disk line :
  (saveTile_resume (fs (world p)) j net disk).2 = false ->
  failedLine j = Some line ->
  let p' := resume p rest (Fetching j) net disk true in
  ledger (world p') = Some (default "" (ledger (world p)) +:+ line)
  /\ rejected p' = rejected p
  /\ pending p' = pending p
  /\ flight p' = rest
  /\ completedTiles p' = completedTiles p.
Proof.
  intros Hfail Hline. unfold resume.
  destruct (saveTile_resume (fs (world p)) j net disk) as [[f wrote] ok].
  simpl in Hfail. subst ok. rewrite Hline. simpl.
  rewrite orb_false_r. auto.
Qed.

(** Only a failing ledger append rejects a thunk. *)
Lemma resume_rejected p rest s net disk ledgerOk :
  rejected (resume p rest s net disk ledgerOk)
  = rejected p
    || match settledAs (fs (world p)) s net disk ledgerOk with
       | Rejected => true
       | _ => false
       end.
Proof.
  unfold settledAs.
  resume_cases s net disk ledgerOk; simpl; rewrite ?Hline;
    rewrite ?orb_false_r; reflexivity.
Qed.

Lemma settledAs_fine f s net disk : settledAs f s net disk true <> Rejected.
Proof.
  unfold settledAs. destruct s as [j|j]; [discriminate|].
  destruct (saveTile_resume f j net disk).2; [discriminate|].
  destruct (failedLine j); discriminate.
Qed.

Lemma rejected_step p c p' :
  step p c = Some p' -> ledgerFine c = true -> rejected p' = rejected p.
Proof.
  intros Hstep Hfine.
  destruct c as [|i net disk ledgerOk]; simpl in *.
  - apply launch_inv in Hstep as (b & bs' & _ & _ & Hr & ->). now rewrite Hr.
  - subst ledgerOk.
    destruct (flight p !! i) as [s|] eqn:Hi; [|discriminate].
    injection Hstep as <-. rewrite resume_rejected.
    pose proof (settledAs_fine (fs (world p)) s net disk).
    destruct (settledAs _ _ _ _ _); try congruence; apply orb_false_r.
Qed.

Lemma rejected_exec script p p' :
  exec p script = Some p' -> forallb ledgerFine script = true ->
  rejected p' = rejected p.
Proof.
  revert p. induction script as [|c cs IH]; intros p He Hf; simpl in *.
  - now injection He as <-.
  - apply andb_true_iff in Hf as [Hc Hcs].
    destruct (step p c) as [q|] eqn:Hq; [|discriminate].
    rewrite (IH _ He Hcs). eapply rejected_step; eauto.
Qed.

(** ** Complete runs exist *)

Lemma settle_fifo env (b : list Job) q :
  length (flight q) = length b ->
  exists q',
    exec q (map (fun j => Settle 0 (env j).1 (env j).2 true) b) = Some q'
    /\ flight q' = [] /\ pending q' = pending q /\ rejected q' = rejected q.
Proof.
  revert q. induction b as [|j b IH]; intros q Hlen.
  - exists q. destruct (flight q); [auto|discriminate].
  - destruct (flight q) as [|s rest] eqn:Hfl; [discriminate|].
    cbn [map exec step]. rewrite Hfl. cbn [lookup list_lookup delete list_delete].
    set (q1 := resume q rest s (env j).1 (env j).2 true).
    destruct (resume_pending_flight q rest s (env j).1 (env j).2 true)
      as (Hp & Hf & _).
    destruct (IH q1) as (q' & He & Hf' & Hp' & Hr').
    + unfold q1. rewrite Hf. simpl in Hlen. lia.
    + exists q'. split; [exact He|]. split; [exact Hf'|].
      split; [now rewrite Hp'|].
      rewrite Hr'. unfold q1. rewrite resume_rejected.
      pose proof (settledAs_fine (fs (world q)) s (env j).1 (env j).2).
      destruct (settledAs _ _ _ _ _); try congruence; apply orb_false_r.
Qed.

Lemma fifo_pass env bs q :
  pending q = bs -> flight q = [] -> rejected q = false ->
  exists q',
    exec q (fifoScript env bs) = Some q'
    /\ finished q' = true /\ rejected q' = false.
Proof.
  revert q. induction bs as [|b bs IH]; intros q Hp Hf Hr.
  - exists q. simpl. unfold finished. now rewrite Hp, Hf.
  - unfold fifoScript. cbn [flat_map]. fold (fifoScript env bs).
    cbn [app exec step]. unfold launch. rewrite Hp, Hf, Hr.
    match goal with |- context [exec ?q0 _] => set (q1 := q0) end.
    rewrite exec_app.
    destruct (settle_fifo env b q1) as (q2 & He & Hf2 & Hp2 & Hr2).
    { unfold q1. simpl. now rewrite length_map. }
    rewrite He. apply IH; [now rewrite Hp2|exact Hf2|now rewrite Hr2].
Qed.


(** ** The batch discipline *)







(** ** The calls of [main] *)

Lemma quiescent_fine p :
  quiescent p = true -> rejected p = false -> finished p = true.
Proof.
  unfold quiescent. intros Hq Hr. rewrite Hr in Hq.
  destruct (flight p); [exact Hq|discriminate].
Qed.

Section Calls.
Context `{JsMath}.
Variables (provider : TileProvider) (bounds : option Bounds)
  (maxThreads : Z) (lang : string).

Lemma downloadTilesForZoom_fine z st script r st' :
  downloadTilesForZoom provider z bounds maxThreads lang st script
  = Some (r, st') ->
  forallb ledgerFine script = true ->
  r = Normal
  /\ exists tr,
       st'.2 = st.2 ++ tr
       /\ starts tr = zoomJobs provider z bounds lang
       /\ ledger st'.1 = ledgerAfter (ledger st.1) (failureLines tr).
Proof.
  unfold downloadTilesForZoom, zoomPass. intros Hrun Hfine.
  set (jobs := zoomJobs provider z bounds lang) in *.
  destruct (exec (startPass jobs maxThreads st.1) script) as [p|] eqn:He;
    [|discriminate].
  destruct (quiescent p) eqn:Hq; [|discriminate].
  pose proof (rejected_exec _ _ _ He Hfine) as Hr. simpl in Hr.
  rewrite Hr in Hrun. injection Hrun as <- <-.
  split; [reflexivity|]. exists (trace p). simpl.
  split; [reflexivity|].
  apply quiescent_fine in Hq; [|exact Hr].
  apply finished_inv in Hq as [Hp Hf].
  destruct (exec_invariant _ (passInv_step (batchLoop maxThreads jobs []))
              script _ _ (passInv_start jobs maxThreads st.1) He)
    as (launched & Hbs & Hst & _ & _).
  destruct (exec_invariant _ (ledgerInv_step (ledger st.1))
              script _ _ (ledgerInv_start jobs maxThreads st.1) He)
    as [Hl Ha].
  split.
  - rewrite Hst. rewrite Hp, app_nil_r in Hbs. rewrite <- Hbs.
    apply batchLoop_concat.
  - now rewrite Hl, Ha.
Qed.

Lemma downloadTilesForZoom_threw z st script e st' :
  downloadTilesForZoom provider z bounds maxThreads lang st script
  = Some (Threw e, st') ->
  e = LedgerIOError /\ forallb ledgerFine script = false.
Proof.
  intros Hrun.
  destruct (forallb ledgerFine script) eqn:Hfine.
  - destruct (downloadTilesForZoom_fine _ _ _ _ _ Hrun Hfine). discriminate.
  - split; [|reflexivity].
    unfold downloadTilesForZoom in Hrun.
    destruct (exec _ script) as [p|]; [|discriminate].
    destruct (quiescent p); [|discriminate].
    destruct (rejected p); congruence.
Qed.

Lemma downloadTilesForZoom_fifo env z st :
  exists st',
    downloadTilesForZoom provider z bounds maxThreads lang st
      (fifoScript env
         (batchLoop maxThreads (zoomJobs provider z bounds lang) []))
    = Some (Normal, st').
Proof.
  unfold downloadTilesForZoom, zoomPass.
  destruct (fifo_pass env
              (batchLoop maxThreads (zoomJobs provider z bounds lang) [])
              (startPass (zoomJobs provider z bounds lang) maxThreads st.1)
              eq_refl eq_refl eq_refl)
    as (q & He & Hf & Hr).
  rewrite He. unfold quiescent.
  destruct (finished_inv _ Hf) as [_ Hfl].
  rewrite Hfl, Hf, Hr. simpl. eauto.
Qed.

Lemma zoomLoop_fine zs st scripts r st' :
  zoomLoop provider zs bounds maxThreads lang st scripts = Some (r, st') ->
  forallb (forallb ledgerFine) scripts = true ->
  r = Normal
  /\ exists tr,
       st'.2 = st.2 ++ tr
       /\ starts tr = flat_map (fun z => zoomJobs provider z bounds lang) zs
       /\ ledger st'.1 = ledgerAfter (ledger st.1) (failureLines tr).
Proof.
  revert st scripts. induction zs as [|z zs IH]; intros st scripts Hrun Hfine.
  - simpl in Hrun. injection Hrun as <- <-.
    split; [reflexivity|]. exists []. now rewrite app_nil_r.
  - simpl in Hrun. destruct scripts as [|sc scs]; [discriminate|].
    simpl in Hfine. apply andb_true_iff in Hfine as [Hsc Hscs].
    destruct (downloadTilesForZoom provider z bounds maxThreads lang st sc)
      as [[r1 st1]|] eqn:Hz; [|discriminate].
    destruct (downloadTilesForZoom_fine _ _ _ _ _ Hz Hsc)
      as (-> & tr1 & Ht1 & Hs1 & Hl1).
    destruct (IH _ _ Hrun Hscs) as (-> & tr2 & Ht2 & Hs2 & Hl2).
    split; [reflexivity|]. exists (tr1 ++ tr2).
    split; [now rewrite Ht2, Ht1, app_assoc|].
    split.
    + now rewrite starts_app, Hs1, Hs2.
    + now rewrite failureLines_app, ledgerAfter_app, <- Hl1.
Qed.

Lemma zoomLoop_threw zs st scripts e st' :
  zoomLoop provider zs bounds maxThreads lang st scripts
  = Some (Threw e, st') ->
  e = LedgerIOError /\ forallb (forallb ledgerFine) scripts = false.
Proof.
  intros Hrun.
  destruct (forallb (forallb ledgerFine) scripts) eqn:Hfine.
  - destruct (zoomLoop_fine _ _ _ _ _ Hrun Hfine). discriminate.
  - split; [|reflexivity].
    revert st scripts Hrun Hfine.
    induction zs as [|z zs IH]; intros st scripts Hrun _; simpl in Hrun.
    + discriminate.
    + destruct scripts as [|sc scs]; [discriminate|].
      destruct (downloadTilesForZoom provider z bounds maxThreads lang st sc)
        as [[[|e1] st1]|] eqn:Hz; [| |discriminate].
      * destruct (forallb (forallb ledgerFine) scs) eqn:Hscs.
        -- destruct (zoomLoop_fine _ _ _ _ _ Hrun Hscs). discriminate.
        -- eapply IH; eauto.
      * destruct (downloadTilesForZoom_threw _ _ _ _ _ Hz). congruence.
Qed.

Lemma zoomLoop_fifo env zs st :
  exists st',
    zoomLoop provider zs bounds maxThreads lang st
      (map (fun z => fifoScript env
                       (batchLoop maxThreads
                          (zoomJobs provider z bounds lang) [])) zs)
    = Some (Normal, st').
Proof.
  revert st. induction zs as [|z zs IH]; intros st; simpl; [eauto|].
  destruct (downloadTilesForZoom_fifo env z st) as [st1 ->]. apply IH.
Qed.

End Calls.

Lemma processFailedTiles_threw provider maxThreads st rs e st' :
  processFailedTiles provider maxThreads st rs = Some (Threw e, st') ->
  e = LedgerIOError /\ (readOk rs = false \/ unlinkOk rs = false).
Proof.
  unfold processFailedTiles. intros Hrun.
  destruct (ledger st.1) as [content|]; [|discriminate].
  destruct (readOk rs); simpl in Hrun; [|split; [congruence|auto]].
  destruct (ledgerLines content); [discriminate|].
  destruct (exec _ (choices rs)) as [p|]; [|discriminate].
  destruct (finished p); [|discriminate].
  destruct (unlinkOk rs); [discriminate|].
  split; [congruence|auto].
Qed.

Lemma processFailedTiles_fifo env provider maxThreads st :
  exists st',
    processFailedTiles provider maxThreads st
      (fifoRetry env provider maxThreads st) = Some (Normal, st').
Proof.
  unfold processFailedTiles, fifoRetry. simpl.
  destruct (ledger st.1) as [content|]; [|eauto]. simpl.
  destruct (ledgerLines content) as [|l ls] eqn:Hlines; [eauto|].
  destruct (fifo_pass env
              (batchLoop maxThreads (map (retryJob provider) (l :: ls)) [])
              (startPass (map (retryJob provider) (l :: ls)) maxThreads st.1)
              eq_refl eq_refl eq_refl) as (q & He & Hf & _).
  rewrite He, Hf. eauto.
Qed.

Lemma create_inl providerName lang e :
  create providerName lang = inl e -> e = UnsupportedProvider providerName.
Proof.
  unfold create.
  repeat match goal with
         | |- context [if ?b then _ else _] => destruct b
         end; intros He; congruence.
Qed.

Lemma fifoScript_fine env bs : forallb ledgerFine (fifoScript env bs) = true.
Proof.
  induction bs as [|b bs IH]; [reflexivity|].
  unfold fifoScript in *. cbn [flat_map].
  rewrite forallb_app, IH, andb_true_r. simpl.
  induction b as [|j b IHb]; [reflexivity|]. exact IHb.
Qed.



(** ** Printed numbers and paths *)

Lemma numberToString_inj a b :
  numberToString a = numberToString b -> a = b.
Proof.
  unfold numberToString. intros He.
  apply DecimalZ.to_int_inj.
  assert (Hn : forall n, Z.to_int n <> Decimal.Pos Decimal.Nil
                         /\ Z.to_int n <> Decimal.Neg Decimal.Nil).
  { intros [|p|p]; simpl; split; try discriminate;
      intros Hp; injection Hp as Hp;
      exact (Unsigned.to_uint_nonnil _ Hp). }
  apply (f_equal NilZero.int_of_string) in He.
  rewrite !NilZero.isi in He by apply Hn.
  now injection He.
Qed.

Lemma append_inj_r (s s' t : string) : s +:+ t = s' +:+ t -> s = s'.
Proof.
  revert s'. induction s as [|c s IH]; intros [|c' s'] He.
  - reflexivity.
  - apply (f_equal String.length) in He.
    rewrite append_empty_l, append_cons in He. simpl in He.
    rewrite length_append in He. lia.
  - apply (f_equal String.length) in He.
    rewrite append_empty_l, append_cons in He. simpl in He.
    rewrite length_append in He. lia.
  - rewrite !append_cons in He. injection He as -> He.
    f_equal. now apply IH.
Qed.

Lemma tileJob_outputFile_inj provider z lang a b :
  outputFile (tileJob provider z lang a)
  = outputFile (tileJob provider z lang b) -> a = b.
Proof.
  destruct a as [x y], b as [x' y']. simpl.
  unfold tileFile, tileDir. simpl. intros He.
  injection He as Hx Hy.
  apply numberToString_inj in Hx. apply append_inj_r in Hy.
  apply numberToString_inj in Hy. congruence.
Qed.

(** ** The enumeration has no repetition *)

Lemma NoDup_flat_map {A B} (f : A -> list B) (l : list A) :
  NoDup l ->
  (forall a, a ∈ l -> NoDup (f a)) ->
  (forall a a' b, a ∈ l -> a' ∈ l -> b ∈ f a -> b ∈ f a' -> a = a') ->
  NoDup (flat_map f l).
Proof.
  induction l as [|a l IH]; intros Hnd Hin Hdisj; simpl.
  - constructor.
  - apply NoDup_cons in Hnd as [Ha Hl].
    apply NoDup_app. split; [|split].
    + apply Hin. left.
    + intros b Hb Hb'.
      apply list_elem_of_In, in_flat_map in Hb' as (a' & Ha' & Hba').
      apply list_elem_of_In in Ha', Hba'.
      assert (a = a') by (eapply Hdisj; eauto; [left|now right]).
      subst a'. contradiction.
    + apply IH; auto.
      * intros a0 H0. apply Hin. now right.
      * intros a0 a' b H0 H1. apply Hdisj; now right.
Qed.

Lemma NoDup_range n : NoDup (range n).
Proof.
  unfold range. apply (NoDup_fmap_2 Z.of_nat). apply NoDup_seq.
Qed.

Lemma NoDup_enumerate keep z : NoDup (enumerate keep z).
Proof.
  unfold enumerate.
  assert (Hrow : forall x b,
             b ∈ flat_map (fun y => if keep x y then [(x, y)] else [])
                          (range (loopBound z)) -> b.1 = x).
  { intros x b Hb.
    apply list_elem_of_In, in_flat_map in Hb as (y & _ & Hb).
    destruct (keep x y); simpl in Hb; [|contradiction].
    destruct Hb as [<-|[]]. reflexivity. }
  apply NoDup_flat_map.
  - apply NoDup_range.
  - intros x _. apply NoDup_flat_map.
    + apply NoDup_range.
    + intros y _. destruct (keep x y); [apply NoDup_singleton|constructor].
    + intros y y' b _ _ Hb Hb'.
      destruct (keep x y); [|inversion Hb].
      destruct (keep x y'); [|inversion Hb'].
      apply list_elem_of_singleton in Hb, Hb'. congruence.
  - intros x x' b _ _ Hb Hb'.
    apply Hrow in Hb, Hb'. congruence.
Qed.

Lemma NoDup_zoomJobs `{JsMath} provider z bounds lang :
  NoDup (map outputFile (zoomJobs provider z bounds lang)).
Proof.
  unfold zoomJobs. rewrite map_map.
  assert (Hinj : Inj (=) (=)
                    (fun a => outputFile (tileJob provider z lang a)))
    by (intros a b; apply tileJob_outputFile_inj).
  apply (NoDup_fmap_2 _ (enumerate (keepTile bounds z) z)).
  apply NoDup_enumerate.
Qed.

(** ** The tile store *)

Lemma storeGrows_refl f : storeGrows f f.
Proof. split; auto. Qed.

Lemma storeGrows_trans f0 f1 f2 :
  storeGrows f0 f1 -> storeGrows f1 f2 -> storeGrows f0 f2.
Proof. intros [H1 D1] [H2 D2]. split; [auto|set_solver]. Qed.

Lemma existsSync_false f q :
  existsSync f q = false -> files f !! q = None.
Proof.
  unfold existsSync. intros [Hf _]%orb_false_iff.
  apply bool_decide_eq_false in Hf.
  destruct (files f !! q) eqn:E; [|reflexivity].
  exfalso. apply Hf. eauto.
Qed.

Lemma existsSync_grows f0 f q :
  storeGrows f0 f -> existsSync f0 q = true -> existsSync f q = true.
Proof.
  unfold existsSync. intros [Hf Hd] [H|H]%orb_true_iff; apply orb_true_iff.
  - left. apply bool_decide_eq_true. apply bool_decide_eq_true in H.
    destruct H as [c Hc]. rewrite (Hf _ _ Hc). eauto.
  - right. apply bool_decide_eq_true. apply bool_decide_eq_true in H.
    set_solver.
Qed.

(** What [saveTile] does to the file system once [axios.get] has
    settled: it writes at most the tile file itself, and only adds
    directories. *)
Lemma saveTile_resume_fs f j net disk :
  let r := saveTile_resume f j net disk in
  files r.1.1 = match r.1.2 with
                | Some c => <[outputFile j := c]> (files f)
                | None => files f
                end
  /\ dirs f ⊆ dirs r.1.1
  /\ (r.2 = true -> exists data,
         net = FetchOk data /\ r.1.2 = Some data).
Proof.
  unfold saveTile_resume.
  destruct net as [|data]; [|destruct disk as [| |[k|]]]; simpl;
    repeat split; try set_solver; try discriminate; eauto.
Qed.

(** The file system and the trace after one thunk has settled. *)
Lemma resume_fs p rest s net disk ledgerOk :
  let p' := resume p rest s net disk ledgerOk in
  exists new,
    trace p' = trace p ++ new
    /\ fetches new = []
    /\ match s with
       | Existing _ => world p' = world p /\ writes new = []
       | Fetching j =>
           let r := saveTile_resume (fs (world p)) j net disk in
           fs (world p') = r.1.1
           /\ writes new = match r.1.2 with
                           | Some _ => [outputFile j]
                           | None => []
                           end
       end.
Proof.
  resume_cases s net disk ledgerOk; simpl; eexists;
    (split; [reflexivity|]); simpl; repeat split; reflexivity.
Qed.

Lemma fetches_startEvents f b j :
  j ∈ fetches (flat_map (startEvents f) b) ->
  j ∈ b /\ existsSync f (outputFile j) = false.
Proof.
  induction b as [|j0 b IH]; simpl; [inversion 1|].
  rewrite fetches_app. intros [Hj|Hj]%elem_of_app.
  - unfold startEvents, saveTile_enter in Hj.
    destruct (existsSync f (outputFile j0)) eqn:E; simpl in Hj.
    + inversion Hj.
    + apply list_elem_of_singleton in Hj as ->. split; [left|exact E].
  - destruct (IH Hj). split; [now right|assumption].
Qed.

Lemma writes_startEvents f b : writes (flat_map (startEvents f) b) = [].
Proof.
  induction b as [|j b IH]; [reflexivity|].
  simpl. rewrite writes_app, IH. unfold startEvents.
  destruct (saveTile_enter f j); reflexivity.
Qed.

Lemma startThunk_paths f b :
  map (fun s => outputFile (slotJob s)) (map (startThunk f) b)
  = map outputFile b.
Proof.
  rewrite map_map. apply map_ext. intros j.
  unfold startThunk. destruct (saveTile_enter f j); reflexivity.
Qed.

Lemma startThunk_fetching f b j :
  Fetching j ∈ map (startThunk f) b -> existsSync f (outputFile j) = false.
Proof.
  intros (j0 & Hs & _)%list_elem_of_In%in_map_iff.
  unfold startThunk, saveTile_enter in Hs.
  destruct (existsSync f (outputFile j0)) eqn:E; [discriminate|].
  now injection Hs as <-.
Qed.

Lemma lookup_insert_is_Some' (m : gmap Path (list byte)) k v q :
  is_Some (m !! q) -> is_Some (<[k := v]> m !! q).
Proof.
  intros Hq. destruct (decide (k = q)) as [->|Hne].
  - rewrite lookup_insert_eq. eauto.
  - now rewrite lookup_insert_ne.
Qed.

Lemma growInv_step f0 p c p' :
  growInv f0 p -> step p c = Some p' -> growInv f0 p'.
Proof.
  intros (Hgrow & Hfl & Hwr & Hfe) Hstep.
  assert (Habsent : forall q, existsSync (fs (world p)) q = false ->
                              files f0 !! q = None).
  { intros q Hq. apply existsSync_false in Hq.
    destruct (files f0 !! q) eqn:E; [|reflexivity].
    rewrite (proj1 Hgrow _ _ E) in Hq. discriminate. }
  destruct c as [|i net disk ledgerOk]; simpl in Hstep.
  - apply launch_inv in Hstep as (b & bs' & Hp & Hf & _ & ->).
    unfold growInv. cbn [pending flight world trace].
    rewrite writes_app, writes_startEvents, app_nil_r.
    split; [exact Hgrow|]. split; [|split; [exact Hwr|]].
    + intros j Hj. apply Habsent. eapply startThunk_fetching; eauto.
    + intros j. rewrite fetches_app.
      intros [Hj|Hj]%elem_of_app; [auto|].
      apply fetches_startEvents in Hj as [_ Hj].
      destruct (existsSync f0 (outputFile j)) eqn:E; [|reflexivity].
      rewrite (existsSync_grows _ _ _ Hgrow E) in Hj. discriminate.
  - destruct (flight p !! i) as [s|] eqn:Hi; [|discriminate].
    injection Hstep as <-.
    destruct (resume_pending_flight p (delete i (flight p)) s net disk ledgerOk)
      as (Hp' & Hf' & _).
    destruct (resume_fs p (delete i (flight p)) s net disk ledgerOk)
      as (new & Htr & Hnf & Hs).
    assert (Hsub : forall s', s' ∈ delete i (flight p) -> s' ∈ flight p).
    { intros s' Hs'. rewrite (delete_Permutation _ _ _ Hi). now right. }
    unfold growInv. rewrite Hf', Htr.
    destruct s as [j|j].
    + destruct Hs as [Hw Hwn]. rewrite Hw, writes_app, Hwn, app_nil_r,
        fetches_app, Hnf, app_nil_r.
      split; [exact Hgrow|]. split; [|split]; auto.
    + cbv zeta in Hs. destruct Hs as [Hfs Hwn].
      destruct (saveTile_resume_fs (fs (world p)) j net disk)
        as (Hfiles & Hdirs & _).
      cbv zeta in Hfiles, Hdirs.
      assert (Hj : files f0 !! outputFile j = None).
      { apply Hfl. apply list_elem_of_lookup. eauto. }
      rewrite Hfs, writes_app, Hwn, fetches_app, Hnf, app_nil_r.
      assert (Hkeep : forall q, is_Some (files (fs (world p)) !! q) ->
                is_Some (files (saveTile_resume (fs (world p)) j net disk).1.1
                           !! q)).
      { intros q Hq. rewrite Hfiles.
        destruct (saveTile_resume _ _ _ _).1.2;
          [now apply lookup_insert_is_Some'|exact Hq]. }
      split; [|split; [|split]]; auto.
      * split; [|destruct Hgrow as [_ Hd]; now transitivity (dirs (fs (world p)))].
        intros q c Hq. rewrite Hfiles.
        assert (q <> outputFile j) by (intros ->; congruence).
        destruct (saveTile_resume _ _ _ _).1.2;
          [rewrite lookup_insert_ne by auto|]; now apply Hgrow.
      * intros q [Hq|Hq]%elem_of_app.
        -- destruct (Hwr _ Hq). auto.
        -- rewrite Hfiles.
           destruct (saveTile_resume _ _ _ _).1.2; [|inversion Hq].
           apply list_elem_of_singleton in Hq as ->.
           split; [exact Hj|]. rewrite lookup_insert_eq. eauto.
Qed.

Lemma growInv_start jobs c w : growInv (fs w) (startPass jobs c w).
Proof.
  unfold growInv. simpl. split; [apply storeGrows_refl|].
  split; [|split]; intros ? Hx; inversion Hx.
Qed.

Lemma freshInv_step p c p' :
  freshInv p -> step p c = Some p' -> freshInv p'.
Proof.
  unfold freshInv. intros Hnd Hstep.
  destruct c as [|i net disk ledgerOk]; simpl in Hstep.
  - apply launch_inv in Hstep as (b & bs' & Hp & Hf & _ & ->).
    rewrite Hp, Hf in Hnd. cbn [pending flight world trace].
    cbn [app concat map] in Hnd.
    rewrite writes_app, writes_startEvents, app_nil_r, startThunk_paths,
      <- map_app.
    exact Hnd.
  - destruct (flight p !! i) as [s|] eqn:Hi; [|discriminate].
    injection Hstep as <-.
    destruct (resume_pending_flight p (delete i (flight p)) s net disk ledgerOk)
      as (Hp' & Hf' & _).
    destruct (resume_fs p (delete i (flight p)) s net disk ledgerOk)
      as (new & Htr & _ & Hs).
    rewrite Hp', Hf', Htr, writes_app.
    set (P := map outputFile (concat (pending p))) in *.
    set (F := map (fun s => outputFile (slotJob s)) (delete i (flight p))).
    assert (Hnd' : NoDup (writes (trace p)
                            ++ [outputFile (slotJob s)] ++ F ++ P)).
    { eapply NoDup_Permutation_proper; [|exact Hnd].
      apply Permutation_app_head.
      change (Permutation
                (map (fun s => outputFile (slotJob s)) (s :: delete i (flight p))
                   ++ P)
                (map (fun s => outputFile (slotJob s)) (flight p) ++ P)).
      apply Permutation_app_tail, Permutation_map.
      symmetry. now apply delete_Permutation. }
    assert (Hdrop : NoDup (writes (trace p) ++ F ++ P)).
    { apply NoDup_app in Hnd' as (H1 & H2 & H3).
      apply NoDup_app. split; [exact H1|]. split.
      - intros q Hq Hq'. apply (H2 q Hq). now right.
      - now apply NoDup_cons in H3 as [_ H3]. }
    destruct s as [j|j].
    + destruct Hs as [_ ->]. now rewrite app_nil_r.
    + cbv zeta in Hs. destruct Hs as [_ ->].
      destruct (saveTile_resume _ _ _ _).1.2.
      * rewrite <- app_assoc. exact Hnd'.
      * now rewrite app_nil_r.
Qed.

Lemma freshInv_start jobs c w :
  NoDup (map outputFile jobs) -> freshInv (startPass jobs c w).
Proof.
  intros Hnd. unfold freshInv. simpl. now rewrite batchLoop_concat.
Qed.

Lemma cachedInv_step w0 p c p' :
  cachedInv w0 p -> step p c = Some p' -> cachedInv w0 p'.
Proof.
  intros (Hw & Hr & Hfe & Hwr & Hap & Hfl & Hpend) Hstep.
  destruct c as [|i net disk ledgerOk]; simpl in Hstep.
  - apply launch_inv in Hstep as (b & bs' & Hp & Hf & _ & ->).
    rewrite Hp in Hpend. cbn [concat] in Hpend.
    assert (Hb : forall j, j ∈ b -> saveTile_enter (fs (world p)) j = true).
    { intros j Hj. unfold saveTile_enter. rewrite Hw.
      apply Hpend, elem_of_app. now left. }
    assert (Hev : forall b', (forall j, j ∈ b' -> j ∈ b) ->
              flat_map (startEvents (fs (world p))) b' = map EvStart b'
              /\ map (startThunk (fs (world p))) b' = map Existing b').
    { induction b' as [|j b' IH]; intros Hsub; [auto|].
      destruct IH as [IH1 IH2]; [intros; apply Hsub; now right|].
      cbn [flat_map map]. rewrite IH1, IH2.
      unfold startEvents, startThunk.
      rewrite (Hb j) by (apply Hsub; left). auto. }
    destruct (Hev b) as [Hev1 Hev2]; [auto|].
    unfold cachedInv. cbn [world rejected trace flight pending].
    rewrite Hev1, Hev2, fetches_app, writes_app, appends_app, Hfe, Hwr, Hap.
    repeat split; auto.
    + clear. induction b; simpl; auto.
    + clear. induction b; simpl; auto.
    + clear. induction b; simpl; auto.
    + intros s (j & <- & _)%list_elem_of_In%in_map_iff. eauto.
    + intros j Hj. apply Hpend, elem_of_app. now right.
  - destruct (flight p !! i) as [s|] eqn:Hi; [|discriminate].
    injection Hstep as <-.
    destruct (Hfl s) as [j ->]; [apply list_elem_of_lookup; eauto|].
    unfold cachedInv. cbn [resume world rejected trace flight pending].
    rewrite fetches_app, writes_app, appends_app, Hfe, Hwr, Hap.
    repeat split; auto.
    intros s Hs. apply Hfl. rewrite (delete_Permutation _ _ _ Hi). now right.
Qed.

Lemma cachedInv_start jobs c w :
  (forall j, j ∈ jobs -> existsSync (fs w) (outputFile j) = true) ->
  cachedInv w (startPass jobs c w).
Proof.
  intros Hj. unfold cachedInv. simpl. rewrite batchLoop_concat.
  repeat split; auto.
  intros s Hs. inversion Hs.
Qed.

Section Store.
Context `{JsMath}.
Variables (provider : TileProvider) (bounds : option Bounds)
  (maxThreads : Z) (lang : string).

Lemma downloadTilesForZoom_grows z st script r st' :
  downloadTilesForZoom provider z bounds maxThreads lang st script
  = Some (r, st') ->
  storeGrows (fs st.1) (fs st'.1)
  /\ exists tr,
       st'.2 = st.2 ++ tr
       /\ (forall j, j ∈ fetches tr ->
             existsSync (fs st.1) (outputFile j) = false)
       /\ (forall q, q ∈ writes tr ->
             files (fs st.1) !! q = None
             /\ is_Some (files (fs st'.1) !! q))
       /\ NoDup (writes tr).
Proof.
  unfold downloadTilesForZoom, zoomPass. intros Hrun.
  destruct (exec _ script) as [p|] eqn:He; [|discriminate].
  destruct (quiescent p); [|discriminate].
  injection Hrun as _ <-.
  destruct (exec_invariant _ (growInv_step (fs st.1)) script _ _
              (growInv_start _ maxThreads st.1) He)
    as (Hgrow & _ & Hwr & Hfe).
  pose proof (exec_invariant _ freshInv_step script _ _
                (freshInv_start _ maxThreads st.1
                   (NoDup_zoomJobs provider z bounds lang)) He) as Hnd.
  apply NoDup_app in Hnd as [Hnd _].
  split; [exact Hgrow|]. exists (trace p). auto.
Qed.

Lemma zoomLoop_grows zs st scripts r st' :
  zoomLoop provider zs bounds maxThreads lang st scripts = Some (r, st') ->
  storeGrows (fs st.1) (fs st'.1)
  /\ exists tr,
       st'.2 = st.2 ++ tr
       /\ (forall j, j ∈ fetches tr ->
             existsSync (fs st.1) (outputFile j) = false)
       /\ (forall q, q ∈ writes tr ->
             files (fs st.1) !! q = None
             /\ is_Some (files (fs st'.1) !! q))
       /\ NoDup (writes tr).
Proof.
  revert st scripts. induction zs as [|z zs IH]; intros st scripts Hrun.
  - simpl in Hrun. injection Hrun as _ <-.
    split; [apply storeGrows_refl|]. exists []. rewrite app_nil_r.
    split; [reflexivity|].
    split; [|split; [|constructor]]; intros ? Hx; inversion Hx.
  - simpl in Hrun. destruct scripts as [|sc scs]; [discriminate|].
    destruct (downloadTilesForZoom provider z bounds maxThreads lang st sc)
      as [[r1 st1]|] eqn:Hz; [|discriminate].
    destruct (downloadTilesForZoom_grows _ _ _ _ _ Hz)
      as (Hg1 & tr1 & Ht1 & Hf1 & Hw1 & Hn1).
    destruct r1 as [|e1].
    + destruct (IH _ _ Hrun) as (Hg2 & tr2 & Ht2 & Hf2 & Hw2 & Hn2).
      split; [eapply storeGrows_trans; eauto|].
      exists (tr1 ++ tr2). rewrite Ht2, Ht1, app_assoc.
      split; [reflexivity|]. split; [|split].
      * intros j. rewrite fetches_app.
        intros [Hj|Hj]%elem_of_app; [auto|].
        specialize (Hf2 _ Hj).
        destruct (existsSync (fs st.1) (outputFile j)) eqn:E; [|reflexivity].
        rewrite (existsSync_grows _ _ _ Hg1 E) in Hf2. discriminate.
      * intros q. rewrite writes_app. intros [Hq|Hq]%elem_of_app.
        -- destruct (Hw1 _ Hq) as [Hq0 [c Hc]].
           split; [exact Hq0|]. rewrite (proj1 Hg2 _ _ Hc). eauto.
        -- destruct (Hw2 _ Hq) as [Hq1 Hq2]. split; [|exact Hq2].
           destruct (files (fs st.1) !! q) eqn:E; [|reflexivity].
           rewrite (proj1 Hg1 _ _ E) in Hq1. discriminate.
      * rewrite writes_app. apply NoDup_app.
        split; [exact Hn1|]. split; [|exact Hn2].
        intros q Hq Hq'.
        destruct (Hw1 _ Hq) as [_ [c Hc]].
        destruct (Hw2 _ Hq') as [Hnone _]. congruence.
    + injection Hrun as _ <-. split; [exact Hg1|]. eauto 10.
Qed.

Lemma downloadTilesForZoom_cached z st script r st' :
  downloadTilesForZoom provider z bounds maxThreads lang st script
  = Some (r, st') ->
  (forall j, j ∈ zoomJobs provider z bounds lang ->
     existsSync (fs st.1) (outputFile j) = true) ->
  r = Normal /\ st'.1 = st.1
  /\ exists tr,
       st'.2 = st.2 ++ tr
       /\ fetches tr = [] /\ writes tr = [] /\ appends tr = [].
Proof.
  unfold downloadTilesForZoom, zoomPass. intros Hrun Hall.
  destruct (exec _ script) as [p|] eqn:He; [|discriminate].
  destruct (quiescent p); [|discriminate].
  destruct (exec_invariant _ (cachedInv_step st.1) script _ _
              (cachedInv_start _ maxThreads st.1 Hall) He)
    as (Hw & Hr & Hfe & Hwr & Hap & _).
  rewrite Hr in Hrun. injection Hrun as <- <-.
  split; [reflexivity|]. split; [exact Hw|]. exists (trace p). auto.
Qed.

Lemma zoomLoop_cached zs st scripts r st' :
  zoomLoop provider zs bounds maxThreads lang st scripts = Some (r, st') ->
  (forall z j, z ∈ zs -> j ∈ zoomJobs provider z bounds lang ->
     existsSync (fs st.1) (outputFile j) = true) ->
  r = Normal /\ st'.1 = st.1
  /\ exists tr,
       st'.2 = st.2 ++ tr
       /\ fetches tr = [] /\ writes tr = [] /\ appends tr = [].
Proof.
  revert st scripts. induction zs as [|z zs IH]; intros st scripts Hrun Hall.
  - simpl in Hrun. injection Hrun as <- <-.
    repeat split. exists []. now rewrite app_nil_r.
  - simpl in Hrun. destruct scripts as [|sc scs]; [discriminate|].
    destruct (downloadTilesForZoom provider z bounds maxThreads lang st sc)
      as [[r1 st1]|] eqn:Hz; [|discriminate].
    destruct (downloadTilesForZoom_cached _ _ _ _ _ Hz)
      as (-> & Hw1 & tr1 & Ht1 & Hf1 & Hwr1 & Ha1).
    { intros j Hj. apply (Hall z); [left|exact Hj]. }
    destruct (IH _ _ Hrun) as (-> & Hw2 & tr2 & Ht2 & Hf2 & Hwr2 & Ha2).
    { intros z' j Hz' Hj. rewrite Hw1. apply (Hall z'); [now right|exact Hj]. }
    split; [reflexivity|]. split; [now rewrite Hw2|].
    exists (tr1 ++ tr2). rewrite Ht2, Ht1, app_assoc.
    rewrite fetches_app, writes_app, appends_app, Hf1, Hf2, Hwr1, Hwr2,
      Ha1, Ha2.
    auto.
Qed.

End Store.

Lemma processFailedTiles_grows provider maxThreads st rs r st' :
  processFailedTiles provider maxThreads st rs = Some (r, st') ->
  storeGrows (fs st.1) (fs st'.1).
Proof.
  unfold processFailedTiles. intros Hrun.
  destruct (ledger st.1) as [content|];
    [|injection Hrun as _ <-; apply storeGrows_refl].
  destruct (readOk rs); simpl in Hrun;
    [|injection Hrun as _ <-; apply storeGrows_refl].
  destruct (ledgerLines content) as [|l ls];
    [injection Hrun as _ <-; apply storeGrows_refl|].
  destruct (exec _ (choices rs)) as [p|] eqn:He; [|discriminate].
  destruct (finished p); [|discriminate].
  destruct (exec_invariant _ (growInv_step (fs st.1)) _ _ _
              (growInv_start _ maxThreads st.1) He) as (Hgrow & _).
  destruct (unlinkOk rs); injection Hrun as _ <-; exact Hgrow.
Qed.

Lemma main_grows `{JsMath} providerName zoomStart zoomEnd bounds lang
    maxThreads w ms r st' :
  main providerName zoomStart zoomEnd bounds lang maxThreads w ms
  = Some (r, st') ->
  storeGrows (fs w) (fs st'.1).
Proof.
  unfold main. intros Hrun.
  destruct (create providerName (Some lang)) as [e|provider];
    [injection Hrun as _ <-; apply storeGrows_refl|].
  destruct (processFailedTiles provider maxThreads (w, []) (retryBefore ms))
    as [[r1 st1]|] eqn:H1; [|discriminate].
  pose proof (processFailedTiles_grows _ _ _ _ _ _ H1) as Hg1.
  destruct r1 as [|e1]; [|injection Hrun as _ <-; exact Hg1].
  destruct (zoomLoop provider (zoomLevels zoomStart zoomEnd) bounds
              maxThreads lang st1 (zoomScripts ms))
    as [[r2 st2]|] eqn:H2; [|discriminate].
  destruct (zoomLoop_grows _ _ _ _ _ _ _ _ _ H2) as [Hg2 _].
  pose proof (storeGrows_trans _ _ _ Hg1 Hg2) as Hg12.
  destruct r2 as [|e2]; [|injection Hrun as _ <-; exact Hg12].
  eapply storeGrows_trans; [exact Hg12|].
  eapply processFailedTiles_grows; eauto.
Qed.

(** Claim C4.  A tile whose file exists is skipped without request and
    without write.  Under every script a run of the zoom loop keeps every
    file that was in the store, byte for byte, requests and writes only
    tiles whose file was not there, and writes no path twice; when all
    its tiles are in the store it requests nothing, writes nothing and
    leaves store and ledger as they were.  The whole program, with its
    retry passes, keeps every file that was there: the store only
    grows. *)
Theorem acquisition_idempotent `{JsMath} (provider : TileProvider)
    (bounds : option Bounds) (maxThreads : Z) (lang : string) :
  (* a tile whose file exists is skipped: no request, and settling it
     leaves the world as it is *)
  (forall f j,
      existsSync f (outputFile j) = true ->
      startThunk f j = Existing j
      /\ startEvents f j = [EvStart j]
      /\ forall p rest net disk ledgerOk,
           world (resume p rest (Existing j) net disk ledgerOk) = world p)
  (* a run of the zoom loop never removes or rewrites a file that was
     there, neither requests nor writes a tile whose file was there, and
     writes no path twice: every write creates a file *)
  /\ (forall zs st scripts r st',
         zoomLoop provider zs bounds maxThreads lang st scripts
         = Some (r, st') ->
         storeGrows (fs st.1) (fs st'.1)
         /\ exists tr,
              st'.2 = st.2 ++ tr
              /\ (forall j, j ∈ fetches tr ->
                    existsSync (fs st.1) (outputFile j) = false)
              /\ (forall q, q ∈ writes tr ->
                    files (fs st.1) !! q = None
                    /\ is_Some (files (fs st'.1) !! q))
              /\ NoDup (writes tr))
  (* a run over tiles that are all there requests nothing, writes nothing
     and leaves the store and the ledger as they are *)
  /\ (forall zs st scripts r st',
         zoomLoop provider zs bounds maxThreads lang st scripts
         = Some (r, st') ->
         (forall z j, z ∈ zs -> j ∈ zoomJobs provider z bounds lang ->
            existsSync (fs st.1) (outputFile j) = true) ->
         r = Normal /\ st'.1 = st.1
         /\ exists tr,
              st'.2 = st.2 ++ tr
              /\ fetches tr = [] /\ writes tr = [] /\ appends tr = [])
  (* the whole program, retry passes included, keeps every file that was
     there, with the same bytes *)
  /\ (forall providerName zoomStart zoomEnd w ms r st',
         main providerName zoomStart zoomEnd bounds lang maxThreads w ms
         = Some (r, st') ->
         storeGrows (fs w) (fs st'.1)).
Proof.
  split; [|split; [|split]].
  - intros f j Hj. unfold startThunk, startEvents, saveTile_enter.
    rewrite Hj. auto.
  - apply zoomLoop_grows.
  - apply zoomLoop_cached.
  - intros. eapply main_grows; eauto.
Qed.

(** Claim C4 for zoom 0 over a store that holds its tile. *)
Lemma acquisition_idempotent_witness :
  exists r st',
    @zoomLoop exampleMath google [0] None 6 "ru" (cachedWorld, [])
      [[Launch; Settle 0 FetchFail DiskOk true]]
    = Some (r, st')
    /\ r = Normal /\ st'.1 = cachedWorld
    /\ exists tr,
         st'.2 = [] ++ tr
         /\ fetches tr = [] /\ writes tr = [] /\ appends tr = [].
Proof.
  eexists. eexists. split.
  - vm_compute. reflexivity.
  - apply (proj1 (proj2 (proj2 (@acquisition_idempotent exampleMath google
                                  None 6 "ru")))
             [0] (cachedWorld, []) [[Launch; Settle 0 FetchFail DiskOk true]]).
    + vm_compute. reflexivity.
    + intros z j Hz Hj.
      apply list_elem_of_singleton in Hz as ->.
      change (j ∈ [tileJob google 0 "ru" (0, 0)]) in Hj.
      apply list_elem_of_singleton in Hj as ->.
      vm_compute. reflexivity.
Defined.


(** ** Saving a tile *)

Lemma mkdirSync_idempotent f d : mkdirSync (mkdirSync f d) d = mkdirSync f d.
Proof.
  unfold mkdirSync. simpl. f_equal.
  rewrite <- (assoc_L (∪)). now rewrite (idemp_L (∪)).
Qed.

Lemma mkdirSync_ancestors f d a :
  a ∈ ancestors d -> a ∈ dirs (mkdirSync f d).
Proof.
  intros Ha. unfold mkdirSync. simpl.
  apply elem_of_union. right. now apply elem_of_list_to_set.
Qed.

Lemma existsSync_file f q c : files f !! q = Some c -> existsSync f q = true.
Proof.
  intros Hq. unfold existsSync. apply orb_true_iff. left.
  apply bool_decide_eq_true. eauto.
Qed.

(** Claim C8, amended.  [saveTile] first creates the directories of the
    tile (again creating them changes nothing), then writes the bytes to
    the tile path itself, and to no other path: there is no temporary file
    and no rename.  When the write returns, the tile path holds the whole
    tile.  When the write stops after [k] bytes, the tile path holds these
    [k] bytes, and [existsSync] and the next [saveTile] take them for the
    cached tile. *)
Theorem saveTile_writes_in_place (f : FS) (j : Job) (data : list byte) :
  (* the directories are created first, and creating them again changes
     nothing *)
  (forall d,
      mkdirSync (mkdirSync f d) d = mkdirSync f d
      /\ files (mkdirSync f d) = files f
      /\ forall a, a ∈ ancestors d -> a ∈ dirs (mkdirSync f d))
  (* a write that returns leaves the whole tile at the tile path, and
     touches no other path *)
  /\ (let r := saveTile_resume f j (FetchOk data) DiskOk in
      r.2 = true
      /\ files r.1.1 !! outputFile j = Some data
      /\ (forall a, a ∈ ancestors (outputDir j) -> a ∈ dirs r.1.1)
      /\ forall q, q <> outputFile j -> files r.1.1 !! q = files f !! q)
  (* a write that stops after [k] bytes leaves these bytes at the tile
     path itself, where [existsSync] and the next [saveTile] find them *)
  /\ (forall k,
         let r := saveTile_resume f j (FetchOk data) (WriteFail (Some k)) in
         r.2 = false
         /\ files r.1.1 !! outputFile j = Some (take k data)
         /\ existsSync r.1.1 (outputFile j) = true
         /\ saveTile_enter r.1.1 j = true
         /\ forall q, q <> outputFile j -> files r.1.1 !! q = files f !! q).
Proof.
  split; [|split].
  - intros d. split; [apply mkdirSync_idempotent|].
    split; [reflexivity|]. apply mkdirSync_ancestors.
  - simpl. split; [reflexivity|]. split; [apply lookup_insert_eq|].
    split.
    + intros a Ha. now apply mkdirSync_ancestors.
    + intros q Hq. now apply lookup_insert_ne.
  - intros k. simpl.
    assert (Hl : <[outputFile j := take k data]> (files f) !! outputFile j
                 = Some (take k data)) by apply lookup_insert_eq.
    split; [reflexivity|]. split; [exact Hl|].
    split; [eapply existsSync_file; exact Hl|].
    split; [eapply existsSync_file; exact Hl|].
    intros q Hq. now apply lookup_insert_ne.
Qed.

(** The amended claim C8 for a write that returns. *)
Lemma saveTile_writes_in_place_witness :
  let r := saveTile_resume emptyFS sampleTile (FetchOk sampleData) DiskOk in
  r.2 = true
  /\ files r.1.1 !! outputFile sampleTile = Some sampleData
  /\ (forall a, a ∈ ancestors (outputDir sampleTile) -> a ∈ dirs r.1.1)
  /\ forall q, q <> outputFile sampleTile ->
       files r.1.1 !! q = files emptyFS !! q.
Proof.
  exact (proj1 (proj2 (saveTile_writes_in_place emptyFS sampleTile
                         sampleData))).
Defined.

(** Claim C8 as stated fails: a write of four bytes that stops after two
    leaves a two-byte file at the tile path, which did not exist before,
    and the next run skips the tile as cached. *)
Lemma partial_tile_counterexample :
  let r := saveTile_resume emptyFS sampleTile (FetchOk sampleData)
             (WriteFail (Some 2%nat)) in
  existsSync emptyFS (outputFile sampleTile) = false
  /\ r.2 = false
  /\ files r.1.1 !! outputFile sampleTile = Some [x01; x02]
  /\ [x01; x02] <> sampleData
  /\ existsSync r.1.1 (outputFile sampleTile) = true
  /\ startThunk r.1.1 sampleTile = Existing sampleTile.
Proof.
  cbv zeta. repeat split; try (vm_compute; reflexivity).
  discriminate.
Qed.

(** ** The retry pass *)

Lemma split_nonempty sep s : split sep s <> [].
Proof.
  destruct s as [|c s]; simpl; [discriminate|].
  destruct (Ascii.eqb c sep); [discriminate|].
  destruct (split sep s); discriminate.
Qed.

(** Whatever failed again, a retry pass that returns leaves no ledger. *)
Lemma processFailedTiles_clears provider maxThreads st rs st' :
  processFailedTiles provider maxThreads st rs = Some (Normal, st') ->
  ledger st'.1 = None.
Proof.
  unfold processFailedTiles. intros Hrun.
  destruct (ledger st.1) as [content|] eqn:Hl.
  - destruct (readOk rs); simpl in Hrun; [|discriminate].
    pose proof (split_nonempty LF (trim content)) as Hne.
    unfold ledgerLines in Hrun.
    destruct (split LF (trim content)) as [|l ls]; [contradiction|].
    destruct (exec _ (choices rs)) as [p|]; [|discriminate].
    destruct (finished p); [|discriminate].
    destruct (unlinkOk rs); [|discriminate].
    injection Hrun as <-. reflexivity.
  - injection Hrun as <-. exact Hl.
Qed.

(** Claim C2, on the failing input.  The ledger holds the one record
    [google,1,0,0,ru]; its fetch fails again during the retry pass; the
    pass returns, and the ledger file is gone, where the claim has it hold
    that record. *)
Lemma retry_drops_failed_record :
  exists st',
    processFailedTiles google 6 (oneFailure, []) failsAgain
    = Some (Normal, st')
    /\ ledgerLines (default "" (ledger oneFailure)) = ["google,1,0,0,ru"]
    /\ outcomes st'.2 = [Failed]
    /\ ledger st'.1 = None.
Proof.
  eexists. split; [vm_compute; reflexivity|].
  repeat split; vm_compute; reflexivity.
Qed.


Lemma retryLoop_first_remaining w lines answers remaining r w' remaining' :
  retryLoop_first w lines answers remaining = Some (r, w', remaining') ->
  remaining' = remaining.
Proof.
  revert w answers remaining.
  induction lines as [|line rest IH]; intros w answers remaining He;
    simpl in He.
  - now injection He as _ _ <-.
  - destruct (supported_first _); [|now injection He as _ _ <-].
    destruct answers as [|a answers]; [discriminate|].
    destruct (saveTile_first _ _ _ _ _ _ _) as [w1 threw] eqn:Hs.
    assert (threw = false) as ->.
    { unfold saveTile_first in Hs.
      destruct a.1; [|destruct a.2 as [| |[k|]]]; now injection Hs as _ <-. }
    eapply IH; eauto.
Qed.

(** The first retry loop, too, forgets what failed again: when it
    returns, the ledger is empty. *)
Lemma retryFailedTiles_empties w answers w' :
  retryFailedTiles w answers = Some (Normal, w') ->
  ledger w <> None -> ledger w' = Some "".
Proof.
  unfold retryFailedTiles. intros He Hl.
  destruct (ledger w) as [content|]; [|contradiction].
  destruct (retryLoop_first _ _ _ _) as [[[[|e] w1] remaining]|] eqn:Hloop;
    try discriminate.
  apply retryLoop_first_remaining in Hloop as ->.
  now injection He as <-.
Qed.

(** The same input for the first retry loop: the ledger ends empty. *)
Lemma retryFailedTiles_drops_failed_record :
  exists w',
    retryFailedTiles oneFailure_first [(FetchFail, DiskOk)] = Some (Normal, w')
    /\ ledger w' = Some "".
Proof. eexists. split; vm_compute; reflexivity. Qed.

(** ** Reading printed numbers back *)

Lemma parseDigits_uint_acc d p :
  parseDigits 10 (NilEmpty.string_of_uint d) (Some (Zpos p))
  = Some (Zpos (Pos.of_uint_acc d p)).
Proof.
  revert p. induction d; intros p; cbn [NilEmpty.string_of_uint parseDigits];
    [reflexivity|..];
    match goal with
    | |- context [digitValue 10 ?c] =>
        let v := eval vm_compute in (digitValue 10 c) in
        change (digitValue 10 c) with v; cbv iota beta
    end;
    cbn [default Pos.of_uint_acc];
    match goal with
    | |- parseDigits _ _ (Some ?a) = Some (Zpos (Pos.of_uint_acc _ ?q)) =>
        replace a with (Zpos q) by (unfold id; lia)
    end; apply IHd.
Qed.

Lemma parseDigits_uint d :
  parseDigits 10 (NilEmpty.string_of_uint d) (Some 0)
  = Some (Z.of_N (Pos.of_uint d)).
Proof.
  induction d; cbn [NilEmpty.string_of_uint parseDigits];
    [reflexivity|..];
    match goal with
    | |- context [digitValue 10 ?c] =>
        let v := eval vm_compute in (digitValue 10 c) in
        change (digitValue 10 c) with v; cbv iota beta
    end;
    cbn [default Pos.of_uint]; unfold id; [exact IHd|..];
    match goal with
    | |- parseDigits _ _ (Some ?a) = _ =>
        let v := eval vm_compute in a in change a with v
    end; rewrite parseDigits_uint_acc; reflexivity.
Qed.

Lemma parseUnsigned_uint d :
  d <> Decimal.Nil ->
  parseUnsigned (NilEmpty.string_of_uint d) = Some (Z.of_N (Pos.of_uint d)).
Proof.
  intros Hd. rewrite <- parseDigits_uint.
  destruct d as [|l|l|l|l|l|l|l|l|l|l]; [contradiction|..]; try reflexivity.
  destruct l; reflexivity.
Qed.

Lemma trimStart_uint d :
  trimStart (NilEmpty.string_of_uint d) = NilEmpty.string_of_uint d.
Proof. destruct d; reflexivity. Qed.

Lemma parseInt_pos p : parseInt (numberToString (Zpos p)) = Some (Zpos p).
Proof.
  unfold numberToString, parseInt. cbn [Z.to_int NilZero.string_of_int].
  pose proof (DecimalPos.Unsigned.to_uint_nonnil p) as Hn.
  pose proof (DecimalPos.Unsigned.of_to p) as Hof.
  assert (Hs : NilZero.string_of_uint (Pos.to_uint p)
               = NilEmpty.string_of_uint (Pos.to_uint p))
    by (destruct (Pos.to_uint p); [contradiction|reflexivity..]).
  rewrite Hs, trimStart_uint.
  transitivity (parseUnsigned (NilEmpty.string_of_uint (Pos.to_uint p))).
  - destruct (Pos.to_uint p); reflexivity.
  - rewrite parseUnsigned_uint by assumption. now rewrite Hof.
Qed.

Lemma parseInt_numberToString n : parseInt (numberToString n) = Some n.
Proof.
  destruct n as [|p|p]; [reflexivity|apply parseInt_pos|].
  unfold numberToString, parseInt. cbn [Z.to_int NilZero.string_of_int].
  cbn [trimStart]. change (isSpace "-") with false. cbv iota.
  pose proof (DecimalPos.Unsigned.to_uint_nonnil p) as Hn.
  pose proof (DecimalPos.Unsigned.of_to p) as Hof.
  assert (Hs : NilZero.string_of_uint (Pos.to_uint p)
               = NilEmpty.string_of_uint (Pos.to_uint p))
    by (destruct (Pos.to_uint p); [contradiction|reflexivity..]).
  rewrite Hs, parseUnsigned_uint by assumption. now rewrite Hof.
Qed.

(** ** Trimming and splitting a ledger *)

Lemma trimEnd_cons c (s : string) :
  trimEnd (String c s)
  = match trimEnd s with
    | EmptyString => if isSpace c then EmptyString else String c EmptyString
    | r => String c r
    end.
Proof. reflexivity. Qed.

Lemma trimEnd_keep (a b : string) :
  trimEnd b <> "" -> trimEnd (a +:+ b) = a +:+ trimEnd b.
Proof.
  intros Hb. induction a as [|c a IH]; [reflexivity|].
  rewrite !append_cons, trimEnd_cons, IH.
  destruct (a +:+ trimEnd b) eqn:Hab; [|reflexivity].
  destruct a; [|discriminate]. rewrite append_empty_l in Hab. contradiction.
Qed.

Lemma trimEnd_drop (a b : string) :
  trimEnd b = "" -> trimEnd (a +:+ b) = trimEnd a.
Proof.
  intros Hb. induction a as [|c a IH]; [exact Hb|].
  rewrite append_cons, !trimEnd_cons, IH. reflexivity.
Qed.

Lemma trimEnd_comma (s : string) : trimEnd ("," +:+ s) = "," +:+ trimEnd s.
Proof.
  rewrite append_cons, append_empty_l, trimEnd_cons.
  destruct (trimEnd s); reflexivity.
Qed.

Lemma contains_trimEnd c (s : string) :
  contains c s = false -> contains c (trimEnd s) = false.
Proof.
  induction s as [|d s IH]; [reflexivity|]. intros Hc.
  simpl in Hc. apply orb_false_iff in Hc as [Hd Hs].
  rewrite trimEnd_cons. specialize (IH Hs).
  destruct (trimEnd s) eqn:Ht.
  - destruct (isSpace d); simpl; [reflexivity|]. now rewrite Hd.
  - cbn [contains]. rewrite Hd. exact IH.
Qed.

Lemma split_newline (a rest : string) :
  contains LF a = false ->
  split LF (a +:+ newline +:+ rest) = a :: split LF rest.
Proof. exact (split_cons_sep LF a rest). Qed.

(** The content of a file to which the lines were appended one by one. *)
Lemma ledgerAfter_cons l line lines :
  ledgerAfter l (line :: lines)
  = Some (default "" l +:+ fold_right String.app "" (line :: lines)).
Proof.
  unfold ledgerAfter. revert l line.
  induction lines as [|m lines IH]; intros l line.
  - simpl. now rewrite append_empty_r.
  - cbn [fold_left]. cbn [fold_left] in IH. rewrite IH.
    cbn [default fold_right]. unfold id.
    now rewrite !append_assoc.
Qed.

(** Lines without line break, the last one not blank, are read back as
    they were written, the last one without its trailing white space. *)
Lemma ledgerLines_bodies (bodies : list string) (b : string) :
  Forall (fun s => contains LF s = false) bodies ->
  contains LF b = false ->
  trimEnd b <> "" ->
  let content :=
    fold_right String.app "" (map (fun s => s +:+ newline) (bodies ++ [b])) in
  trimStart content = content ->
  ledgerLines content = bodies ++ [trimEnd b].
Proof.
  intros Hbs Hb Hne content Hstart. unfold ledgerLines, trim.
  rewrite Hstart. subst content. clear Hstart.
  induction Hbs as [|s bodies Hs Hbs IH].
  - cbn [app map fold_right]. rewrite append_empty_r.
    rewrite trimEnd_drop by reflexivity.
    rewrite split_single by now apply contains_trimEnd. reflexivity.
  - cbn [app map fold_right]. rewrite append_assoc.
    assert (Hrest : trimEnd (fold_right String.app ""
                               (map (fun s => s +:+ newline) (bodies ++ [b])))
                    <> "").
    { intros He. apply (f_equal (split LF)) in He. rewrite IH in He.
      destruct bodies as [|s0 [|s1 bodies]]; simpl in He;
        [|discriminate..].
      injection He as He. contradiction. }
    rewrite trimEnd_keep.
    + rewrite trimEnd_keep by exact Hrest.
      rewrite split_newline by assumption. now rewrite IH.
    + rewrite trimEnd_keep by exact Hrest. discriminate.
Qed.

(** ** A ledger record read by the retry pass *)

Lemma retryJob_record p n z x y (rest : string) :
  contains COMMA n = false ->
  rest = "" \/ (exists lang, rest = "," +:+ lang) ->
  retryJob p (n +:+ "," +:+ numberToString z +:+ "," +:+ numberToString x
                +:+ "," +:+ numberToString y +:+ rest)
  = {| url := getTileUrl p (Some x) (Some y) (Some z);
       outputDir := tileDir n (Some z) (Some x);
       outputFile := tileFile n (Some z) (Some x) (Some y);
       failedLine := None |}.
Proof.
  intros Hn Hrest.
  assert (Hnum : forall v, contains COMMA (numberToString v) = false)
    by (intros v; apply numberToString_plain; reflexivity).
  unfold retryJob.
  rewrite !split_comma by auto.
  assert (Hy : exists more,
             split COMMA (numberToString y +:+ rest)
             = numberToString y :: more).
  { destruct Hrest as [->|[lang ->]].
    - rewrite append_empty_r, split_single by auto. eauto.
    - rewrite split_comma by auto. eauto. }
  destruct Hy as [more ->]. cbn [nth].
  now rewrite !parseInt_numberToString.
Qed.


(** ** The thunks of a pass *)

Lemma jobsInv_step P p c p' :
  jobsInv P p -> step p c = Some p' -> jobsInv P p'.
Proof.
  intros (Hpend & Hfl & Hset) Hstep. destruct c as [|i net disk ledgerOk].
  - simpl in Hstep.
    apply launch_inv in Hstep as (b & bs & Hp & _ & _ & ->).
    rewrite Hp in Hpend. cbn [concat] in Hpend.
    apply Forall_app in Hpend as [Hb Hbs].
    unfold jobsInv. cbn [pending flight trace].
    rewrite settles_app, settles_startEvents, app_nil_r.
    split; [exact Hbs|]. split; [|exact Hset].
    apply List.Forall_map. eapply List.Forall_impl; [|exact Hb].
    intros j Hj. unfold startThunk. now destruct (saveTile_enter _ j).
  - simpl in Hstep. destruct (flight p !! i) as [s|] eqn:Hi; [|discriminate].
    injection Hstep as <-.
    destruct (resume_trace p (delete i (flight p)) s net disk ledgerOk)
      as (new & Htr & _ & Hnew).
    destruct (resume_pending_flight p (delete i (flight p)) s net disk
                ledgerOk) as (Hp' & Hf' & _).
    unfold jobsInv. rewrite Hp', Hf', Htr, settles_app, Hnew.
    split; [exact Hpend|]. split.
    + now apply Forall_delete.
    + apply Forall_app. split; [exact Hset|].
      apply Forall_cons. split; [|constructor].
      exact (proj1 (Forall_lookup _ _) Hfl i s Hi).
Qed.

Lemma jobsInv_start P jobs c w :
  Forall P jobs -> jobsInv P (startPass jobs c w).
Proof.
  intros Hj. unfold jobsInv, startPass. cbn [pending flight trace].
  rewrite batchLoop_concat. simpl. auto.
Qed.

Lemma failedJobs_app a b : failedJobs (a ++ b) = failedJobs a ++ failedJobs b.
Proof. apply flat_map_app. Qed.

Lemma failedJobs_settles tr j : j ∈ failedJobs tr -> j ∈ settles tr.
Proof.
  induction tr as [|e tr IH]; [easy|].
  unfold failedJobs, settles in *. cbn [flat_map].
  rewrite !elem_of_app. intros [He|Ht]; [left|right; auto].
  destruct e as [| | | | |j0 how]; try easy. destruct how; easy.
Qed.

Lemma failureLines_failedJobs tr :
  failureLines tr
  = flat_map (fun j => match failedLine j with
                       | Some line => [line]
                       | None => []
                       end) (failedJobs tr).
Proof.
  induction tr as [|e tr IH]; [reflexivity|].
  unfold failureLines, failedJobs in *. cbn [flat_map].
  rewrite flat_map_app, IH. f_equal.
  destruct e as [| | | | |j how]; try reflexivity.
  destruct how; try reflexivity. simpl. now rewrite !app_nil_r.
Qed.

(** ** Lifting a property of the passes to the zoom loop *)

Section Lift.
Context `{JsMath}.
Variable R : State -> State -> Prop.
Hypothesis R_refl : forall st, R st st.
Hypothesis R_trans : forall a b c, R a b -> R b c -> R a c.

Lemma zoomLoop_lift provider bounds maxThreads lang :
  (forall z st script r st',
      downloadTilesForZoom provider z bounds maxThreads lang st script
      = Some (r, st') -> R st st') ->
  forall zs st scripts r st',
    zoomLoop provider zs bounds maxThreads lang st scripts = Some (r, st') ->
    R st st'.
Proof.
  intros Hpass zs. induction zs as [|z zs IH]; intros st scripts r st' Hrun.
  - simpl in Hrun. injection Hrun as _ <-. apply R_refl.
  - simpl in Hrun. destruct scripts as [|sc scs]; [discriminate|].
    destruct (downloadTilesForZoom provider z bounds maxThreads lang st sc)
      as [[r1 st1]|] eqn:Hz; [|discriminate].
    pose proof (Hpass _ _ _ _ _ Hz) as H1.
    destruct r1 as [|e].
    + eapply R_trans; [exact H1|]. eapply IH; eauto.
    + injection Hrun as _ <-. exact H1.
Qed.

End Lift.

(** ** From the download pass to the retry pass *)

Lemma downloadTilesForZoom_settles `{JsMath} provider z bounds maxThreads
    lang st script r st' :
  downloadTilesForZoom provider z bounds maxThreads lang st script
  = Some (r, st') ->
  exists tr,
    st'.2 = st.2 ++ tr
    /\ Forall (fun j => j ∈ zoomJobs provider z bounds lang) (settles tr).
Proof.
  unfold downloadTilesForZoom, zoomPass. intros Hrun.
  destruct (exec _ script) as [p|] eqn:He; [|discriminate].
  destruct (quiescent p); [|discriminate].
  injection Hrun as _ <-. exists (trace p). split; [reflexivity|].
  refine (proj2 (proj2 (exec_invariant _ (jobsInv_step _) script _ _
                          (jobsInv_start _ _ maxThreads st.1 _) He))).
  now apply Forall_forall.
Qed.

Lemma zoomLoop_settles `{JsMath} provider zs bounds maxThreads lang st
    scripts r st' :
  zoomLoop provider zs bounds maxThreads lang st scripts = Some (r, st') ->
  exists tr,
    st'.2 = st.2 ++ tr
    /\ Forall (fun j => exists z xy, j = tileJob provider z lang xy)
              (settles tr).
Proof.
  apply (zoomLoop_lift
           (fun a b => exists tr,
                b.2 = a.2 ++ tr
                /\ Forall (fun j => exists z xy, j = tileJob provider z lang xy)
                          (settles tr))).
  - intros a. exists []. now rewrite app_nil_r.
  - intros a b c (t1 & H1 & F1) (t2 & H2 & F2). exists (t1 ++ t2).
    split; [now rewrite H2, H1, app_assoc|].
    rewrite settles_app. now apply Forall_app.
  - intros z a script r0 b Hz.
    destruct (downloadTilesForZoom_settles _ _ _ _ _ _ _ _ _ Hz)
      as (tr & Ht & Hf).
    exists tr. split; [exact Ht|].
    eapply List.Forall_impl; [|exact Hf].
    intros j Hj. unfold zoomJobs in Hj.
    apply list_elem_of_fmap in Hj as (xy & -> & _). eauto.
Qed.

(** The record of a tile as the retry pass meets it: one line of the
    ledger that leads [retryJob] back to the tile, also when it is the last
    line and has lost the white space at its end. *)
Lemma tileJob_record p z lang xy :
  contains LF lang = false ->
  exists body,
    failedLine (tileJob p z lang xy) = Some (body +:+ newline)
    /\ contains LF body = false
    /\ trimEnd body <> ""
    /\ (forall s, trimStart (body +:+ s) = body +:+ s)
    /\ retryJob p body = withoutLine (tileJob p z lang xy)
    /\ retryJob p (trimEnd body) = withoutLine (tileJob p z lang xy).
Proof.
  intros Hl. destruct xy as [x y].
  destruct (name_plain p) as [Hnc Hnl].
  set (front := name p +:+ "," +:+ numberToString z +:+ ","
                  +:+ numberToString x +:+ "," +:+ numberToString y).
  assert (Hbody : front +:+ "," +:+ lang
                  = name p +:+ "," +:+ numberToString z +:+ ","
                      +:+ numberToString x +:+ "," +:+ numberToString y
                      +:+ "," +:+ lang)
    by (unfold front; now rewrite !append_assoc).
  assert (Htrim : trimEnd (front +:+ "," +:+ lang)
                  = name p +:+ "," +:+ numberToString z +:+ ","
                      +:+ numberToString x +:+ "," +:+ numberToString y
                      +:+ "," +:+ trimEnd lang).
  { rewrite trimEnd_keep by (rewrite trimEnd_comma; discriminate).
    rewrite trimEnd_comma. unfold front. now rewrite !append_assoc. }
  exists (front +:+ "," +:+ lang).
  split; [|split; [|split; [|split; [|split]]]].
  - cbn [tileJob failedLine]. unfold failedTileLine.
    rewrite Hbody. now rewrite !append_assoc.
  - rewrite Hbody, !contains_append, Hnl, Hl.
    rewrite !(numberToString_plain LF) by reflexivity. reflexivity.
  - rewrite Htrim. destruct p; discriminate.
  - intros s. rewrite Hbody. destruct p; reflexivity.
  - rewrite Hbody. rewrite retryJob_record by eauto. reflexivity.
  - rewrite Htrim. rewrite retryJob_record by eauto. reflexivity.
Qed.

(** The lines of a ledger that holds the records of the given tiles. *)
Lemma retry_of_records p lang (jobs : list Job) :
  contains LF lang = false ->
  Forall (fun j => exists z xy, j = tileJob p z lang xy) jobs ->
  match ledgerAfter None
          (flat_map (fun j => match failedLine j with
                              | Some line => [line]
                              | None => []
                              end) jobs) with
  | None => jobs = []
  | Some content =>
      map (retryJob p) (ledgerLines content) = map withoutLine jobs
  end.
Proof.
  intros Hl Hjobs.
  assert (Hb : exists bodies,
             Forall2 (fun j body =>
                        failedLine j = Some (body +:+ newline)
                        /\ contains LF body = false
                        /\ trimEnd body <> ""
                        /\ (forall s, trimStart (body +:+ s) = body +:+ s)
                        /\ retryJob p body = withoutLine j
                        /\ retryJob p (trimEnd body) = withoutLine j)
                     jobs bodies).
  { induction Hjobs as [|j jobs (z & xy & ->) _ (bodies & IH)].
    - exists []. constructor.
    - destruct (tileJob_record p z lang xy Hl) as (body & Hbody).
      exists (body :: bodies). now constructor. }
  destruct Hb as (bodies & Hb). clear Hjobs.
  assert (Hlines : flat_map (fun j => match failedLine j with
                                      | Some line => [line]
                                      | None => []
                                      end) jobs
                   = map (fun s => s +:+ newline) bodies).
  { induction Hb as [|j body jobs bodies (Hline & _) _ IH]; [reflexivity|].
    cbn [flat_map map]. rewrite Hline, IH. reflexivity. }
  rewrite Hlines. clear Hlines.
  destruct (decide (bodies = [])) as [->|Hne].
  - apply Forall2_nil_inv_r in Hb as ->. reflexivity.
  - destruct (exists_last Hne) as (init & b & ->).
    apply Forall2_app_inv_r in Hb as (jinit & jlast & Hinit & Hlast & ->).
    apply Forall2_cons_inv_r in Hlast
      as (j & rest & (_ & Hlf & Hte & Hsb & _ & Hretry) & Hnil & ->).
    apply Forall2_nil_inv_r in Hnil as ->.
    destruct (map (fun s => s +:+ newline) (init ++ [b])) as [|l ls] eqn:Hm;
      [now destruct init|].
    rewrite ledgerAfter_cons, <- Hm. cbn [default]. rewrite append_empty_l.
    rewrite ledgerLines_bodies.
    + rewrite !map_app. cbn [map]. rewrite Hretry. f_equal.
      clear -Hinit.
      induction Hinit as [|j0 b0 js bs (_ & _ & _ & _ & Hr & _) _ IH];
        [reflexivity|].
      cbn [map]. now rewrite Hr, IH.
    + clear -Hinit. induction Hinit as [|j0 b0 js bs (_ & Hc & _) _ IH];
        constructor; auto.
    + exact Hlf.
    + exact Hte.
    + destruct Hinit as [|j0 b0 js bs (_ & _ & _ & Hs & _) _].
      * cbn [app map fold_right]. rewrite append_assoc. apply Hsb.
      * cbn [app map fold_right]. rewrite append_assoc. apply Hs.
Qed.

Lemma processFailedTiles_starts provider maxThreads st rs st' :
  processFailedTiles provider maxThreads st rs = Some (Normal, st') ->
  exists tr,
    st'.2 = st.2 ++ tr
    /\ starts tr = match ledger st.1 with
                   | None => []
                   | Some content =>
                       map (retryJob provider) (ledgerLines content)
                   end.
Proof.
  unfold processFailedTiles. intros Hrun.
  destruct (ledger st.1) as [content|].
  - destruct (readOk rs); simpl in Hrun; [|discriminate].
    set (jobs := map (retryJob provider) (ledgerLines content)).
    destruct (ledgerLines content) as [|l ls] eqn:Hlines.
    { now destruct (split_nonempty LF (trim content)). }
    fold jobs in Hrun.
    destruct (exec _ (choices rs)) as [p|] eqn:He; [|discriminate].
    destruct (finished p) eqn:Hf; [|discriminate].
    destruct (unlinkOk rs); [|discriminate].
    injection Hrun as <-. exists (trace p). split; [reflexivity|].
    apply finished_inv in Hf as [Hp _].
    destruct (exec_invariant _ (passInv_step (batchLoop maxThreads jobs []))
                _ _ _ (passInv_start jobs maxThreads st.1) He)
      as (launched & Hbs & Hst & _ & _).
    rewrite Hst. rewrite Hp, app_nil_r in Hbs. rewrite <- Hbs.
    apply batchLoop_concat.
  - injection Hrun as <-. exists []. now rewrite app_nil_r.
Qed.

(** Property X1. The retry pass that follows the zoom loop attempts the
    tiles that failed in the loop, and no other: when the loop started
    without a ledger, its ledger appends succeeded and the locale holds no
    line break, the thunks a returning [processFailedTiles] starts are the
    calls of [saveTile] that failed, same URL and same tile path, in the
    order in which they failed. *)
Theorem retry_repeats_failures `{JsMath} (provider : TileProvider)
    (zs : list Z) (bounds : option Bounds) (maxThreads : Z) (lang : string)
    (st st1 st2 : State) (scripts : list (list Choice)) (r : Returned)
    (rs : RetryScript) :
  contains LF lang = false ->
  ledger st.1 = None ->
  zoomLoop provider zs bounds maxThreads lang st scripts = Some (r, st1) ->
  forallb (forallb ledgerFine) scripts = true ->
  processFailedTiles provider maxThreads st1 rs = Some (Normal, st2) ->
  exists tr1 tr2,
    st1.2 = st.2 ++ tr1
    /\ st2.2 = st1.2 ++ tr2
    /\ starts tr2 = map withoutLine (failedJobs tr1).
Proof.
  intros Hlang Hnone Hloop Hfine Hretry.
  destruct (zoomLoop_fine _ _ _ _ _ _ _ _ _ Hloop Hfine)
    as (_ & tr1 & Ht1 & _ & Hledger).
  destruct (zoomLoop_settles _ _ _ _ _ _ _ _ _ Hloop) as (tr1' & Ht1' & Hset).
  assert (tr1' = tr1) as -> by (rewrite Ht1 in Ht1'; eapply app_inv_head; eauto).
  destruct (processFailedTiles_starts _ _ _ _ _ Hretry) as (tr2 & Ht2 & Hst).
  exists tr1, tr2. split; [exact Ht1|]. split; [exact Ht2|].
  rewrite Hst, Hledger, Hnone, failureLines_failedJobs.
  assert (Htiles : Forall (fun j => exists z xy, j = tileJob provider z lang xy)
                          (failedJobs tr1)).
  { apply Forall_forall. intros j Hj. apply failedJobs_settles in Hj.
    exact (proj1 (Forall_forall _ _) Hset j Hj). }
  pose proof (retry_of_records provider lang _ Hlang Htiles) as Hrec.
  destruct (ledgerAfter None _) as [content|]; [exact Hrec|].
  now rewrite Hrec.
Qed.

(** The run [mixedRun] of zoom 1, in which two tiles fail, followed by the
    retry pass: it starts these two tiles. *)
Lemma retry_repeats_failures_witness :
  exists r st1 st2,
    @zoomLoop exampleMath google [1] None 3 "ru" (emptyWorld, []) [mixedRun]
    = Some (r, st1)
    /\ processFailedTiles google 3 st1 retryTwo = Some (Normal, st2)
    /\ exists tr1 tr2,
         st1.2 = [] ++ tr1
         /\ st2.2 = st1.2 ++ tr2
         /\ starts tr2 = map withoutLine (failedJobs tr1).
Proof.
  eexists. eexists. eexists.
  split; [vm_compute; reflexivity|].
  split; [vm_compute; reflexivity|].
  eapply (@retry_repeats_failures exampleMath google [1] None 3 "ru"
            (emptyWorld, []) _ _ [mixedRun] _ retryTwo).
  - reflexivity.
  - reflexivity.
  - vm_compute. reflexivity.
  - reflexivity.
  - vm_compute. reflexivity.
Defined.

(** Property X2. A ledger line [n,z,x,y,lang] or [n,z,x,y] whose first
    field holds no comma and whose numbers are below [2^53] in magnitude
    (the integers a JavaScript number holds exactly, which [parseInt]
    returns as printed) is read back as the tile [(x, y)] of zoom [z]. The
    retry pass requests the tile from the provider of the current run and
    stores it under the provider name [n] of the line; the locale of the
    line is not used. *)
Theorem retry_reads_record (p : TileProvider) (n : string) (z x y : Z)
    (lang : string) :
  contains COMMA n = false ->
  Z.abs z < 2 ^ 53 -> Z.abs x < 2 ^ 53 -> Z.abs y < 2 ^ 53 ->
  let found := {| url := getTileUrl p (Some x) (Some y) (Some z);
                  outputDir := tileDir n (Some z) (Some x);
                  outputFile := tileFile n (Some z) (Some x) (Some y);
                  failedLine := None |} in
  retryJob p (n +:+ "," +:+ numberToString z +:+ "," +:+ numberToString x
                +:+ "," +:+ numberToString y +:+ "," +:+ lang) = found
  /\ retryJob p (n +:+ "," +:+ numberToString z +:+ "," +:+ numberToString x
                   +:+ "," +:+ numberToString y) = found.
Proof.
  intros Hn _ _ _ found. split.
  - apply retryJob_record; eauto.
  - rewrite <- (append_empty_r (numberToString y)).
    apply retryJob_record; eauto.
Qed.

(** A record of provider google read in a run with provider yandex: the
    URL is the one of yandex, the path lies under [tiles/google]. *)
Lemma retry_reads_record_witness :
  let found := {| url := getTileUrl (YandexTileProvider "&lang=ru")
                           (Some 5) (Some 9) (Some 4);
                  outputDir := tileDir "google" (Some 4) (Some 5);
                  outputFile := tileFile "google" (Some 4) (Some 5) (Some 9);
                  failedLine := None |} in
  retryJob (YandexTileProvider "&lang=ru") "google,4,5,9,ru" = found
  /\ retryJob (YandexTileProvider "&lang=ru") "google,4,5,9" = found.
Proof.
  apply (retry_reads_record (YandexTileProvider "&lang=ru") "google" 4 5 9
           "ru" eq_refl); reflexivity.
Defined.


(** ** Every tile is stored or recorded *)

Lemma existsSync_writeFileSync f p c q :
  existsSync f q = true -> existsSync (writeFileSync f p c) q = true.
Proof.
  unfold existsSync, writeFileSync. cbn [files dirs].
  intros [H|H]%orb_true_iff; apply orb_true_iff; [left|now right].
  apply bool_decide_eq_true. apply bool_decide_eq_true in H.
  now apply lookup_insert_is_Some'.
Qed.

Lemma existsSync_mkdirSync f d q :
  existsSync f q = true -> existsSync (mkdirSync f d) q = true.
Proof.
  unfold existsSync, mkdirSync. cbn [files dirs].
  intros [H|H]%orb_true_iff; apply orb_true_iff; [now left|right].
  apply bool_decide_eq_true. apply bool_decide_eq_true in H.
  apply elem_of_union. now left.
Qed.

Lemma existsSync_saveTile_resume f j net disk q :
  existsSync f q = true ->
  existsSync (saveTile_resume f j net disk).1.1 q = true.
Proof.
  intros Hq. unfold saveTile_resume.
  destruct net as [|data]; [|destruct disk as [| |[k|]]]; cbn [fst snd];
    auto using existsSync_writeFileSync, existsSync_mkdirSync.
Qed.

Lemma saveTile_resume_saved f j net disk :
  (saveTile_resume f j net disk).2 = true ->
  existsSync (saveTile_resume f j net disk).1.1 (outputFile j) = true.
Proof.
  unfold saveTile_resume.
  destruct net as [|data]; [|destruct disk as [| |[k|]]]; cbn [fst snd];
    try discriminate.
  intros _. eapply existsSync_file. apply lookup_insert_eq.
Qed.

(** The world and the one settle event a settling thunk leaves. *)
Lemma resume_settle p rest s net disk ledgerOk :
  let p' := resume p rest s net disk ledgerOk in
  fs (world p') = match s with
                  | Existing _ => fs (world p)
                  | Fetching j => (saveTile_resume (fs (world p)) j net disk).1.1
                  end
  /\ exists new,
       trace p' = trace p ++ new
       /\ forall j how, EvSettle j how ∈ new ->
            j = slotJob s
            /\ how = settledAs (fs (world p)) s net disk ledgerOk.
Proof.
  unfold settledAs.
  resume_cases s net disk ledgerOk; cbn [fst snd]; rewrite ?Hline;
    (split; [reflexivity|]); eexists; (split; [reflexivity|]);
    intros j0 how Hin;
    repeat (apply elem_of_cons in Hin as [Hin|Hin];
            [try discriminate; injection Hin as -> ->; auto|]);
    try (apply elem_of_app in Hin as [Hin|Hin]);
    repeat (apply elem_of_cons in Hin as [Hin|Hin];
            [try discriminate; injection Hin as -> ->; auto|]);
    try now apply elem_of_nil in Hin.
Qed.

Lemma startEvents_no_settle f b j how :
  EvSettle j how ∈ flat_map (startEvents f) b -> False.
Proof.
  induction b as [|j0 b IH]; [now intros ?%elem_of_nil|].
  cbn [flat_map]. rewrite elem_of_app. intros [Hin|Hin]; [|auto].
  unfold startEvents in Hin. destruct (saveTile_enter f j0);
    repeat (apply elem_of_cons in Hin as [Hin|Hin]; [discriminate|]);
    now apply elem_of_nil in Hin.
Qed.

Lemma doneInv_step p c p' : doneInv p -> step p c = Some p' -> doneInv p'.
Proof.
  intros [Hex Hdone] Hstep. destruct c as [|i net disk ledgerOk].
  - simpl in Hstep.
    apply launch_inv in Hstep as (b & bs & _ & _ & Hr & ->).
    split; cbn [flight world trace rejected].
    + intros j [j0 [Hj _]]%list_elem_of_fmap.
      unfold startThunk in Hj.
      destruct (saveTile_enter (fs (world p)) j0) eqn:He; [|discriminate].
      injection Hj as ->. exact He.
    + intros j how [Hin|Hin]%elem_of_app.
      * specialize (Hdone j how Hin). now rewrite Hr in Hdone.
      * now apply startEvents_no_settle in Hin.
  - simpl in Hstep. destruct (flight p !! i) as [s|] eqn:Hi; [|discriminate].
    injection Hstep as <-.
    set (p' := resume p (delete i (flight p)) s net disk ledgerOk).
    destruct (resume_settle p (delete i (flight p)) s net disk ledgerOk)
      as (Hfs & new & Htr & Hnew). fold p' in Hfs, Htr.
    destruct (resume_pending_flight p (delete i (flight p)) s net disk
                ledgerOk) as (_ & Hfl & _). fold p' in Hfl.
    pose proof (resume_rejected p (delete i (flight p)) s net disk ledgerOk)
      as Hrej. fold p' in Hrej.
    assert (Hmono : forall q, existsSync (fs (world p)) q = true ->
                              existsSync (fs (world p')) q = true).
    { intros q Hq. rewrite Hfs. destruct s; [exact Hq|].
      now apply existsSync_saveTile_resume. }
    split.
    + intros j Hj. rewrite Hfl in Hj. apply Hmono, Hex.
      eapply list_elem_of_delete_inv; eauto.
    + intros j how. rewrite Htr. intros [Hin|Hin]%elem_of_app.
      * specialize (Hdone j how Hin).
        destruct how; auto. rewrite Hrej, Hdone. reflexivity.
      * destruct (Hnew j how Hin) as [-> ->].
        unfold settledAs. destruct s as [j|j]; cbn [slotJob].
        -- apply Hmono, Hex. eapply list_elem_of_lookup_2; eauto.
        -- destruct (saveTile_resume (fs (world p)) j net disk).2 eqn:Hok.
           ++ rewrite Hfs. now apply saveTile_resume_saved.
           ++ destruct (failedLine j) eqn:Hl; [destruct ledgerOk|]; auto.
              rewrite Hrej. unfold settledAs. rewrite Hok, Hl.
              apply orb_true_r.
Qed.

Lemma doneInv_start jobs c w : doneInv (startPass jobs c w).
Proof.
  split; cbn [startPass flight trace].
  - now intros j ?%elem_of_nil.
  - now intros j how ?%elem_of_nil.
Qed.

Lemma settles_event tr j :
  j ∈ settles tr -> exists how, EvSettle j how ∈ tr.
Proof.
  induction tr as [|e tr IH]; [now intros ?%elem_of_nil|].
  unfold settles in *. cbn [flat_map]. rewrite elem_of_app.
  intros [He|Ht].
  - destruct e as [| | | | |j0 how]; try now apply elem_of_nil in He.
    apply list_elem_of_singleton in He as ->. exists how. left.
  - destruct (IH Ht) as [how Hin]. exists how. now right.
Qed.

Lemma failedJobs_event tr j : EvSettle j Failed ∈ tr -> j ∈ failedJobs tr.
Proof.
  induction tr as [|e tr IH]; [now intros ?%elem_of_nil|].
  unfold failedJobs in *. cbn [flat_map]. rewrite elem_of_app.
  intros [<-|Hin]%elem_of_cons; [left; left|right; auto].
Qed.

Lemma failureLines_elem tr j line :
  j ∈ failedJobs tr -> failedLine j = Some line -> line ∈ failureLines tr.
Proof.
  intros Hj Hline. rewrite failureLines_failedJobs.
  apply list_elem_of_In, in_flat_map. exists j.
  split; [now apply list_elem_of_In|]. rewrite Hline. now left.
Qed.

(** A pass that has run to its end without throwing: every thunk's tile
    is in the store, or the thunk settled as failed. *)
Lemma pass_accounted jobs c w script p :
  exec (startPass jobs c w) script = Some p ->
  finished p = true -> rejected p = false ->
  forall j, j ∈ jobs ->
    existsSync (fs (world p)) (outputFile j) = true
    \/ j ∈ failedJobs (trace p).
Proof.
  intros He Hf Hr j Hj.
  apply finished_inv in Hf as [Hp Hfl].
  destruct (exec_invariant _ (passInv_step (batchLoop c jobs []))
              script _ _ (passInv_start jobs c w) He)
    as (launched & Hbs & Hst & Hperm & _).
  rewrite Hp, app_nil_r in Hbs. rewrite Hfl in Hperm. simpl in Hperm.
  rewrite app_nil_r in Hperm.
  assert (Hin : j ∈ settles (trace p)).
  { rewrite <- Hperm, Hst, <- Hbs, batchLoop_concat. exact Hj. }
  apply settles_event in Hin as [how Hin].
  destruct (exec_invariant _ doneInv_step script _ _
              (doneInv_start jobs c w) He) as [_ Hdone].
  specialize (Hdone j how Hin).
  destruct how; auto.
  - right. now apply failedJobs_event.
  - congruence.
Qed.

Lemma downloadTilesForZoom_accounted `{JsMath} provider z bounds maxThreads
    lang st script st' :
  downloadTilesForZoom provider z bounds maxThreads lang st script
  = Some (Normal, st') ->
  exists tr,
    st'.2 = st.2 ++ tr
    /\ ledger st'.1 = ledgerAfter (ledger st.1) (failureLines tr)
    /\ forall j, j ∈ zoomJobs provider z bounds lang ->
         existsSync (fs st'.1) (outputFile j) = true \/ j ∈ failedJobs tr.
Proof.
  unfold downloadTilesForZoom, zoomPass. intros Hrun.
  destruct (exec _ script) as [p|] eqn:He; [|discriminate].
  destruct (quiescent p) eqn:Hq; [|discriminate].
  destruct (rejected p) eqn:Hr; [discriminate|].
  injection Hrun as <-. exists (trace p). cbn [fst snd].
  split; [reflexivity|]. split.
  - destruct (exec_invariant _ (ledgerInv_step (ledger st.1))
                script _ _ (ledgerInv_start _ maxThreads st.1) He)
      as [Hl Ha].
    now rewrite Hl, Ha.
  - eapply pass_accounted; eauto. now apply quiescent_fine.
Qed.

Lemma zoomLoop_accounted `{JsMath} provider zs bounds maxThreads lang st
    scripts st' :
  zoomLoop provider zs bounds maxThreads lang st scripts
  = Some (Normal, st') ->
  exists tr,
    st'.2 = st.2 ++ tr
    /\ ledger st'.1 = ledgerAfter (ledger st.1) (failureLines tr)
    /\ forall z j, z ∈ zs -> j ∈ zoomJobs provider z bounds lang ->
         existsSync (fs st'.1) (outputFile j) = true \/ j ∈ failedJobs tr.
Proof.
  revert st scripts. induction zs as [|z zs IH]; intros st scripts Hrun.
  - simpl in Hrun. injection Hrun as <-. exists [].
    rewrite app_nil_r. split; [reflexivity|]. split; [reflexivity|].
    now intros z j ?%elem_of_nil.
  - simpl in Hrun. destruct scripts as [|sc scs]; [discriminate|].
    destruct (downloadTilesForZoom provider z bounds maxThreads lang st sc)
      as [[[|e] st1]|] eqn:Hz; [|discriminate..].
    destruct (downloadTilesForZoom_accounted _ _ _ _ _ _ _ _ Hz)
      as (tr1 & Ht1 & Hl1 & Hacc1).
    destruct (IH _ _ Hrun) as (tr2 & Ht2 & Hl2 & Hacc2).
    destruct (zoomLoop_grows _ _ _ _ _ _ _ _ _ Hrun) as [Hgrow _].
    exists (tr1 ++ tr2).
    split; [now rewrite Ht2, Ht1, app_assoc|]. split.
    + now rewrite failureLines_app, ledgerAfter_app, <- Hl1.
    + intros z0 j [->|Hz0]%elem_of_cons Hj.
      * destruct (Hacc1 j Hj) as [Hex|Hfail].
        -- left. eapply existsSync_grows; eauto.
        -- right. rewrite failedJobs_app, elem_of_app. now left.
      * destruct (Hacc2 z0 j Hz0 Hj) as [Hex|Hfail]; [now left|].
        right. rewrite failedJobs_app, elem_of_app. now right.
Qed.

(** Property X3. When the zoom loop returns, every tile it enumerated is
    accounted for: the tile's file is in the store, or the tile's line has
    been appended to the ledger, which holds what it held before followed
    by the lines of the tiles that failed, in the order in which they
    failed. *)
Theorem every_tile_stored_or_recorded `{JsMath} (provider : TileProvider)
    (zs : list Z) (bounds : option Bounds) (maxThreads : Z) (lang : string)
    (st st' : State) (scripts : list (list Choice)) :
  zoomLoop provider zs bounds maxThreads lang st scripts
  = Some (Normal, st') ->
  exists tr,
    st'.2 = st.2 ++ tr
    /\ ledger st'.1 = ledgerAfter (ledger st.1) (failureLines tr)
    /\ forall z x y,
         z ∈ zs -> (x, y) ∈ enumerate (keepTile bounds z) z ->
         existsSync (fs st'.1)
                    (tileFile (name provider) (Some z) (Some x) (Some y))
         = true
         \/ failedTileLine (name provider) z x y lang ∈ failureLines tr.
Proof.
  intros Hrun.
  destruct (zoomLoop_accounted _ _ _ _ _ _ _ _ Hrun) as (tr & Ht & Hl & Hacc).
  exists tr. split; [exact Ht|]. split; [exact Hl|].
  intros z x y Hz Hxy.
  destruct (Hacc z (tileJob provider z lang (x, y)) Hz) as [Hex|Hfail].
  - unfold zoomJobs. apply list_elem_of_fmap. eauto.
  - now left.
  - right. eapply failureLines_elem; eauto.
Qed.

(** The run [mixedRun] of zoom 1: two tiles are stored, the partly
    written one is there too, and the two that failed are in the ledger. *)
Lemma every_tile_stored_or_recorded_witness :
  exists st',
    @zoomLoop exampleMath google [1] None 3 "ru" (emptyWorld, []) [mixedRun]
    = Some (Normal, st')
    /\ exists tr,
         st'.2 = [] ++ tr
         /\ ledger st'.1 = ledgerAfter None (failureLines tr)
         /\ forall z x y,
              z ∈ [1] ->
              (x, y) ∈ enumerate (@keepTile exampleMath None z) z ->
              existsSync (fs st'.1)
                         (tileFile (name google) (Some z) (Some x) (Some y))
              = true
              \/ failedTileLine (name google) z x y "ru" ∈ failureLines tr.
Proof.
  eexists. split; [vm_compute; reflexivity|].
  eapply (@every_tile_stored_or_recorded exampleMath google [1] None 3 "ru"
            (emptyWorld, []) _ [mixedRun]).
  vm_compute. reflexivity.
Defined.


(** ** The ledger during and after a retry pass *)

Lemma retryJob_noLine provider lines :
  Forall (fun j => failedLine j = None) (map (retryJob provider) lines).
Proof. apply List.Forall_map, Forall_forall. reflexivity. Qed.

Lemma retryInv_step l0 p c p' :
  jobsInv (fun j => failedLine j = None) p -> retryInv l0 p ->
  step p c = Some p' -> retryInv l0 p'.
Proof.
  intros (_ & Hfl & _) (Hl & Hr & Ha) Hstep.
  destruct c as [|i net disk ledgerOk].
  - simpl in Hstep.
    apply launch_inv in Hstep as (b & bs & _ & _ & _ & ->).
    unfold retryInv. cbn [world rejected trace].
    now rewrite appends_app, appends_startEvents, Ha.
  - simpl in Hstep. destruct (flight p !! i) as [s|] eqn:Hi; [|discriminate].
    injection Hstep as <-.
    pose proof (proj1 (Forall_lookup _ _) Hfl i s Hi) as Hnone.
    cbn beta in Hnone. unfold retryInv.
    resume_cases s net disk ledgerOk; cbn [slotJob] in Hnone;
      try congruence; cbn [world rejected trace ledger withFs fs];
      rewrite ?appends_app, ?Ha, ?Hr; auto.
Qed.

Lemma retry_exec l0 jobs c w script p :
  Forall (fun j => failedLine j = None) jobs ->
  ledger w = l0 ->
  exec (startPass jobs c w) script = Some p ->
  retryInv l0 p.
Proof.
  intros Hjobs Hl He.
  assert (Hboth : jobsInv (fun j => failedLine j = None) p /\ retryInv l0 p).
  { refine (exec_invariant
              (fun q => jobsInv (fun j => failedLine j = None) q
                        /\ retryInv l0 q) _ script _ _ _ He).
    - intros q c0 q' [Hj Hq] Hs. split.
      + eapply jobsInv_step; eauto.
      + eapply retryInv_step; eauto.
    - split; [now apply jobsInv_start|]. now split. }
  exact (proj2 Hboth).
Qed.


(** ** The whole run *)

Lemma pass_starts jobs c w script p :
  exec (startPass jobs c w) script = Some p ->
  finished p = true -> starts (trace p) = jobs.
Proof.
  intros He Hf. apply finished_inv in Hf as [Hp _].
  destruct (exec_invariant _ (passInv_step (batchLoop c jobs []))
              script _ _ (passInv_start jobs c w) He)
    as (launched & Hbs & Hst & _ & _).
  rewrite Hst. rewrite Hp, app_nil_r in Hbs. rewrite <- Hbs.
  apply batchLoop_concat.
Qed.

Lemma zoomLoop_starts `{JsMath} provider zs bounds maxThreads lang st
    scripts st' :
  zoomLoop provider zs bounds maxThreads lang st scripts
  = Some (Normal, st') ->
  exists tr,
    st'.2 = st.2 ++ tr
    /\ starts tr = flat_map (fun z => zoomJobs provider z bounds lang) zs.
Proof.
  revert st scripts. induction zs as [|z zs IH]; intros st scripts Hrun.
  - simpl in Hrun. injection Hrun as <-. exists []. now rewrite app_nil_r.
  - simpl in Hrun. destruct scripts as [|sc scs]; [discriminate|].
    destruct (downloadTilesForZoom provider z bounds maxThreads lang st sc)
      as [[[|e] st1]|] eqn:Hz; [|discriminate..].
    destruct (IH _ _ Hrun) as (tr2 & Ht2 & Hs2).
    unfold downloadTilesForZoom, zoomPass in Hz.
    destruct (exec _ sc) as [p|] eqn:He; [|discriminate].
    destruct (quiescent p) eqn:Hq; [|discriminate].
    destruct (rejected p) eqn:Hr; [discriminate|].
    injection Hz as <-. cbn [snd] in Ht2.
    exists (trace p ++ tr2). split; [now rewrite Ht2, app_assoc|].
    rewrite starts_app, Hs2. cbn [flat_map]. f_equal.
    eapply pass_starts; eauto. now apply quiescent_fine.
Qed.

(** Property X5. A run of [main] that returns, for a locale without line
    break. It consists of three parts: the retry pass over the ledger found
    at the start, the zoom loop, which starts every enumerated tile of the
    levels [zoomStart] to [zoomEnd] once, and the retry pass over the tiles
    that failed in the zoom loop, each of which is started once more with
    the same URL and path. Whatever these last attempts meet, no ledger
    file is left when [main] returns. *)
Theorem main_attempts `{JsMath} (providerName : string)
    (zoomStart zoomEnd : Z) (bounds : option Bounds) (lang : string)
    (maxThreads : Z) (w : World) (ms : MainScript) (st' : State) :
  contains LF lang = false ->
  main providerName zoomStart zoomEnd bounds lang maxThreads w ms
  = Some (Normal, st') ->
  ledger st'.1 = None
  /\ exists provider tr0 tr1 tr2,
       create providerName (Some lang) = inr provider
       /\ st'.2 = tr0 ++ tr1 ++ tr2
       /\ starts tr0 = match ledger w with
                       | None => []
                       | Some content =>
                           map (retryJob provider) (ledgerLines content)
                       end
       /\ starts tr1
          = flat_map (fun z => zoomJobs provider z bounds lang)
                     (zoomLevels zoomStart zoomEnd)
       /\ starts tr2 = map withoutLine (failedJobs tr1).
Proof.
  intros Hlang. unfold main. intros Hrun.
  destruct (create providerName (Some lang)) as [e|provider];
    [discriminate|].
  destruct (processFailedTiles provider maxThreads (w, []) (retryBefore ms))
    as [[[|e1] st1]|] eqn:H1; [|discriminate..].
  destruct (zoomLoop provider (zoomLevels zoomStart zoomEnd) bounds
              maxThreads lang st1 (zoomScripts ms))
    as [[[|e2] st2]|] eqn:H2; [|discriminate..].
  split; [eapply processFailedTiles_clears; eauto|].
  destruct (processFailedTiles_starts _ _ _ _ _ H1) as (tr0 & Ht0 & Hs0).
  destruct (zoomLoop_starts _ _ _ _ _ _ _ _ H2) as (tr1 & Ht1 & Hs1).
  destruct (zoomLoop_accounted _ _ _ _ _ _ _ _ H2) as (tr1' & Ht1' & Hl1 & _).
  assert (tr1' = tr1) as ->
      by (rewrite Ht1 in Ht1'; eapply app_inv_head; eauto).
  destruct (zoomLoop_settles _ _ _ _ _ _ _ _ _ H2) as (tr1' & Ht1'' & Hset).
  assert (tr1' = tr1) as ->
      by (rewrite Ht1 in Ht1''; eapply app_inv_head; eauto).
  destruct (processFailedTiles_starts _ _ _ _ _ Hrun) as (tr2 & Ht2 & Hs2).
  exists provider, tr0, tr1, tr2.
  split; [reflexivity|].
  split; [rewrite Ht2, Ht1, Ht0; cbn [snd app]; now rewrite <- app_assoc|].
  split; [exact Hs0|]. split; [exact Hs1|].
  rewrite Hs2, Hl1, (processFailedTiles_clears _ _ _ _ _ H1).
  rewrite failureLines_failedJobs.
  assert (Htiles : Forall (fun j => exists z xy, j = tileJob provider z lang xy)
                          (failedJobs tr1)).
  { apply Forall_forall. intros j Hj. apply failedJobs_settles in Hj.
    exact (proj1 (Forall_forall _ _) Hset j Hj). }
  pose proof (retry_of_records provider lang _ Hlang Htiles) as Hrec.
  destruct (ledgerAfter None _) as [content|]; [exact Hrec|].
  now rewrite Hrec.
Qed.


(** The run [mixedMain]: two tiles fail in the zoom loop, both are tried
    again, and no ledger is left. *)
Lemma main_attempts_witness :
  exists st',
    @main exampleMath "google" 1 1 None "ru" 3 emptyWorld mixedMain
    = Some (Normal, st')
    /\ ledger st'.1 = None
    /\ exists provider tr0 tr1 tr2,
         create "google" (Some "ru") = inr provider
         /\ st'.2 = tr0 ++ tr1 ++ tr2
         /\ starts tr0 = []
         /\ starts tr1
            = flat_map (fun z => @zoomJobs exampleMath provider z None "ru")
                       (zoomLevels 1 1)
         /\ starts tr2 = map withoutLine (failedJobs tr1).
Proof.
  eexists. split; [vm_compute; reflexivity|].
  eapply (@main_attempts exampleMath "google" 1 1 None "ru" 3 emptyWorld
            mixedMain).
  - reflexivity.
  - vm_compute. reflexivity.
Defined.

(** ** quadKey as a code of the tile *)

Lemma spec_digits_S n x y :
  spec_digits x y (S n)
  = numberToString (bitDigit x y (Z.of_nat n)) +:+ spec_digits x y n.
Proof. reflexivity. Qed.

Lemma bitDigit_string x y i :
  exists c, numberToString (bitDigit x y i) = String c EmptyString.
Proof.
  unfold bitDigit. destruct (Z.testbit x i), (Z.testbit y i); eexists;
    reflexivity.
Qed.

Lemma bitDigit_inj x y x' y' i :
  numberToString (bitDigit x y i) = numberToString (bitDigit x' y' i) ->
  Z.testbit x i = Z.testbit x' i /\ Z.testbit y i = Z.testbit y' i.
Proof.
  unfold bitDigit.
  destruct (Z.testbit x i), (Z.testbit y i), (Z.testbit x' i),
    (Z.testbit y' i); cbn; intros He; try discriminate; auto.
Qed.

Lemma spec_digits_inj n x y x' y' :
  spec_digits x y n = spec_digits x' y' n ->
  forall i, 0 <= i < Z.of_nat n ->
    Z.testbit x i = Z.testbit x' i /\ Z.testbit y i = Z.testbit y' i.
Proof.
  induction n as [|n IH]; intros He i Hi; [lia|].
  rewrite !spec_digits_S in He.
  destruct (bitDigit_string x y (Z.of_nat n)) as [c Hc].
  destruct (bitDigit_string x' y' (Z.of_nat n)) as [c' Hc'].
  assert (Hhead : numberToString (bitDigit x y (Z.of_nat n))
                  = numberToString (bitDigit x' y' (Z.of_nat n))
                  /\ spec_digits x y n = spec_digits x' y' n).
  { rewrite Hc, Hc' in *. rewrite !append_cons, !append_empty_l in He.
    injection He as -> Ht. auto. }
  destruct Hhead as [Hd Ht].
  destruct (Z.eq_dec i (Z.of_nat n)) as [->|Hne].
  - now apply bitDigit_inj.
  - apply IH; [exact Ht|lia].
Qed.

Lemma low_bits_inj z a b :
  0 <= a < 2 ^ z -> 0 <= b < 2 ^ z ->
  (forall i, 0 <= i < z -> Z.testbit a i = Z.testbit b i) -> a = b.
Proof.
  intros Ha Hb Hbits.
  destruct (Z.lt_ge_cases z 0) as [Hz|Hz].
  { rewrite Z.pow_neg_r in Ha by assumption. lia. }
  apply Z.bits_inj'. intros i Hi.
  destruct (Z.lt_ge_cases i z) as [Hlt|Hge]; [apply Hbits; lia|].
  rewrite <- (Z.mod_small a (2 ^ z)), <- (Z.mod_small b (2 ^ z)) by lia.
  now rewrite !Z.mod_pow2_bits_high by lia.
Qed.

Lemma quadKey_bits (x y z x' y' z' : Z) :
  0 <= z <= 32 -> 0 <= z' <= 32 ->
  quadKey x y z = quadKey x' y' z' ->
  z = z'
  /\ forall i, 0 <= i < z ->
       Z.testbit x i = Z.testbit x' i /\ Z.testbit y i = Z.testbit y' i.
Proof.
  intros Hz Hz' He.
  assert (Hzz : z = z').
  { apply (f_equal String.length) in He. unfold quadKey in He.
    rewrite (proj1 (quadKey_loop_shape _ _ _ _)) in He.
    rewrite (proj1 (quadKey_loop_shape _ _ _ _)) in He.
    simpl in He. lia. }
  subst z'. split; [reflexivity|].
  unfold quadKey in He. rewrite !quadKey_loop_spec in He by lia.
  rewrite !append_empty_l in He.
  intros i Hi. apply (spec_digits_inj _ _ _ _ _ He). lia.
Qed.

(** Property X6. [quadKey] determines the tile: two tiles of the grids of
    zoom levels up to 32 with the same key are the same tile of the same
    level. *)
Theorem quadKey_injective (x y z x' y' z' : Z) :
  0 <= z <= 32 -> 0 <= z' <= 32 ->
  0 <= x < 2 ^ z -> 0 <= y < 2 ^ z ->
  0 <= x' < 2 ^ z' -> 0 <= y' < 2 ^ z' ->
  quadKey x y z = quadKey x' y' z' ->
  z = z' /\ x = x' /\ y = y'.
Proof.
  intros Hz Hz' Hx Hy Hx' Hy' He.
  destruct (quadKey_bits _ _ _ _ _ _ Hz Hz' He) as [<- Hbits].
  split; [reflexivity|].
  split; apply (low_bits_inj z); auto; intros i Hi; apply Hbits; lia.
Qed.

(** The tile (5, 9) of zoom 4, whose key is 2103. *)
Lemma quadKey_injective_witness :
  quadKey 5 9 4 = "2103" /\ 4 = 4 /\ 5 = 5 /\ 9 = 9.
Proof.
  split; [reflexivity|].
  apply (quadKey_injective 5 9 4 5 9 4); [lia..|reflexivity].
Defined.

Lemma spec_digits_parent n x y :
  spec_digits x y (S n)
  = spec_digits (x / 2) (y / 2) n +:+ numberToString (bitDigit x y 0).
Proof.
  induction n as [|n IH].
  - cbn [spec_digits]. now rewrite append_empty_r, append_empty_l.
  - rewrite spec_digits_S, IH, (spec_digits_S n), append_assoc.
    f_equal. f_equal. unfold bitDigit.
    rewrite !Z.div2_bits by lia.
    now replace (Z.succ (Z.of_nat n)) with (Z.of_nat (S n)) by lia.
Qed.

(** Property X7. The key of a tile is the key of its parent tile, the tile
    [(x / 2, y / 2)] of the level above, followed by one digit: the low bit
    of [x] plus twice the low bit of [y]. *)
Theorem quadKey_parent (x y z : Z) :
  0 <= z < 32 ->
  quadKey x y (z + 1)
  = quadKey (x / 2) (y / 2) z +:+ numberToString (x mod 2 + 2 * (y mod 2)).
Proof.
  intros Hz. unfold quadKey.
  replace (Z.to_nat (z + 1)) with (S (Z.to_nat z)) by lia.
  rewrite !quadKey_loop_spec by lia. rewrite !append_empty_l.
  rewrite spec_digits_parent. unfold bitDigit.
  now rewrite !Z.bit0_mod.
Qed.

(** The tile (5, 9) of zoom 4 and its parent (2, 4) of zoom 3. *)
Lemma quadKey_parent_witness :
  quadKey 5 9 (3 + 1)
  = quadKey (5 / 2) (9 / 2) 3 +:+ numberToString (5 mod 2 + 2 * (9 mod 2)).
Proof. apply (quadKey_parent 5 9 3). lia. Defined.

(** ** Tile URLs *)

Lemma append_inj_l (s a b : string) : s +:+ a = s +:+ b -> a = b.
Proof.
  induction s as [|c s IH]; [auto|].
  rewrite !append_cons. intros He. injection He as He. auto.
Qed.

(** Two strings free of [c], each followed by [c], that agree with what
    follows them. *)
Lemma sep_inj (c : ascii) (a a' r r' : string) :
  contains c a = false -> contains c a' = false ->
  a +:+ String c r = a' +:+ String c r' -> a = a' /\ r = r'.
Proof.
  revert a'. induction a as [|d a IH]; intros a' Ha Ha' He.
  - destruct a' as [|d' a'].
    + rewrite !append_empty_l in He. injection He as ->. auto.
    + rewrite append_empty_l, append_cons in He. injection He as <- _.
      simpl in Ha'. now rewrite Ascii.eqb_refl in Ha'.
  - destruct a' as [|d' a'].
    + rewrite append_empty_l, append_cons in He. injection He as -> _.
      simpl in Ha. now rewrite Ascii.eqb_refl in Ha.
    + rewrite !append_cons in He. injection He as -> He.
      simpl in Ha, Ha'.
      apply orb_false_iff in Ha as [_ Ha].
      apply orb_false_iff in Ha' as [_ Ha'].
      destruct (IH a' Ha Ha' He) as [-> ->]. auto.
Qed.

Lemma number_sep_inj (c : ascii) (rest : string) a a' r r' :
  isNumChar c = false ->
  numberToString a +:+ String c rest +:+ r
  = numberToString a' +:+ String c rest +:+ r' ->
  a = a' /\ r = r'.
Proof.
  intros Hc He. rewrite !append_cons in He.
  apply sep_inj in He as [Ha Hr]; try now apply numberToString_plain.
  split; [now apply numberToString_inj|]. now apply append_inj_l in Hr.
Qed.

(** Property X8. Distinct tiles have distinct URLs. For google, yandex and
    osm the URL of a provider determines the integers [x], [y] and [z]; for
    bing it determines the tile among the tiles of the grids of the zoom
    levels up to 32. *)
Theorem getTileUrl_injective (p : TileProvider) (x y z x' y' z' : Z) :
  (p = BingTileProvider ->
   (0 <= z <= 32 /\ 0 <= x < 2 ^ z /\ 0 <= y < 2 ^ z)
   /\ (0 <= z' <= 32 /\ 0 <= x' < 2 ^ z' /\ 0 <= y' < 2 ^ z')) ->
  getTileUrl p (Some x) (Some y) (Some z)
  = getTileUrl p (Some x') (Some y') (Some z') ->
  x = x' /\ y = y' /\ z = z'.
Proof.
  intros Hgrid He. destruct p as [langParam|langParam| |];
    cbn [getTileUrl numToString] in He.
  - apply append_inj_l in He.
    apply (number_sep_inj "&" "y=") in He as [-> He]; [|reflexivity].
    apply (number_sep_inj "&" "z=") in He as [-> He]; [|reflexivity].
    apply append_inj_r, numberToString_inj in He as ->. auto.
  - apply append_inj_l in He.
    apply (number_sep_inj "&" "y=") in He as [-> He]; [|reflexivity].
    apply (number_sep_inj "&" "z=") in He as [-> He]; [|reflexivity].
    apply append_inj_r, numberToString_inj in He as ->. auto.
  - apply append_inj_l in He.
    apply (number_sep_inj "/" "") in He as [-> He]; [|reflexivity].
    apply (number_sep_inj "/" "") in He as [-> He]; [|reflexivity].
    apply append_inj_r, numberToString_inj in He as ->. auto.
  - destruct (Hgrid eq_refl) as [(Hz & Hx & Hy) (Hz' & Hx' & Hy')].
    apply append_inj_l in He. cbn [bingServer numToString quadKeyNum] in He.
    cbn [default] in He. unfold id in He.
    apply (number_sep_inj "." "tiles.virtualearth.net/tiles/a") in He
      as [_ He]; [|reflexivity].
    apply append_inj_r in He.
    destruct (quadKey_bits _ _ _ _ _ _ Hz Hz' He) as [<- Hbits].
    split; [|split; [|reflexivity]];
      apply (low_bits_inj z); auto; intros i Hi; apply Hbits; lia.
Qed.

(** The tile (5, 9) of zoom 4 at bing. *)
Lemma getTileUrl_injective_witness :
  getTileUrl BingTileProvider (Some 5) (Some 9) (Some 4)
  = "https://ecn.t2.tiles.virtualearth.net/tiles/a2103.png?g=1"
  /\ 5 = 5 /\ 9 = 9 /\ 4 = 4.
Proof.
  split; [reflexivity|].
  apply (getTileUrl_injective BingTileProvider 5 9 4 5 9 4);
    [intros _; lia|reflexivity].
Defined.

(** ** Tile paths *)

(** Property X9. Distinct tiles are stored in distinct files: the path
    [saveTile] computes determines the provider name, the zoom level and
    both coordinates. *)
Theorem tileFile_injective (p p' : TileProvider) (z x y z' x' y' : Z) :
  tileFile (name p) (Some z) (Some x) (Some y)
  = tileFile (name p') (Some z') (Some x') (Some y') ->
  name p = name p' /\ z = z' /\ x = x' /\ y = y'.
Proof.
  unfold tileFile, tileDir. cbn [app numToString]. intros He.
  injection He as Hn Hz Hx Hy.
  apply numberToString_inj in Hz, Hx.
  apply append_inj_r, numberToString_inj in Hy. auto.
Qed.

Lemma tileFile_injective_witness :
  tileFile (name google) (Some 4) (Some 5) (Some 9)
  = ["tiles"; "google"; "4"; "5"; "9.png"]
  /\ name google = name google /\ 4 = 4 /\ 5 = 5 /\ 9 = 9.
Proof.
  split; [reflexivity|].
  apply (tileFile_injective google google 4 5 9 4 5 9). reflexivity.
Defined.

(** ** The enumeration *)

Lemma elem_of_range n x : x ∈ range n <-> 0 <= x < n.
Proof.
  unfold range. rewrite list_elem_of_fmap. split.
  - intros (k & -> & Hk). apply list_elem_of_In, in_seq in Hk. lia.
  - intros Hx. exists (Z.to_nat x). split; [lia|].
    apply list_elem_of_In, in_seq. lia.
Qed.

Lemma length_range n : length (range n) = Z.to_nat n.
Proof. unfold range. now rewrite length_map, length_seq. Qed.

Lemma elem_of_enumerate keep z x y :
  (x, y) ∈ enumerate keep z
  <-> 0 <= x < loopBound z /\ 0 <= y < loopBound z /\ keep x y = true.
Proof.
  unfold enumerate. rewrite <- !elem_of_range. split.
  - intros Hin. apply list_elem_of_In, in_flat_map in Hin as (x0 & Hx0 & Hin).
    apply in_flat_map in Hin as (y0 & Hy0 & Hin).
    destruct (keep x0 y0) eqn:Hk; [|contradiction].
    destruct Hin as [Hin|[]]. injection Hin as <- <-.
    rewrite <- !list_elem_of_In in *. auto.
  - intros (Hx & Hy & Hk). apply list_elem_of_In, in_flat_map.
    exists x. split; [now apply list_elem_of_In|].
    apply in_flat_map. exists y. split; [now apply list_elem_of_In|].
    rewrite Hk. now left.
Qed.

Lemma length_flat_map_const {A B} (f : A -> list B) (l : list A) n :
  (forall a, length (f a) = n) -> length (flat_map f l) = (length l * n)%nat.
Proof.
  intros Hf. induction l as [|a l IH]; [reflexivity|].
  cbn [flat_map]. rewrite length_app, Hf, IH. simpl. lia.
Qed.

Lemma sublist_flat_map {A B} (f g : A -> list B) (l : list A) :
  (forall a, f a `sublist_of` g a) ->
  flat_map f l `sublist_of` flat_map g l.
Proof.
  intros Hfg. induction l as [|a l IH]; [constructor|].
  cbn [flat_map]. now apply sublist_app.
Qed.

(** Property X10. The tiles a pass enumerates. For a zoom level [z] from 0
    to 53 these are the tiles of the grid of side [2^z] that the bounding
    box keeps, each of them once; without a box all [4^z] of them. For a
    negative [z] down to -1074 the loops run once, over the tile (0, 0);
    below that [Math.pow(2, z)] is 0 and they enumerate nothing. A box
    removes tiles from the enumeration and leaves the order of the others
    as it is. *)
Theorem enumeration_grid `{JsMath} (bounds : option Bounds) (z : Z) :
  (0 <= z <= 53 ->
   forall x y,
     (x, y) ∈ enumerate (keepTile bounds z) z
     <-> 0 <= x < 2 ^ z /\ 0 <= y < 2 ^ z /\ keepTile bounds z x y = true)
  /\ NoDup (enumerate (keepTile bounds z) z)
  /\ (0 <= z <= 53 ->
      forall provider maxThreads lang st,
        totalTiles (zoomPass provider z None maxThreads lang st)
        = Z.to_nat (4 ^ z))
  /\ (-1074 <= z < 0 -> enumerate (keepTile None z) z = [(0, 0)])
  /\ (z < -1074 -> enumerate (keepTile bounds z) z = [])
  /\ enumerate (keepTile bounds z) z
       `sublist_of` enumerate (keepTile None z) z.
Proof.
  split; [|split; [|split; [|split; [|split]]]].
  - intros Hz x y. rewrite elem_of_enumerate. unfold loopBound.
    destruct (Z.ltb_spec z (-1074)); [lia|].
    destruct (Z.ltb_spec z 0); [lia|reflexivity].
  - apply NoDup_enumerate.
  - intros Hz provider maxThreads lang st.
    unfold zoomPass, startPass, zoomJobs. cbn [totalTiles].
    rewrite length_map. unfold enumerate.
    rewrite (length_flat_map_const _ _ (Z.to_nat (loopBound z))).
    + rewrite length_range. unfold loopBound.
      destruct (Z.ltb_spec z (-1074)); [lia|].
      destruct (Z.ltb_spec z 0); [lia|].
      rewrite <- Z2Nat.inj_mul by (apply Z.pow_nonneg; lia).
      f_equal. change 4 with (2 * 2). now rewrite Z.pow_mul_l.
    + intros x. rewrite (length_flat_map_const _ _ 1%nat).
      * rewrite length_range. lia.
      * reflexivity.
  - intros Hz. unfold enumerate, loopBound.
    destruct (Z.ltb_spec z (-1074)); [lia|].
    destruct (Z.ltb_spec z 0); [reflexivity|lia].
  - intros Hz. unfold enumerate, loopBound.
    destruct (Z.ltb_spec z (-1074)); [reflexivity|lia].
  - unfold enumerate. apply sublist_flat_map. intros x.
    apply sublist_flat_map. intros y.
    destruct (keepTile bounds z x y); [reflexivity|].
    apply sublist_nil_l.
Qed.

(** Zoom level 1 without a box: four tiles; zoom level -2000: none. *)
Lemma enumeration_grid_witness :
  totalTiles (@zoomPass exampleMath google 1 None 6 "ru" (emptyWorld, []))
  = Z.to_nat (4 ^ 1)
  /\ enumerate (@keepTile exampleMath None (-2000)) (-2000) = [].
Proof.
  split.
  - apply (proj1 (proj2 (proj2 (@enumeration_grid exampleMath None 1)))).
    lia.
  - apply (proj1 (proj2 (proj2 (proj2 (proj2
             (@enumeration_grid exampleMath None (-2000))))))).
    lia.
Defined.

(** ** A cap that is not positive *)

Lemma batchLoop_nonpositive {A} (c : Z) (todo buf : list A) :
  c <= 0 ->
  batchLoop c todo buf = match buf ++ todo with [] => [] | l => [l] end.
Proof.
  intros Hc. revert buf. induction todo as [|t rest IH]; intros buf.
  - cbn [batchLoop]. rewrite app_nil_r. now destruct buf.
  - cbn [batchLoop].
    destruct (Z.eqb_spec (Z.of_nat (length (buf ++ [t]))) c) as [He|_].
    + rewrite length_app in He. simpl in He. lia.
    + rewrite IH, <- app_assoc. reflexivity.
Qed.

(** Property X11. With a [maxThreads] that is not positive the test
    [tilePromises.length === maxThreads] never holds: all the thunks of a
    pass are passed to [Promise.all] as one batch after the loops, and the
    first launch starts every one of them. ([main] passes a negative
    command-line value on; only 0 and [NaN] are replaced by 6.) *)
Theorem nonpositive_cap_single_batch (jobs : list Job) (maxThreads : Z)
    (w : World) :
  maxThreads <= 0 -> jobs <> [] ->
  batchLoop maxThreads jobs [] = [jobs]
  /\ exists p',
       launch (startPass jobs maxThreads w) = Some p'
       /\ pending p' = []
       /\ map slotJob (flight p') = jobs
       /\ starts (trace p') = jobs.
Proof.
  intros Hc Hne.
  assert (Hb : batchLoop maxThreads jobs [] = [jobs]).
  { rewrite batchLoop_nonpositive by assumption. simpl.
    now destruct jobs. }
  split; [exact Hb|].
  unfold launch, startPass. cbn [pending flight rejected]. rewrite Hb.
  eexists. split; [reflexivity|]. cbn [pending flight trace world].
  split; [reflexivity|]. split; [apply slotJob_startThunk|].
  apply starts_startEvents.
Qed.

(** The four tiles of zoom 1 with [maxThreads] -1. *)
Lemma nonpositive_cap_single_batch_witness :
  batchLoop (-1) (@zoomJobs exampleMath google 1 None "ru") []
  = [@zoomJobs exampleMath google 1 None "ru"]
  /\ exists p',
       launch (startPass (@zoomJobs exampleMath google 1 None "ru") (-1)
                         emptyWorld) = Some p'
       /\ pending p' = []
       /\ map slotJob (flight p') = @zoomJobs exampleMath google 1 None "ru"
       /\ starts (trace p') = @zoomJobs exampleMath google 1 None "ru".
Proof.
  apply (nonpositive_cap_single_batch
           (@zoomJobs exampleMath google 1 None "ru") (-1) emptyWorld).
  - lia.
  - discriminate.
Defined.


(** ** Boxes without points *)

Module FloatOrder.
Import FloatAxioms FloatOps SpecFloat.

Lemma SFleb_nan_r f : SFleb f S754_nan = false.
Proof. destruct f; reflexivity. Qed.

Lemma is_nan_Prim2SF f : is_nan f = true -> Prim2SF f = S754_nan.
Proof.
  unfold is_nan. rewrite eqb_spec. intros Hn.
  destruct (Prim2SF f) as [s|s| |s m e]; try reflexivity; exfalso;
    unfold SFeqb, SFcompare in Hn.
  - discriminate.
  - destruct s; discriminate.
  - rewrite Z.compare_refl in Hn.
    change (PosDef.Pos.compare_cont Eq m m) with (Pos.compare m m) in Hn.
    rewrite Pos.compare_refl in Hn. destruct s; discriminate.
Qed.

Ltac cmp_cases :=
  repeat match goal with
         | H : context [PosDef.Pos.compare_cont Eq ?a ?b] |- _ =>
             change (PosDef.Pos.compare_cont Eq a b) with (Pos.compare a b) in H
         | |- context [PosDef.Pos.compare_cont Eq ?a ?b] =>
             change (PosDef.Pos.compare_cont Eq a b) with (Pos.compare a b)
         end;
  repeat match goal with
         | H : context [Z.compare ?a ?b] |- _ =>
             destruct (Z.compare_spec a b)
         | |- context [Z.compare ?a ?b] =>
             destruct (Z.compare_spec a b)
         | H : context [Pos.compare ?a ?b] |- _ =>
             destruct (Pos.compare_spec a b)
         | |- context [Pos.compare ?a ?b] =>
             destruct (Pos.compare_spec a b)
         end.

Lemma SFleb_trans a b c :
  SFleb a b = true -> SFleb b c = true -> SFleb a c = true.
Proof.
  unfold SFleb, SFcompare.
  destruct a as [sa|sa| |sa ma ea], b as [sb|sb| |sb mb eb],
    c as [sc|sc| |sc mc ec];
    try discriminate; try reflexivity;
    try destruct sa; try destruct sb; try destruct sc;
    try discriminate; try reflexivity; intros H1 H2;
    cmp_cases; subst; simpl in *; try discriminate; try reflexivity; try lia.
Qed.

Lemma SFltb_not_leb a b : SFltb a b = true -> SFleb b a = false.
Proof.
  unfold SFltb, SFleb, SFcompare.
  destruct a as [sa|sa| |sa ma ea], b as [sb|sb| |sb mb eb];
    try discriminate; try reflexivity;
    try destruct sa; try destruct sb;
    try discriminate; try reflexivity; intros H1;
    cmp_cases; subst; simpl in *; try discriminate; try reflexivity; try lia.
Qed.

Lemma leb_nan_l (a b : float) : is_nan a = true -> (a <=? b)%float = false.
Proof.
  intros Ha. now rewrite leb_spec, (is_nan_Prim2SF a Ha).
Qed.

Lemma leb_nan_r (a b : float) : is_nan b = true -> (a <=? b)%float = false.
Proof.
  intros Hb. rewrite leb_spec, (is_nan_Prim2SF b Hb). apply SFleb_nan_r.
Qed.

(** No number lies between [lo] and [hi] when [hi < lo]. *)
Lemma leb_between (lo v hi : float) :
  (hi <? lo)%float = true ->
  (lo <=? v)%float && (v <=? hi)%float = false.
Proof.
  rewrite ltb_spec, !leb_spec. intros Hlt.
  apply SFltb_not_leb in Hlt.
  destruct (SFleb (Prim2SF lo) (Prim2SF v)) eqn:H1; [|reflexivity].
  destruct (SFleb (Prim2SF v) (Prim2SF hi)) eqn:H2; [|reflexivity].
  rewrite (SFleb_trans _ _ _ H1 H2) in Hlt. discriminate.
Qed.

End FloatOrder.

Lemma isTileInBounds_emptyBox `{JsMath} (b : Bounds) (x y z : float) :
  emptyBox b = true -> isTileInBounds x y z (Some b) = false.
Proof.
  unfold emptyBox, isTileInBounds. cbv zeta.
  set (lon := (x / Math_pow 2 z * 360.0 - 180.0)%float).
  set (lat := (Math_atan (Math_sinh (Math_PI * (1 - 2 * y / Math_pow 2 z)))
               * 180.0 / Math_PI)%float).
  rewrite !orb_true_iff. intros [[[[[Hs|Hn]|Hw]|He]|Hns]|Hew].
  - now rewrite (FloatOrder.leb_nan_l _ _ Hs).
  - rewrite (FloatOrder.leb_nan_r _ _ Hn). now rewrite andb_false_r.
  - rewrite (FloatOrder.leb_nan_l _ _ Hw). now rewrite andb_false_r.
  - rewrite (FloatOrder.leb_nan_r _ _ He). now rewrite andb_false_r.
  - now rewrite (FloatOrder.leb_between _ lat _ Hns).
  - rewrite <- andb_assoc.
    rewrite (FloatOrder.leb_between _ lon _ Hew). now rewrite andb_false_r.
Qed.

(** Property X12. A box that can hold no point selects no tile: with an
    edge that is [NaN], or with the north edge below the south edge or the
    east edge west of the west edge, [isTileInBounds] is false for every
    tile, the pass enumerates nothing and returns at once, its world
    untouched. *)
Theorem empty_box_selects_nothing `{JsMath} (b : Bounds) :
  emptyBox b = true ->
  (forall x y z, isTileInBounds x y z (Some b) = false)
  /\ (forall provider z lang, zoomJobs provider z (Some b) lang = [])
  /\ (forall provider z maxThreads lang st,
         downloadTilesForZoom provider z (Some b) maxThreads lang st []
         = Some (Normal, st)).
Proof.
  intros Hb.
  assert (Hno : forall x y z, isTileInBounds x y z (Some b) = false)
    by (intros; now apply isTileInBounds_emptyBox).
  assert (Hjobs : forall provider z lang,
             zoomJobs provider z (Some b) lang = []).
  { intros provider z lang. unfold zoomJobs.
    assert (Hkeep : forall x y, keepTile (Some b) z x y = false).
    { intros x y. unfold keepTile. rewrite Hno, orb_false_r.
      rewrite bool_decide_eq_true_2 by eauto. reflexivity. }
    assert (Hrow : forall x (l : list Z),
               flat_map (fun y => if keepTile (Some b) z x y
                                  then [(x, y)] else []) l = []).
    { intros x l. induction l as [|y l IH]; [reflexivity|].
      cbn [flat_map]. now rewrite IH, Hkeep. }
    unfold enumerate.
    induction (range (loopBound z)) as [|x l IH] at 2; [reflexivity|].
    cbn [flat_map]. rewrite Hrow. exact IH. }
  split; [exact Hno|]. split; [exact Hjobs|].
  intros provider z maxThreads lang st.
  unfold downloadTilesForZoom, zoomPass. rewrite Hjobs.
  cbn. rewrite app_nil_r. now destruct st.
Qed.

(** The box [noSouth], which has no south edge. *)
Lemma empty_box_selects_nothing_witness :
  (forall x y z, @isTileInBounds exampleMath x y z (Some noSouth) = false)
  /\ (forall provider z lang,
         @zoomJobs exampleMath provider z (Some noSouth) lang = [])
  /\ (forall provider z maxThreads lang st,
         @downloadTilesForZoom exampleMath provider z (Some noSouth)
           maxThreads lang st [] = Some (Normal, st)).
Proof.
  apply (@empty_box_selects_nothing exampleMath noSouth).
  vm_compute. reflexivity.
Defined.


(** ** The name of a provider *)



(** ** The first version: one run of [downloadZoomRange] *)

Lemma pass_ledger jobs c w script p :
  exec (startPass jobs c w) script = Some p ->
  ledger (world p) = ledgerAfter (ledger w) (failureLines (trace p)).
Proof.
  intros He.
  destruct (exec_invariant _ (ledgerInv_step (ledger w)) script _ _
              (ledgerInv_start jobs c w) He) as [Hl Ha].
  now rewrite Hl, Ha.
Qed.

Lemma downloadTilesParallel_run `{JsMath} provider z bounds maxThreads st
    script r st' :
  downloadTilesParallel provider z bounds maxThreads st script
  = Some (r, st') ->
  exists tr,
    st'.2 = st.2 ++ tr
    /\ ledger st'.1 = ledgerAfter (ledger st.1) (failureLines tr)
    /\ (r = Normal ->
        starts tr = parallelJobs provider z bounds
        /\ forall j, j ∈ parallelJobs provider z bounds ->
             existsSync (fs st'.1) (outputFile j) = true
             \/ j ∈ failedJobs tr).
Proof.
  unfold downloadTilesParallel. intros Hrun.
  destruct (exec _ script) as [p|] eqn:He; [|discriminate].
  destruct (quiescent p) eqn:Hq; [|discriminate].
  injection Hrun as <- <-. exists (trace p). cbn [fst snd].
  split; [reflexivity|]. split; [eapply pass_ledger; eauto|].
  destruct (rejected p) eqn:Hr; [discriminate|]. intros _.
  apply quiescent_fine in Hq; [|exact Hr]. split.
  - eapply pass_starts; eauto.
  - eapply pass_accounted; eauto.
Qed.

Lemma pass_grows jobs c w script p :
  exec (startPass jobs c w) script = Some p ->
  storeGrows (fs w) (fs (world p)).
Proof.
  intros He.
  exact (proj1 (exec_invariant _ (growInv_step (fs w)) script _ _
                  (growInv_start jobs c w) He)).
Qed.

Lemma downloadTilesParallel_grows `{JsMath} provider z bounds maxThreads st
    script r st' :
  downloadTilesParallel provider z bounds maxThreads st script
  = Some (r, st') ->
  storeGrows (fs st.1) (fs st'.1).
Proof.
  unfold downloadTilesParallel. intros Hrun.
  destruct (exec _ script) as [p|] eqn:He; [|discriminate].
  destruct (quiescent p); [|discriminate].
  injection Hrun as _ <-. eapply pass_grows; eauto.
Qed.

Lemma rangeLoop_grows `{JsMath} provider zs bounds lang maxThreads st
    scripts r st' :
  rangeLoop provider zs bounds lang maxThreads st scripts = Some (r, st') ->
  storeGrows (fs st.1) (fs st'.1).
Proof.
  revert st scripts. induction zs as [|z zs IH]; intros st scripts Hrun.
  - simpl in Hrun. injection Hrun as _ <-. apply storeGrows_refl.
  - cbn [rangeLoop] in Hrun.
    destruct (create provider (Some lang)) as [e|p];
      [injection Hrun as _ <-; apply storeGrows_refl|].
    destruct scripts as [|sc scs]; [discriminate|].
    destruct (downloadTilesParallel p z bounds maxThreads st sc)
      as [[r1 st1]|] eqn:Hz; [|discriminate].
    pose proof (downloadTilesParallel_grows _ _ _ _ _ _ _ _ Hz) as Hg.
    destruct r1 as [|e]; [|injection Hrun as _ <-; exact Hg].
    eapply storeGrows_trans; [exact Hg|]. eapply IH; eauto.
Qed.

Lemma rangeLoop_run `{JsMath} provider p zs bounds lang maxThreads st scripts
    r st' :
  create provider (Some lang) = inr p ->
  rangeLoop provider zs bounds lang maxThreads st scripts = Some (r, st') ->
  exists tr,
    st'.2 = st.2 ++ tr
    /\ ledger st'.1 = ledgerAfter (ledger st.1) (failureLines tr)
    /\ (r = Normal ->
        starts tr = flat_map (fun z => parallelJobs p z bounds) zs
        /\ forall z j, z ∈ zs -> j ∈ parallelJobs p z bounds ->
             existsSync (fs st'.1) (outputFile j) = true
             \/ j ∈ failedJobs tr).
Proof.
  intros Hc. revert st scripts.
  induction zs as [|z zs IH]; intros st scripts Hrun.
  - simpl in Hrun. injection Hrun as <- <-. exists [].
    rewrite app_nil_r. split; [reflexivity|]. split; [reflexivity|].
    intros _. split; [reflexivity|]. now intros z j ?%elem_of_nil.
  - cbn [rangeLoop] in Hrun. rewrite Hc in Hrun.
    destruct scripts as [|sc scs]; [discriminate|].
    destruct (downloadTilesParallel p z bounds maxThreads st sc)
      as [[r1 st1]|] eqn:Hz; [|discriminate].
    destruct (downloadTilesParallel_run _ _ _ _ _ _ _ _ Hz)
      as (tr1 & Ht1 & Hl1 & Hn1).
    destruct r1 as [|e].
    + destruct (IH _ _ Hrun) as (tr2 & Ht2 & Hl2 & Hn2).
      pose proof (rangeLoop_grows _ _ _ _ _ _ _ _ _ Hrun) as Hgrow.
      destruct (Hn1 eq_refl) as [Hs1 Hacc1].
      exists (tr1 ++ tr2). split; [now rewrite Ht2, Ht1, app_assoc|].
      split; [now rewrite failureLines_app, ledgerAfter_app, <- Hl1|].
      intros Hr. destruct (Hn2 Hr) as [Hs2 Hacc2]. split.
      * cbn [flat_map]. now rewrite starts_app, Hs1, Hs2.
      * intros z0 j [->|Hz0]%elem_of_cons Hj.
        -- destruct (Hacc1 j Hj) as [Hex|Hfail].
           ++ left. eapply existsSync_grows; eauto.
           ++ right. rewrite failedJobs_app, elem_of_app. now left.
        -- destruct (Hacc2 z0 j Hz0 Hj) as [Hex|Hfail]; [now left|].
           right. rewrite failedJobs_app, elem_of_app. now right.
    + injection Hrun as <- <-. exists tr1.
      split; [exact Ht1|]. split; [exact Hl1|]. discriminate.
Qed.

(** Property X14. One run of [downloadZoomRange] of the first version. A
    [zoomEnd] that is 0 or [NaN] is replaced by [zoomStart], so that one
    level is downloaded. The provider name is examined only when a level is
    reached: with an unknown name the call throws at the first level,
    before any request, and returns normally when there is no level. With a
    known name every run adds to the ledger the lines of the tiles that
    failed and leaves what the ledger held in place; when it returns it has
    started every enumerated tile of every level once, in order, and every
    one of them is in the store or has its line, without locale, in the
    ledger. *)
Theorem first_version_run `{JsMath} (provider : string)
    (zoomStart zoomEnd : Num) (bounds : option Bounds) (lang : string)
    (maxThreads : Z) (st st' : State) (scripts : list (list Choice))
    (r : Returned) :
  downloadZoomRange provider zoomStart zoomEnd bounds lang maxThreads st
                    scripts = Some (r, st') ->
  let levels := zoomLevelsNum zoomStart (orNum zoomEnd zoomStart) in
  (forall a, zoomStart = Some a -> zoomEnd = None \/ zoomEnd = Some 0 ->
             levels = [a])
  /\ match create provider (Some lang) with
     | inl e =>
         st' = st /\ r = match levels with [] => Normal | _ => Threw e end
     | inr p =>
         exists tr,
           st'.2 = st.2 ++ tr
           /\ ledger st'.1 = ledgerAfter (ledger st.1) (failureLines tr)
           /\ (r = Normal ->
               starts tr = flat_map (fun z => parallelJobs p z bounds) levels
               /\ forall z x y,
                    z ∈ levels ->
                    (x, y) ∈ enumerate (keepTile_unguarded bounds z) z ->
                    existsSync (fs st'.1)
                      (tileFile (name p) (Some z) (Some x) (Some y)) = true
                    \/ failedTileLine_noLang (name p) z x y
                         ∈ failureLines tr)
     end.
Proof.
  intros Hrun levels. unfold downloadZoomRange in Hrun. cbv zeta in Hrun.
  split.
  - intros a -> Hend. subst levels.
    assert (orNum zoomEnd (Some a) = Some a) as ->
        by (destruct Hend as [->| ->]; reflexivity).
    cbn [zoomLevelsNum]. unfold zoomLevels.
    replace (a - a + 1) with 1 by lia.
    change (Z.to_nat 1) with 1%nat. cbn [seq map Z.of_nat]. f_equal. lia.
  - fold levels in Hrun.
    destruct (create provider (Some lang)) as [e|p] eqn:Hc.
    + destruct levels as [|z zs]; cbn [rangeLoop] in Hrun.
      * now injection Hrun as <- <-.
      * rewrite Hc in Hrun. now injection Hrun as <- <-.
    + destruct (rangeLoop_run _ _ _ _ _ _ _ _ _ _ Hc Hrun)
        as (tr & Ht & Hl & Hn).
      exists tr. split; [exact Ht|]. split; [exact Hl|].
      intros Hr. destruct (Hn Hr) as [Hs Hacc]. split; [exact Hs|].
      intros z x y Hz Hxy.
      destruct (Hacc z (parallelJob p z (x, y)) Hz) as [Hex|Hfail].
      * unfold parallelJobs. apply list_elem_of_fmap. eauto.
      * now left.
      * right. eapply failureLines_elem; eauto.
Qed.

(** The run [mixedRun] of zoom 1, called with [zoomEnd] 0. *)
Lemma first_version_run_witness :
  exists r st',
    @downloadZoomRange exampleMath "google" (Some 1) (Some 0) None "ru" 3
      (emptyWorld, []) [mixedRun] = Some (r, st')
    /\ zoomLevelsNum (Some 1) (orNum (Some 0) (Some 1)) = [1]
    /\ exists tr,
         st'.2 = [] ++ tr
         /\ ledger st'.1 = ledgerAfter None (failureLines tr).
Proof.
  eexists. eexists. split; [vm_compute; reflexivity|].
  pose proof (@first_version_run exampleMath "google" (Some 1) (Some 0) None
                "ru" 3 (emptyWorld, []) _ [mixedRun] _
                ltac:(vm_compute; reflexivity)) as [Hlev Hrun].
  split; [apply (Hlev 1); auto|].
  change (create "google" (Some "ru")) with (@inr RunError _ google) in Hrun.
  cbv iota in Hrun. destruct Hrun as (tr & Ht & Hl & _). eauto.
Defined.


(** ** Runs from the command line *)

Lemma mainLevels_main `{JsMath} providerName zoomStart zoomEnd bounds lang
    maxThreads w ms :
  mainLevels providerName (zoomLevels zoomStart zoomEnd) bounds lang
             maxThreads w ms
  = main providerName zoomStart zoomEnd bounds lang maxThreads w ms.
Proof. reflexivity. Qed.


(** Property X16. [main] of the downloader does not examine its zoom
    arguments. When the first is not a number the loop runs through no
    level: a run that returns has started the thunks of the retry pass over
    the ledger it found and no other, and has removed the ledger. When the
    first is a number and the second is missing, not a number or 0, the run
    is the one of the single level [zoomStart]. The number of threads is
    never 0: a missing, non-numeric or zero argument gives 6, every other
    number is passed on. *)
Theorem main_argv_unchecked `{JsMath} (argv : list string)
    (bounds : option Bounds) (w : World) (ms : MainScript) :
  let providerName := default "undefined" (argv !! 2%nat) in
  let lang := orString (argv !! 6%nat) "ru" in
  let maxThreads := orZ (parseIntArg (argv !! 7%nat)) 6 in
  (parseIntArg (argv !! 3%nat) = None ->
   forall st',
     main_argv argv bounds w ms = Some (Normal, st') ->
     ledger st'.1 = None
     /\ exists provider,
          create providerName (Some lang) = inr provider
          /\ starts st'.2
             = match ledger w with
               | None => []
               | Some content =>
                   map (retryJob provider) (ledgerLines content)
               end)
  /\ (forall a,
         parseIntArg (argv !! 3%nat) = Some a ->
         parseIntArg (argv !! 4%nat) = None
         \/ parseIntArg (argv !! 4%nat) = Some 0 ->
         main_argv argv bounds w ms
         = main providerName a a bounds lang maxThreads w ms)
  /\ maxThreads <> 0
  /\ (parseIntArg (argv !! 7%nat) = None
      \/ parseIntArg (argv !! 7%nat) = Some 0 -> maxThreads = 6)
  /\ lang <> "".
Proof.
  intros providerName lang maxThreads.
  split; [|split; [|split; [|split]]].
  - intros Hz st' Hrun. unfold main_argv in Hrun. cbv zeta in Hrun.
    rewrite Hz in Hrun. cbn [zoomLevelsNum] in Hrun.
    fold providerName lang maxThreads in Hrun.
    unfold mainLevels in Hrun.
    destruct (create providerName (Some lang)) as [e|provider];
      [discriminate|].
    destruct (processFailedTiles provider maxThreads (w, [])
                (retryBefore ms)) as [[[|e1] st1]|] eqn:H1;
      [|discriminate..].
    cbn [zoomLoop] in Hrun.
    pose proof (processFailedTiles_clears _ _ _ _ _ H1) as Hl1.
    unfold processFailedTiles in Hrun. rewrite Hl1 in Hrun.
    injection Hrun as <-. split; [exact Hl1|].
    exists provider. split; [reflexivity|].
    destruct (processFailedTiles_starts _ _ _ _ _ H1) as (tr & Ht & Hs).
    cbn [fst snd] in Ht, Hs. rewrite Ht. exact Hs.
  - intros a Hz Hend. unfold main_argv. cbv zeta. rewrite Hz.
    assert (orNum (parseIntArg (argv !! 4%nat)) (Some a) = Some a) as ->
        by (destruct Hend as [->| ->]; reflexivity).
    cbn [zoomLevelsNum]. apply mainLevels_main.
  - subst maxThreads. unfold orZ.
    destruct (parseIntArg (argv !! 7%nat)) as [[|p|p]|]; discriminate.
  - subst maxThreads. intros [->| ->]; reflexivity.
  - subst lang. unfold orString.
    destruct (argv !! 6%nat) as [[|c s]|]; discriminate.
Qed.

(** The downloader called without a zoom argument, over the ledger
    [oneFailure]. *)
Lemma main_argv_unchecked_witness :
  exists st',
    @main_argv exampleMath ["node"; "index.js"; "google"] None oneFailure
      mixedMain = Some (Normal, st')
    /\ ledger st'.1 = None
    /\ exists provider,
         create "google" (Some "ru") = inr provider
         /\ starts st'.2
            = map (retryJob provider) (ledgerLines ("google,1,0,0,ru" +:+ newline)).
Proof.
  eexists. split; [vm_compute; reflexivity|].
  apply (proj1 (@main_argv_unchecked exampleMath
                  ["node"; "index.js"; "google"] None oneFailure mixedMain)
           eq_refl).
  vm_compute. reflexivity.
Defined.


(** ** Rotation of the log file *)

Lemma logAll_snoc lg calls c :
  logAll lg (calls ++ [c]) = logToFile (logAll lg calls) c.1 c.2.
Proof. unfold logAll. now rewrite fold_left_app. Qed.

Lemma logToFile_lines lg now message :
  0 <= logLines lg <= MAX_LOG_LINES ->
  logLines (logToFile lg now message)
  = (if logLines lg =? MAX_LOG_LINES then 1 else logLines lg + 1)
  /\ logFileName (logToFile lg now message)
     = (if logLines lg =? MAX_LOG_LINES then getLogFileName now
        else logFileName lg).
Proof.
  intros Hc. unfold logToFile. cbv zeta.
  destruct (Z.leb_spec MAX_LOG_LINES (logLines lg)) as [Hge|Hlt];
    destruct (Z.eqb_spec (logLines lg) MAX_LOG_LINES) as [He|Hne];
    cbn [logLines logFileName]; try lia; auto.
Qed.

(** The counter and the file after the calls number 0 to [k]. *)
Lemma logAll_take lg calls k call :
  0 <= logLines lg <= MAX_LOG_LINES ->
  calls !! k = Some call ->
  let after := logAll lg (take (S k) calls) in
  let d := MAX_LOG_LINES - logLines lg in
  logLines after
  = (if Z.of_nat k <? d then logLines lg + Z.of_nat k + 1
     else (Z.of_nat k - d) mod MAX_LOG_LINES + 1)
  /\ logFileName after = logTarget (logFileName lg) (logLines lg) calls k.
Proof.
  intros Hc. revert call. induction k as [|k IH]; intros call Hk.
  - cbv zeta. destruct calls as [|c0 calls]; [discriminate|].
    injection Hk as ->. cbn [take logAll fold_left]. rewrite take_0.
    cbn [fold_left].
    destruct (logToFile_lines lg call.1 call.2 Hc) as [Hl Hn].
    rewrite Hl, Hn. unfold logTarget. cbv zeta.
    destruct (Z.eqb_spec (logLines lg) MAX_LOG_LINES) as [He|Hne].
    + rewrite He. replace (MAX_LOG_LINES - MAX_LOG_LINES) with 0 by lia.
      cbn. auto.
    + destruct (Z.ltb_spec (Z.of_nat 0) (MAX_LOG_LINES - logLines lg));
        [split; [lia|reflexivity]|lia].
  - destruct (calls !! k) as [prev|] eqn:Hprev.
    2:{ apply lookup_ge_None in Hprev.
        apply lookup_lt_Some in Hk. lia. }
    destruct (IH prev eq_refl) as [Hl Hn]. cbv zeta in Hl, Hn.
    cbv zeta. rewrite (take_S_r _ _ _ Hk), logAll_snoc.
    set (before := logAll lg (take (S k) calls)) in *.
    assert (Hb : 0 <= logLines before <= MAX_LOG_LINES).
    { rewrite Hl. unfold MAX_LOG_LINES in *.
      destruct (Z.ltb_spec (Z.of_nat k) (150000 - logLines lg)); [lia|].
      pose proof (Z.mod_pos_bound (Z.of_nat k - (150000 - logLines lg))
                    150000 eq_refl). lia. }
    destruct (logToFile_lines before call.1 call.2 Hb) as [Hl' Hn'].
    rewrite Hl', Hn', Hl, Hn. clear Hl' Hn' Hl Hn Hb IH before.
    unfold logTarget. cbv zeta. unfold MAX_LOG_LINES in *.
    set (c := logLines lg) in *. set (d := 150000 - c).
    replace (Z.of_nat (S k)) with (Z.of_nat k + 1) by lia.
    destruct (Z.ltb_spec (Z.of_nat k) d) as [Hkd|Hkd].
    + (* the call before was in the current file *)
      destruct (Z.eqb_spec (c + Z.of_nat k + 1) 150000) as [He|Hne].
      * (* this call opens the first new file *)
        destruct (Z.ltb_spec (Z.of_nat k + 1) d); [lia|].
        replace (Z.of_nat k + 1 - d) with 0 by lia.
        cbn [Z.modulo Z.div]. rewrite Z.mod_0_l, Z.div_0_l by lia.
        replace (d + 150000 * 0) with (Z.of_nat (S k)) by lia.
        rewrite Nat2Z.id, Hk. auto.
      * destruct (Z.ltb_spec (Z.of_nat k + 1) d); [|lia].
        split; [lia|reflexivity].
    + (* the call before was in a file opened by the logger *)
      destruct (Z.ltb_spec (Z.of_nat k + 1) d); [lia|].
      set (r := Z.of_nat k - d) in *.
      replace (Z.of_nat k + 1 - d) with (r + 1) by lia.
      pose proof (Z.div_mod r 150000 ltac:(lia)) as Hdm.
      pose proof (Z.mod_pos_bound r 150000 eq_refl) as Hmb.
      destruct (Z.eqb_spec (r mod 150000 + 1) 150000) as [He|Hne].
      * (* this call opens the next file *)
        assert (Hq : (r + 1) / 150000 = r / 150000 + 1).
        { symmetry. apply (Z.div_unique (r + 1) 150000 _ 0); lia. }
        assert (Hm : (r + 1) mod 150000 = 0).
        { symmetry. apply (Z.mod_unique (r + 1) 150000 (r / 150000 + 1) 0);
            lia. }
        rewrite Hq, Hm.
        replace (d + 150000 * (r / 150000 + 1)) with (Z.of_nat (S k)) by lia.
        rewrite Nat2Z.id, Hk. auto.
      * assert (Hq : (r + 1) / 150000 = r / 150000).
        { symmetry.
          apply (Z.div_unique (r + 1) 150000 _ (r mod 150000 + 1)); lia. }
        assert (Hm : (r + 1) mod 150000 = r mod 150000 + 1).
        { symmetry.
          apply (Z.mod_unique (r + 1) 150000 (r / 150000)); lia. }
        rewrite Hq, Hm. auto.
Qed.

(** Property X17. Rotation of the log. Of a sequence of calls of
    [logToFile] that starts with a fresh logger, the call number [k] (from
    0) leaves the counter [logLines] at [k mod 150000 + 1] and appends its
    line, time stamp first, to one file and touches no other: the file
    opened at the start for the first 150000 calls, afterwards the file
    named after the clock of the first call of the block of 150000 calls
    that [k] lies in. *)
Theorem log_rotation (now0 : Clock) (files : gmap Path string)
    (calls : list (Clock * string)) (k : nat) (call : Clock * string) :
  calls !! k = Some call ->
  let before := logAll (startLogger now0 files) (take k calls) in
  let after := logAll (startLogger now0 files) (take (S k) calls) in
  after = logToFile before call.1 call.2
  /\ logLines after = Z.of_nat k mod MAX_LOG_LINES + 1
  /\ logFileName after = logTarget (getLogFileName now0) 0 calls k
  /\ logFiles after
     = appendFileSync (logFiles before) (logFileName after)
         (isoTime call.1 +:+ " - " +:+ call.2 +:+ newline)
  /\ forall p, p <> logFileName after ->
       logFiles after !! p = logFiles before !! p.
Proof.
  intros Hk before after.
  assert (Hstep : after = logToFile before call.1 call.2).
  { subst after before. now rewrite (take_S_r _ _ _ Hk), logAll_snoc. }
  destruct (logAll_take (startLogger now0 files) calls k call
              ltac:(cbn; unfold MAX_LOG_LINES; lia) Hk) as [Hl Hn].
  cbv zeta in Hl, Hn. fold after in Hl, Hn.
  cbn [startLogger logLines logFileName] in Hl, Hn.
  assert (Hfiles : logFiles after
                   = appendFileSync (logFiles before) (logFileName after)
                       (isoTime call.1 +:+ " - " +:+ call.2 +:+ newline)).
  { rewrite Hstep. unfold logToFile. cbv zeta.
    destruct (MAX_LOG_LINES <=? logLines before); reflexivity. }
  split; [exact Hstep|]. split; [|split; [exact Hn|split; [exact Hfiles|]]].
  - rewrite Hl. unfold MAX_LOG_LINES.
    replace (150000 - 0) with 150000 by lia.
    destruct (Z.ltb_spec (Z.of_nat k) 150000) as [Hlt|Hge].
    + rewrite Z.mod_small by lia. lia.
    + f_equal.
      rewrite <- (Z_mod_plus_full (Z.of_nat k - 150000) 1 150000).
      f_equal. lia.
  - intros p Hp. rewrite Hfiles. unfold appendFileSync.
    now rewrite lookup_insert_ne.
Qed.

(** The first call of a fresh logger. *)
Lemma log_rotation_witness :
  let now0 := {| stamp := "2024-01-01_00-00-00";
                 isoTime := "2024-01-01T00:00:00.000Z" |} in
  let calls := [(now0, "Starting download for zoom level 1...")] in
  let before := logAll (startLogger now0 ∅) (take 0 calls) in
  let after := logAll (startLogger now0 ∅) (take 1 calls) in
  after = logToFile before now0 "Starting download for zoom level 1..."
  /\ logLines after = 0 mod MAX_LOG_LINES + 1
  /\ logFileName after = logTarget (getLogFileName now0) 0 calls 0
  /\ logFiles after
     = appendFileSync (logFiles before) (logFileName after)
         ("2024-01-01T00:00:00.000Z" +:+ " - "
            +:+ "Starting download for zoom level 1..." +:+ newline)
  /\ forall p, p <> logFileName after ->
       logFiles after !! p = logFiles before !! p.
Proof.
  intros now0 calls.
  exact (log_rotation now0 ∅ calls 0 (now0, _) eq_refl).
Defined.

(** ** The first retry loop, run again *)

(** Property X18. [retryFailedTiles] of the first downloader cannot be run
    twice in a row. A run that returns over an existing ledger leaves the
    ledger file empty, whatever failed; the next run reads one empty line
    from it, asks the factory for the provider with the empty name and
    throws, before any request. *)
Theorem retryFailedTiles_second_run (w w1 : World)
    (answers answers' : list (FetchResult * DiskResult)) :
  retryFailedTiles w answers = Some (Normal, w1) ->
  ledger w <> None ->
  ledger w1 = Some ""
  /\ ledgerLines "" = [""]
  /\ retryFailedTiles w1 answers' = Some (Threw (UnsupportedProvider ""), w1).
Proof.
  intros Hrun Hl.
  pose proof (retryFailedTiles_empties _ _ _ Hrun Hl) as Hempty.
  split; [exact Hempty|]. split; [reflexivity|].
  unfold retryFailedTiles. rewrite Hempty. reflexivity.
Qed.

(** The ledger [oneFailure_first], retried twice. *)
Lemma retryFailedTiles_second_run_witness :
  exists w1,
    retryFailedTiles oneFailure_first [(FetchFail, DiskOk)] = Some (Normal, w1)
    /\ ledger w1 = Some ""
    /\ ledgerLines "" = [""]
    /\ retryFailedTiles w1 [] = Some (Threw (UnsupportedProvider ""), w1).
Proof.
  eexists. split; [vm_compute; reflexivity|].
  apply (retryFailedTiles_second_run oneFailure_first _
           [(FetchFail, DiskOk)] []).
  - vm_compute. reflexivity.
  - discriminate.
Defined.


(** ** Filling a URL template *)

Lemma getSubstitution_plain matched before after repl :
  contains "$" repl = false ->
  getSubstitution matched before after repl = repl.
Proof.
  induction repl as [|c r IH]; [reflexivity|].
  cbn [contains]. intros [Hc Hr]%orb_false_iff.
  cbn [getSubstitution]. rewrite Hc. now rewrite IH.
Qed.

Lemma indexSplit_skip c p (a b : string) :
  contains c a = false ->
  indexSplit (String c p) (a +:+ b)
  = match indexSplit (String c p) b with
    | Some (before, after) => Some (a +:+ before, after)
    | None => None
    end.
Proof.
  intros Ha. induction a as [|d a IH].
  - rewrite append_empty_l. destruct (indexSplit (String c p) b) as [[? ?]|];
      reflexivity.
  - cbn [contains] in Ha. apply orb_false_iff in Ha as [Hd Ha].
    rewrite append_cons. cbn [indexSplit stripPrefix].
    rewrite Ascii.eqb_sym, Hd, (IH Ha).
    destruct (indexSplit (String c p) b) as [[? ?]|]; reflexivity.
Qed.

(** Replacing a placeholder that is met after a text free of its first
    character, by a text without [$]. *)
Lemma js_replace_at c p (a b after repl : string) :
  contains c a = false ->
  stripPrefix (String c p) b = Some after ->
  contains "$" repl = false ->
  js_replace (String c p) repl (a +:+ b) = a +:+ repl +:+ after.
Proof.
  intros Ha Hb Hr. unfold js_replace.
  rewrite indexSplit_skip by assumption.
  assert (indexSplit (String c p) b = Some ("", after)) as ->.
  { destruct b; cbn [indexSplit]; now rewrite Hb. }
  rewrite append_empty_r, getSubstitution_plain by assumption. reflexivity.
Qed.

Lemma getTileUrl_first_filled (front back x y z : string) :
  contains "{" front = false ->
  contains "$" x = false -> contains "{" x = false ->
  contains "$" y = false -> contains "{" y = false ->
  contains "$" z = false ->
  getTileUrl_first (front +:+ "{x}&y={y}&z={z}" +:+ back) x y z
  = front +:+ x +:+ "&y=" +:+ y +:+ "&z=" +:+ z +:+ back.
Proof.
  intros Hf Hx Hx' Hy Hy' Hz. unfold getTileUrl_first.
  rewrite (js_replace_at "{" "x}" front _ ("&y={y}&z={z}" +:+ back))
    by auto.
  replace (front +:+ x +:+ "&y={y}&z={z}" +:+ back)
    with ((front +:+ x +:+ "&y=") +:+ "{y}&z={z}" +:+ back)
    by (now rewrite !append_assoc).
  rewrite (js_replace_at "{" "y}" _ _ ("&z={z}" +:+ back));
    [|now rewrite !contains_append, Hf, Hx'|reflexivity|assumption].
  replace ((front +:+ x +:+ "&y=") +:+ y +:+ "&z={z}" +:+ back)
    with ((front +:+ x +:+ "&y=" +:+ y +:+ "&z=") +:+ "{z}" +:+ back)
    by (now rewrite !append_assoc).
  rewrite (js_replace_at "{" "z}" _ _ back);
    [|now rewrite !contains_append, Hf, Hx', Hy'|reflexivity|assumption].
  now rewrite !append_assoc.
Qed.

(** Property X19. The URL templates of the first downloader are filled as
    meant for coordinates that hold neither [$] nor an opening brace: each
    placeholder is replaced by its coordinate, for google and for yandex.
    The numbers [downloadTiles] passes are printed without these
    characters, so that every tile gets the URL of its coordinates. (The
    fields of a ledger line that [retryFailedTiles] passes are not
    examined: a [$&] in one of them would be expanded by [replace].) *)
Theorem getTileUrl_first_fills :
  (forall (x y z google yandex : string),
      contains "$" x = false -> contains "{" x = false ->
      contains "$" y = false -> contains "{" y = false ->
      contains "$" z = false ->
      baseUrl_first "google" = Some google ->
      baseUrl_first "yandex" = Some yandex ->
      getTileUrl_first google x y z
      = "https://mt1.google.com/vt/lyrs=y&x=" +:+ x +:+ "&y=" +:+ y
          +:+ "&z=" +:+ z
      /\ getTileUrl_first yandex x y z
         = "https://core-renderer-tiles.maps.yandex.net/tiles?l=map"
             +:+ "&v=21.07.10-0&x=" +:+ x +:+ "&y=" +:+ y +:+ "&z=" +:+ z
             +:+ "&scale=1&lang=ru_RU")
  /\ (forall (x y z : Z) (google : string),
         baseUrl_first "google" = Some google ->
         getTileUrl_first google (numberToString x) (numberToString y)
                          (numberToString z)
         = "https://mt1.google.com/vt/lyrs=y&x=" +:+ numberToString x
             +:+ "&y=" +:+ numberToString y +:+ "&z=" +:+ numberToString z).
Proof.
  assert (Hgoogle : forall x y z google,
             contains "$" x = false -> contains "{" x = false ->
             contains "$" y = false -> contains "{" y = false ->
             contains "$" z = false ->
             baseUrl_first "google" = Some google ->
             getTileUrl_first google x y z
             = "https://mt1.google.com/vt/lyrs=y&x=" +:+ x +:+ "&y=" +:+ y
                 +:+ "&z=" +:+ z).
  { intros x y z google Hx Hx' Hy Hy' Hz [= <-].
    rewrite <- (append_empty_r z) at 2.
    apply (getTileUrl_first_filled "https://mt1.google.com/vt/lyrs=y&x=" "");
      auto. }
  split.
  - intros x y z google yandex Hx Hx' Hy Hy' Hz Hg [= <-].
    split; [now apply Hgoogle|].
    apply (getTileUrl_first_filled
             ("https://core-renderer-tiles.maps.yandex.net/tiles?l=map"
                +:+ "&v=21.07.10-0&x=") "&scale=1&lang=ru_RU"); auto.
  - intros x y z google Hg.
    apply Hgoogle; auto; now apply numberToString_plain.
Qed.

(** The tile (5, 9) of zoom 4. *)
Lemma getTileUrl_first_fills_witness :
  exists google,
    baseUrl_first "google" = Some google
    /\ getTileUrl_first google (numberToString 5) (numberToString 9)
                        (numberToString 4)
       = "https://mt1.google.com/vt/lyrs=y&x=5&y=9&z=4".
Proof.
  eexists. split; [reflexivity|].
  exact (proj2 getTileUrl_first_fills 5 9 4 _ eq_refl).
Defined.

(** ** Batches of the retry pass *)

(** Property X20.  The retry pass obeys the same batch discipline as the
    download pass.  For [maxThreads >= 1], [processFailedTiles] cuts the
    records of the ledger, in the order of its lines, into batches of
    exactly [maxThreads] thunks, the last one possibly smaller; in every
    run at most [maxThreads] thunks are in flight, the thunks are started
    in the order of the lines, and when a thunk starts, exactly the thunks
    of the earlier batches have settled. *)
Theorem retry_batch_discipline (provider : TileProvider) (maxThreads : Z)
    (w : World) (content : string) :
  1 <= maxThreads ->
  let jobs := map (retryJob provider) (ledgerLines content) in
  let pass := startPass jobs maxThreads w in
  concat (pending pass) = jobs
  /\ batchSizes maxThreads (pending pass)
  /\ forall script p,
       exec pass script = Some p ->
       Z.of_nat (length (flight p)) <= maxThreads
       /\ starts (trace p) ++ concat (pending p) = jobs
       /\ barrier (pending pass) (trace p).
Proof.
  intros Hc jobs pass.
  assert (Hcat : concat (pending pass) = jobs)
    by (unfold pass; simpl; now rewrite batchLoop_concat).
  split; [exact Hcat|]. split.
  - unfold pass. simpl. now apply batchLoop_sizes.
  - intros script p He.
    pose proof (exec_invariant _ (flightInv_step (Z.to_nat maxThreads))
                  script _ _ (flightInv_start jobs maxThreads w Hc) He)
      as [_ Hfl].
    pose proof (exec_invariant _ (passInv_step (pending pass))
                  script _ _ (passInv_start jobs maxThreads w) He)
      as (launched & Hbs & Hst & _ & Hbar).
    split; [lia|]. split; [|exact Hbar].
    rewrite Hst, <- concat_app, <- Hbs. exact Hcat.
Qed.


(** The ledger [threeRecords], two thunks at a time. *)
Lemma retry_batch_discipline_witness :
  map (length (A := Job))
      (pending (startPass (map (retryJob google) (ledgerLines threeRecords))
                          2 emptyWorld)) = [2%nat; 1%nat]
  /\ batchSizes 2
       (pending (startPass (map (retryJob google) (ledgerLines threeRecords))
                           2 emptyWorld)).
Proof.
  split; [vm_compute; reflexivity|].
  apply (retry_batch_discipline google 2 emptyWorld threeRecords). lia.
Defined.


(** ** The store does not depend on the schedule *)

Lemma saveTile_resume_effect f j a :
  let r := saveTile_resume f j a.1 a.2 in
  files r.1.1 = match written a with
                | Some c => <[outputFile j := c]> (files f)
                | None => files f
                end
  /\ dirs r.1.1 = if madeDir a
                  then dirs f ∪ list_to_set (ancestors (outputDir j))
                  else dirs f.
Proof.
  destruct a as [[|data] [| |[k|]]]; cbn; auto.
Qed.

Lemma storeIs_start f0 env : storeIs f0 env [] f0.
Proof.
  split; [|split].
  - now intros j c ?%elem_of_nil.
  - reflexivity.
  - intros d. split; [auto|]. intros [Hd|(j & Hj & _)]; [exact Hd|].
    now apply elem_of_nil in Hj.
Qed.

Lemma storeIs_skip f0 env done f j :
  storeIs f0 env done f -> existsSync f0 (outputFile j) = true ->
  storeIs f0 env (done ++ [j]) f.
Proof.
  intros (F1 & F2 & D) Hex. split; [|split].
  - intros j0 c [Hj0|Hj0]%elem_of_app Hn Hw; [eauto|].
    apply list_elem_of_singleton in Hj0 as ->. congruence.
  - intros q Hq. apply F2. intros j0 Hj0. apply Hq.
    apply elem_of_app. now left.
  - intros d. rewrite D. split.
    + intros [Hd|(j0 & Hj0 & Hrest)]; [now left|]. right. exists j0.
      split; [apply elem_of_app; now left|exact Hrest].
    + intros [Hd|(j0 & [Hj0|Hj0]%elem_of_app & Hn & Hrest)]; [now left| |].
      * right. eauto.
      * apply list_elem_of_singleton in Hj0 as ->. congruence.
Qed.

Lemma storeIs_step f0 env done f j :
  storeIs f0 env done f -> existsSync f0 (outputFile j) = false ->
  outputFile j ∉ map outputFile done ->
  storeIs f0 env (done ++ [j])
          (saveTile_resume f j (env j).1 (env j).2).1.1.
Proof.
  intros (F1 & F2 & D) Hex Hnew.
  destruct (saveTile_resume_effect f j (env j)) as [Hfiles Hdirs].
  cbv zeta in Hfiles, Hdirs.
  assert (Hother : forall j0, j0 ∈ done -> outputFile j0 <> outputFile j).
  { intros j0 Hj0 He. apply Hnew. rewrite <- He.
    apply list_elem_of_fmap. eauto. }
  split; [|split].
  - intros j0 c [Hj0|Hj0]%elem_of_app Hn Hw.
    + rewrite Hfiles. destruct (written (env j)).
      * rewrite lookup_insert_ne by (apply not_eq_sym, Hother, Hj0). eauto.
      * eauto.
    + apply list_elem_of_singleton in Hj0 as ->.
      rewrite Hfiles, Hw. apply lookup_insert_eq.
  - intros q Hq. rewrite Hfiles.
    assert (Hold : files f !! q = files f0 !! q).
    { apply F2. intros j0 Hj0. apply Hq. apply elem_of_app. now left. }
    destruct (written (env j)) as [c|] eqn:Hw; [|exact Hold].
    rewrite lookup_insert_ne; [exact Hold|].
    apply not_eq_sym. apply (Hq j); [apply elem_of_app; right; left| |eauto].
    exact Hex.
  - intros d. rewrite Hdirs. split.
    + intros Hd.
      assert (Hcases : d ∈ dirs f
                       \/ (madeDir (env j) = true
                           /\ d ∈ ancestors (outputDir j))).
      { destruct (madeDir (env j)); [|now left].
        apply elem_of_union in Hd as [Hd|Hd]; [now left|].
        right. split; [reflexivity|]. now apply elem_of_list_to_set in Hd. }
      destruct Hcases as [Hd'|[Hm Ha]].
      * apply D in Hd' as [Hd'|(j0 & Hj0 & Hrest)]; [now left|].
        right. exists j0. split; [apply elem_of_app; now left|exact Hrest].
      * right. exists j. split; [apply elem_of_app; right; left|auto].
    + intros Hd.
      assert (Hcases : d ∈ dirs f
                       \/ (madeDir (env j) = true
                           /\ d ∈ ancestors (outputDir j))).
      { destruct Hd as [Hd|(j0 & [Hj0|Hj0]%elem_of_app & Hn & Hm & Ha)].
        - left. apply D. now left.
        - left. apply D. right. eauto.
        - apply list_elem_of_singleton in Hj0 as ->. now right. }
      destruct Hcases as [Hd'|[Hm Ha]].
      * destruct (madeDir (env j)); [|exact Hd'].
        apply elem_of_union. now left.
      * rewrite Hm. apply elem_of_union. right.
        now apply elem_of_list_to_set.
Qed.

(** A tile that has not been through [saveTile] is in the store exactly
    when it was there at the start. *)
Lemma storeIs_exists f0 env done f j :
  storeIs f0 env done f ->
  outputFile j ∉ map outputFile done ->
  (forall j', j' ∈ done -> outputFile j ∉ ancestors (outputDir j')) ->
  existsSync f (outputFile j) = existsSync f0 (outputFile j).
Proof.
  intros (F1 & F2 & D) Hnew Hapart. unfold existsSync.
  rewrite F2.
  2:{ intros j0 Hj0 _ _ He. apply Hnew. rewrite He.
      apply list_elem_of_fmap. eauto. }
  f_equal. apply bool_decide_ext. rewrite D. split; [|auto].
  intros [Hd|(j0 & Hj0 & _ & _ & Ha)]; [exact Hd|].
  now apply Hapart in Ha.
Qed.

Lemma storeIs_unique f0 env done done' f f' :
  storeIs f0 env done f -> storeIs f0 env done' f' ->
  (forall j, j ∈ done <-> j ∈ done') -> f = f'.
Proof.
  intros (F1 & F2 & D) (F1' & F2' & D') Hsame.
  destruct f as [ds fl], f' as [ds' fl']. cbn [files dirs] in *.
  f_equal.
  - apply set_eq. intros d. rewrite D, D'. split.
    + intros [Hd|(j & Hj & Hrest)]; [now left|].
      right. exists j. split; [now apply Hsame|exact Hrest].
    + intros [Hd|(j & Hj & Hrest)]; [now left|].
      right. exists j. split; [now apply Hsame|exact Hrest].
  - apply map_eq. intros q.
    destruct (decide (Exists (fun j => existsSync f0 (outputFile j) = false
                                       /\ is_Some (written (env j))
                                       /\ q = outputFile j) done))
      as [Hyes|Hno].
    + apply Exists_exists in Hyes as (j & Hj & Hn & [c Hw] & ->).
      rewrite (F1 j c Hj Hn Hw). symmetry.
      apply (F1' j c); [now apply Hsame|exact Hn|exact Hw].
    + rewrite F2, F2'; [reflexivity| |].
      * intros j Hj Hn Hw ->. apply Hno. apply Exists_exists.
        exists j. split; [now apply Hsame|auto].
      * intros j Hj Hn Hw ->. apply Hno. apply Exists_exists. eauto.
Qed.

Lemma sequentialStore_is f0 env rest : forall done f,
  storeIs f0 env done f ->
  NoDup (map outputFile (done ++ rest)) ->
  filesApart (done ++ rest) ->
  storeIs f0 env (done ++ rest) (sequentialStore env f rest).
Proof.
  induction rest as [|j rest IH]; intros done f Hs Hnd Hap.
  - now rewrite app_nil_r.
  - cbn [sequentialStore fold_left].
    change (fold_left _ rest ?g) with (sequentialStore env g rest).
    assert (Hnew : outputFile j ∉ map outputFile done).
    { rewrite map_app in Hnd. apply NoDup_app in Hnd as (_ & Hdis & _).
      intros Hin. apply (Hdis _ Hin). left. }
    assert (Hex : saveTile_enter f j = existsSync f0 (outputFile j)).
    { unfold saveTile_enter. eapply storeIs_exists; eauto.
      intros j' Hj'. apply Hap; apply elem_of_app; [right; left|now left]. }
    replace (done ++ j :: rest) with ((done ++ [j]) ++ rest) in *
      by now rewrite <- app_assoc.
    apply IH; [|assumption..].
    rewrite Hex. destruct (existsSync f0 (outputFile j)) eqn:He.
    + now apply storeIs_skip.
    + now apply storeIs_step.
Qed.

Lemma schedInv_start f0 env jobs c w :
  fs w = f0 -> schedInv f0 env jobs (startPass jobs c w).
Proof.
  intros <-. unfold schedInv, startPass. cbn [pending flight trace world].
  split; [|split].
  - cbn. now rewrite batchLoop_concat.
  - apply storeIs_start.
  - now intros s ?%elem_of_nil.
Qed.

Lemma schedInv_step f0 env jobs p c p' :
  NoDup (map outputFile jobs) -> filesApart jobs ->
  schedInv f0 env jobs p ->
  obeys env p [c] ->
  step p c = Some p' ->
  schedInv f0 env jobs p'.
Proof.
  intros Hnd Hap (Hperm & Hstore & Hslots) [Hob _] Hstep.
  assert (Hnd' : NoDup (map outputFile (settles (trace p))
                        ++ map outputFile (map slotJob (flight p))
                        ++ map outputFile (concat (pending p)))).
  { rewrite <- !map_app. now rewrite <- Hperm. }
  assert (Hin : forall j,
             j ∈ settles (trace p) ++ map slotJob (flight p)
                   ++ concat (pending p) -> j ∈ jobs)
    by (intros j Hj; now rewrite Hperm).
  destruct c as [|i net disk ledgerOk].
  - simpl in Hstep.
    apply launch_inv in Hstep as (b & bs & Hp & Hf & _ & ->).
    unfold schedInv. cbn [pending flight trace world].
    rewrite settles_app, settles_startEvents, app_nil_r, slotJob_startThunk.
    rewrite Hp, Hf in Hperm. cbn [concat map app] in Hperm.
    split; [exact Hperm|]. split; [exact Hstore|].
    intros s [j [-> Hj]]%list_elem_of_fmap.
    assert (Hsj : slotJob (startThunk (fs (world p)) j) = j)
      by (unfold startThunk; now destruct (saveTile_enter _ j)).
    rewrite Hsj. unfold startThunk, saveTile_enter.
    rewrite Hp, Hf in Hnd', Hin. cbn [concat map app] in Hnd', Hin.
    assert (Hex : existsSync (fs (world p)) (outputFile j)
                  = existsSync f0 (outputFile j)).
    { eapply storeIs_exists; [exact Hstore| |].
      - apply NoDup_app in Hnd' as (_ & Hdis & _). intros Hs.
        apply (Hdis _ Hs). rewrite map_app. apply elem_of_app. left.
        apply list_elem_of_fmap. eauto.
      - intros j' Hj'. apply Hap; apply Hin.
        + apply elem_of_app. right. apply elem_of_app. now left.
        + apply elem_of_app. now left. }
    now rewrite Hex.
  - simpl in Hstep, Hob.
    destruct (flight p !! i) as [s|] eqn:Hi; [|discriminate].
    injection Hstep as <-.
    set (p' := resume p (delete i (flight p)) s net disk ledgerOk).
    destruct (resume_trace p (delete i (flight p)) s net disk ledgerOk)
      as (new & Htr & _ & Hset). fold p' in Htr.
    destruct (resume_pending_flight p (delete i (flight p)) s net disk
                ledgerOk) as (Hp' & Hf' & _). fold p' in Hp', Hf'.
    destruct (resume_settle p (delete i (flight p)) s net disk ledgerOk)
      as (Hfs & _). fold p' in Hfs.
    pose proof (list_elem_of_lookup_2 _ _ _ Hi) as Hs.
    pose proof (Hslots s Hs) as Hkind.
    assert (Hnew : outputFile (slotJob s)
                   ∉ map outputFile (settles (trace p))).
    { apply NoDup_app in Hnd' as (_ & Hdis & _). intros Hx.
      apply (Hdis _ Hx). apply elem_of_app. left.
      apply list_elem_of_fmap. exists (slotJob s). split; [reflexivity|].
      apply list_elem_of_fmap. eauto. }
    unfold schedInv. rewrite Hp', Hf', Htr, settles_app, Hset.
    split; [|split].
    + rewrite Hperm, <- !app_assoc. apply Permutation_app_head.
      rewrite app_assoc. apply Permutation_app_tail.
      change ([slotJob s] ++ map slotJob (delete i (flight p)))
        with (map slotJob (s :: delete i (flight p))).
      apply Permutation_map, delete_Permutation. exact Hi.
    + rewrite Hfs. unfold startThunk, saveTile_enter in Hkind.
      destruct s as [j|j]; cbn [slotJob] in *.
      * apply storeIs_skip; [exact Hstore|].
        destruct (existsSync f0 (outputFile j)); [reflexivity|discriminate].
      * replace net with (env j).1 by now rewrite Hob.
        replace disk with (env j).2 by now rewrite Hob.
        apply storeIs_step; [exact Hstore| |exact Hnew].
        destruct (existsSync f0 (outputFile j)); [discriminate|reflexivity].
    + intros s' Hs'. apply Hslots. eapply list_elem_of_delete_inv; eauto.
Qed.

Lemma schedInv_exec f0 env jobs script : forall p p',
  NoDup (map outputFile jobs) -> filesApart jobs ->
  schedInv f0 env jobs p ->
  obeys env p script ->
  exec p script = Some p' ->
  schedInv f0 env jobs p'.
Proof.
  induction script as [|c cs IH]; intros p p' Hnd Hap Hinv Hob He.
  - simpl in He. now injection He as <-.
  - cbn [exec] in He. cbn [obeys] in Hob. destruct Hob as [Hc Hrest].
    destruct (step p c) as [q|] eqn:Hstep; [|discriminate].
    apply (IH q p' Hnd Hap); [|exact Hrest|exact He].
    eapply schedInv_step; eauto. cbn [obeys]. rewrite Hstep. auto.
Qed.

Lemma ancestors_length (d a : Path) :
  a ∈ ancestors d -> (length a <= length d)%nat.
Proof.
  unfold ancestors. intros (n & -> & _)%list_elem_of_fmap.
  rewrite length_take. lia.
Qed.

Lemma filesApart_zoomJobs `{JsMath} provider z bounds lang :
  filesApart (zoomJobs provider z bounds lang).
Proof.
  intros j j' Hj Hj' Hin. unfold zoomJobs in Hj, Hj'.
  apply list_elem_of_fmap in Hj as ([x y] & -> & _).
  apply list_elem_of_fmap in Hj' as ([x' y'] & -> & _).
  apply ancestors_length in Hin. cbn in Hin. lia.
Qed.


(** Property X21.  The store a pass leaves does not depend on the
    schedule.  When network and disk answer each tile in the same way
    whenever its thunk settles, every run of [downloadTilesForZoom] that
    returns, whatever the size of the batches and the order in which the
    thunks settle, leaves the store that the calls of [saveTile] leave
    when they run one after the other in enumeration order. *)
Theorem store_schedule_independent `{JsMath} (provider : TileProvider)
    (z : Z) (bounds : option Bounds) (maxThreads : Z) (lang : string)
    (st st' : State) (script : list Choice)
    (env : Job -> FetchResult * DiskResult) :
  obeys env (zoomPass provider z bounds maxThreads lang st) script ->
  downloadTilesForZoom provider z bounds maxThreads lang st script
  = Some (Normal, st') ->
  fs st'.1
  = sequentialStore env (fs st.1) (zoomJobs provider z bounds lang).
Proof.
  unfold downloadTilesForZoom, zoomPass. intros Hob Hrun.
  set (jobs := zoomJobs provider z bounds lang) in *.
  destruct (exec _ script) as [p|] eqn:He; [|discriminate].
  destruct (quiescent p) eqn:Hq; [|discriminate].
  destruct (rejected p) eqn:Hr; [discriminate|].
  injection Hrun as <-. cbn [fst].
  apply quiescent_fine in Hq; [|exact Hr].
  apply finished_inv in Hq as [Hp Hf].
  pose proof (NoDup_zoomJobs provider z bounds lang) as Hnd.
  pose proof (filesApart_zoomJobs provider z bounds lang) as Hap.
  fold jobs in Hnd, Hap.
  destruct (schedInv_exec (fs st.1) env jobs script _ _ Hnd Hap
              (schedInv_start _ env jobs maxThreads st.1 eq_refl) Hob He)
    as (Hperm & Hstore & _).
  rewrite Hp, Hf in Hperm. cbn [map concat] in Hperm.
  rewrite !app_nil_r in Hperm.
  eapply storeIs_unique; [exact Hstore| |].
  - apply (sequentialStore_is (fs st.1) env jobs [] (fs st.1));
      [apply storeIs_start|exact Hnd|exact Hap].
  - intros j. now rewrite Hperm.
Qed.

(** The run [mixedRun] of zoom 1, three thunks at a time, against the
    sequential run under the same answers. *)
Lemma store_schedule_independent_witness :
  exists st',
    @downloadTilesForZoom exampleMath google 1 None 3 "ru" (emptyWorld, [])
      mixedRun = Some (Normal, st')
    /\ fs st'.1
       = sequentialStore mixedEnv emptyFS
           (@zoomJobs exampleMath google 1 None "ru").
Proof.
  eexists. split; [vm_compute; reflexivity|].
  apply (@store_schedule_independent exampleMath google 1 None 3 "ru"
           (emptyWorld, []) _ mixedRun mixedEnv).
  - vm_compute. repeat split.
  - vm_compute. reflexivity.
Defined.


(** ** What the zoom loop changes *)











(** ** The first version from the command line *)



(** ** The program with its log file *)


Lemma resume_plain p rest s net disk ledgerOk logs :
  thunkLogsFine logs = true ->
  Logged.resume p rest s net disk ledgerOk logs
  = (resume p rest s net disk ledgerOk,
     match settledAs (fs (world p)) s net disk ledgerOk with
     | Rejected => Some (Logged.Plain LedgerIOError)
     | _ => None
     end).
Proof.
  destruct logs as [[] [] []]; try discriminate. intros _.
  unfold Logged.resume, Logged.saveTile_resume, resume, settledAs.
  cbn [Logged.saveLogOk Logged.progressLogOk Logged.catchLogOk].
  destruct s as [j|j]; cbn [slotJob]; [reflexivity|].
  destruct (saveTile_resume (fs (world p)) j net disk) as [[f wrote] ok].
  rewrite andb_true_r. cbn [snd].
  destruct ok; [|destruct (failedLine j) as [line|]; [destruct ledgerOk|]];
    destruct wrote; cbn; rewrite ?orb_false_r; reflexivity.
Qed.

Lemma step_plain r p c :
  choiceLogsFine c = true -> agree r p ->
  match Logged.step r c, step p (plainChoice c) with
  | Some r', Some p' => agree r' p'
  | None, None => True
  | _, _ => False
  end.
Proof.
  intros Hc [<- Ht]. destruct c as [|i net disk ledgerOk logs];
    cbn [Logged.step step plainChoice].
  - destruct (launch (Logged.pass r)) as [p'|] eqn:Hl; [|exact I].
    split; [reflexivity|]. cbn [Logged.thrown Logged.pass].
    apply launch_inv in Hl as (b & bs & _ & _ & Hr & ->).
    rewrite Ht, Hr. reflexivity.
  - destruct (flight (Logged.pass r) !! i) as [s|]; [|exact I].
    cbn in Hc. rewrite (resume_plain _ _ _ _ _ _ _ Hc).
    split; [reflexivity|]. cbn [Logged.thrown Logged.pass].
    rewrite Ht, resume_rejected.
    destruct (rejected (Logged.pass r)); [reflexivity|].
    cbn [orb]. now destruct (settledAs _ _ _ _ _).
Qed.

Lemma exec_plain cs : forall r p,
  forallb choiceLogsFine cs = true -> agree r p ->
  match Logged.exec r cs, exec p (map plainChoice cs) with
  | Some r', Some p' => agree r' p'
  | None, None => True
  | _, _ => False
  end.
Proof.
  induction cs as [|c cs IH]; intros r p Hcs Ha; [exact Ha|].
  cbn [forallb] in Hcs. apply andb_true_iff in Hcs as [Hc Hcs].
  cbn [Logged.exec exec map].
  pose proof (step_plain r p c Hc Ha) as Hs.
  destruct (Logged.step r c) as [r'|], (step p (plainChoice c)) as [p'|];
    try contradiction; [|exact I].
  now apply IH.
Qed.

Lemma agree_start jobs c w :
  agree (Logged.startRun jobs c w) (startPass jobs c w).
Proof. split; reflexivity. Qed.

Lemma quiescent_finished p :
  rejected p = false -> quiescent p = finished p.
Proof.
  unfold quiescent, finished. intros ->.
  destruct (flight p), (pending p); reflexivity.
Qed.

Section PlainCalls.
Context `{JsMath}.
Variables (provider : TileProvider) (bounds : option Bounds)
  (maxThreads : Z) (lang : string).

Lemma downloadTilesForZoom_plain z st zc :
  zoomLogsFine zc = true ->
  Logged.downloadTilesForZoom provider z bounds maxThreads lang st zc
  = plainRun (downloadTilesForZoom provider z bounds maxThreads lang st
                (map plainChoice (Logged.zoomChoices zc))).
Proof.
  unfold zoomLogsFine. intros [[Ht Hc]%andb_true_iff Ha]%andb_true_iff.
  unfold Logged.downloadTilesForZoom, downloadTilesForZoom, zoomPass.
  rewrite Ht, Ha.
  pose proof (exec_plain (Logged.zoomChoices zc) _ _ Hc
                (agree_start (zoomJobs provider z bounds lang) maxThreads
                   st.1)) as He.
  destruct (Logged.exec _ _) as [r|], (exec _ _) as [p|];
    try contradiction; [|reflexivity].
  destruct He as [<- Hthrown].
  destruct (quiescent (Logged.pass r)); [|reflexivity].
  cbn [plainRun]. rewrite Hthrown.
  now destruct (rejected (Logged.pass r)).
Qed.

Lemma zoomLoop_plain zs : forall st scripts,
  forallb levelLogsFine scripts = true ->
  Logged.zoomLoop provider zs bounds maxThreads lang st scripts
  = plainRun (zoomLoop provider zs bounds maxThreads lang st
                (map (fun sc => map plainChoice
                                  (Logged.zoomChoices (Logged.level sc)))
                     scripts)).
Proof.
  induction zs as [|z zs IH]; intros st scripts Hs; [reflexivity|].
  destruct scripts as [|sc scs]; [reflexivity|].
  cbn [forallb] in Hs. apply andb_true_iff in Hs as [Hsc Hs].
  unfold levelLogsFine in Hsc.
  apply andb_true_iff in Hsc as [[Hst Hz]%andb_true_iff Hco].
  cbn [Logged.zoomLoop zoomLoop map]. rewrite Hst, Hco.
  rewrite (downloadTilesForZoom_plain _ _ _ Hz).
  destruct (downloadTilesForZoom provider z bounds maxThreads lang st _)
    as [[[|e] st1]|]; cbn [plainRun plainResult]; auto.
Qed.

Lemma processFailedTiles_plain st rs :
  retryLogsFine rs = true ->
  Logged.processFailedTiles provider maxThreads st rs
  = plainRun (processFailedTiles provider maxThreads st (plainRetry rs)).
Proof.
  unfold retryLogsFine. intros [[Hr Hc]%andb_true_iff Hf]%andb_true_iff.
  unfold Logged.processFailedTiles, processFailedTiles.
  cbn [readOk choices unlinkOk plainRetry].
  destruct (ledger st.1) as [content|] eqn:Hl; [|reflexivity].
  destruct (Logged.readOk rs); [|reflexivity]. cbn [negb].
  destruct (ledgerLines content) as [|l ls] eqn:Hlines; [reflexivity|].
  rewrite <- Hlines. rewrite Hr, Hf. cbn [negb].
  pose proof (exec_plain (Logged.retryChoices rs) _ _ Hc
                (agree_start (map (retryJob provider) (ledgerLines content))
                   maxThreads st.1)) as He.
  destruct (Logged.exec _ _) as [r|], (exec _ _) as [p|] eqn:Hp;
    try contradiction; [|reflexivity].
  destruct He as [<- Hthrown].
  destruct (retry_exec _ _ _ _ _ _ (retryJob_noLine _ _) Hl Hp)
    as (_ & Hrej & _).
  rewrite Hthrown, Hrej, (quiescent_finished _ Hrej).
  destruct (finished (Logged.pass r)); [|reflexivity].
  now destruct (Logged.unlinkOk rs).
Qed.

End PlainCalls.

(** With a log file that takes every line and a bounds argument that is
    JSON, [main] runs as the program without the log file does. *)
Lemma main_plain `{JsMath} JSON_parse argv bounds w ms :
  boundsArg JSON_parse (argv !! 5%nat) = JsonValue bounds ->
  mainLogsFine ms = true ->
  Logged.main JSON_parse argv w ms
  = plainRun (main_argv argv bounds w (plainMain ms)).
Proof.
  intros Hb. unfold mainLogsFine.
  intros [[H1 H2]%andb_true_iff H3]%andb_true_iff.
  unfold Logged.main, main_argv, mainLevels. cbv zeta. rewrite Hb.
  destruct (create _ _) as [e|provider]; [reflexivity|].
  rewrite (processFailedTiles_plain _ _ _ _ H1).
  cbn [plainMain retryBefore zoomScripts retryAfter].
  destruct (processFailedTiles provider _ (w, []) _) as [[[|e] st1]|];
    cbn [plainRun plainResult]; [|reflexivity..].
  rewrite (zoomLoop_plain _ _ _ _ _ _ _ H2).
  destruct (zoomLoop provider _ _ _ _ st1 _) as [[[|e] st2]|];
    cbn [plainRun plainResult]; [|reflexivity..].
  apply processFailedTiles_plain, H3.
Qed.

(** All the ways a thunk can end. *)
Ltac logged_cases s net disk ledgerOk logs :=
  unfold Logged.resume, Logged.saveTile_resume, saveTile_resume;
  destruct logs as [[] [] []];
  cbn [Logged.saveLogOk Logged.progressLogOk Logged.catchLogOk];
  destruct s as [?j|?j]; cbn [slotJob];
  destruct net as [|?data]; destruct disk as [| |[?k|]];
  cbv iota beta zeta; cbn [andb];
  (destruct (failedLine _) as [?line|] eqn:?Hline; [destruct ledgerOk|]).

Lemma resume_error p rest s net disk ledgerOk logs :
  let r := Logged.resume p rest s net disk ledgerOk logs in
  pending r.1 = pending p /\ flight r.1 = rest
  /\ rejected r.1 = rejected p || bool_decide (is_Some r.2)
  /\ match r.2 with
     | None => True
     | Some Logged.LogIOError => thunkLogsFine logs = false
     | Some (Logged.Plain LedgerIOError) =>
         ledgerOk = false /\ is_Some (failedLine (slotJob s))
     | Some _ => False
     end.
Proof.
  logged_cases s net disk ledgerOk logs; cbn;
    rewrite ?orb_false_r; repeat split; eauto.
Qed.


Lemma exec_thrown cs : forall r r',
  Logged.exec r cs = Some r' ->
  Logged.thrown r = None ->
  rejected (Logged.pass r) = false ->
  thrownBy cs (Logged.thrown r')
  /\ rejected (Logged.pass r') = bool_decide (is_Some (Logged.thrown r')).
Proof.
  induction cs as [|c cs IH]; intros r r' He Ht Hr.
  - injection He as <-. rewrite Ht, Hr. split; [exact I|reflexivity].
  - cbn [Logged.exec] in He.
    destruct (Logged.step r c) as [r1|] eqn:Hs; [|discriminate].
    destruct c as [|i net disk ledgerOk logs]; cbn [Logged.step] in Hs.
    + destruct (launch (Logged.pass r)) as [p1|] eqn:Hl; [|discriminate].
      injection Hs as <-.
      apply launch_inv in Hl as (b & bs & _ & _ & _ & ->).
      destruct (IH _ _ He Ht eq_refl) as [Hth Hrej].
      split; [|exact Hrej].
      unfold thrownBy in *. destruct (Logged.thrown r') as [[[]| |]|];
        cbn [forallb map choiceLogsFine plainChoice ledgerFine andb]; auto.
    + destruct (flight (Logged.pass r) !! i) as [s|]; [|discriminate].
      destruct (resume_error (Logged.pass r)
                  (delete i (flight (Logged.pass r))) s net disk ledgerOk
                  logs) as (_ & _ & Hr1 & Herr).
      destruct (Logged.resume _ _ _ _ _ _ _) as [p1 err].
      cbn [fst snd] in Hr1, Herr. injection Hs as <-.
      rewrite Ht in He. rewrite Hr in Hr1. cbn [orb] in Hr1.
      destruct err as [e|].
      * (* the pass has thrown: the error stays *)
        assert (Hkeep : forall cs0 ra rb,
                   Logged.exec ra cs0 = Some rb ->
                   Logged.thrown ra = Some e ->
                   rejected (Logged.pass ra) = true ->
                   Logged.thrown rb = Some e
                   /\ rejected (Logged.pass rb) = true).
        { clear. induction cs0 as [|c0 cs0 IH0]; intros ra rb He Ht Hr.
          - injection He as <-. auto.
          - cbn [Logged.exec] in He.
            destruct (Logged.step ra c0) as [rc|] eqn:Hs; [|discriminate].
            destruct c0 as [|i net disk ledgerOk logs];
              cbn [Logged.step] in Hs.
            + unfold launch in Hs. rewrite Hr in Hs.
              destruct (pending (Logged.pass ra)); [discriminate|].
              destruct (flight (Logged.pass ra)); discriminate.
            + destruct (flight (Logged.pass ra) !! i) as [s|];
                [|discriminate].
              destruct (resume_error (Logged.pass ra)
                          (delete i (flight (Logged.pass ra))) s net disk
                          ledgerOk logs) as (_ & _ & Hr1 & _).
              destruct (Logged.resume _ _ _ _ _ _ _) as [p1 err].
              injection Hs as <-. cbn [fst] in Hr1.
              apply (IH0 _ _ He); cbn [Logged.thrown Logged.pass].
              * now rewrite Ht.
              * now rewrite Hr1, Hr. }
        destruct (Hkeep _ _ _ He eq_refl Hr1) as [-> ->].
        split; [|reflexivity].
        unfold thrownBy. destruct e as [[]| |]; try contradiction.
        -- destruct Herr as [-> _]. reflexivity.
        -- cbn [forallb choiceLogsFine]. now rewrite Herr.
      * destruct (IH _ _ He eq_refl Hr1) as [Hth Hrej].
        split; [|exact Hrej].
        unfold thrownBy in *. destruct (Logged.thrown r') as [[[]| |]|];
          cbn [forallb map choiceLogsFine plainChoice ledgerFine]; auto;
          rewrite Hth; apply andb_false_r.
Qed.

Lemma logged_exec_invariant (I : Logged.Run -> Prop) :
  (forall r c r', I r -> Logged.step r c = Some r' -> I r') ->
  forall script r r', I r -> Logged.exec r script = Some r' -> I r'.
Proof.
  intros Hstep script. induction script as [|c cs IH]; intros r r' Hr He.
  - injection He as <-. exact Hr.
  - cbn [Logged.exec] in He.
    destruct (Logged.step r c) as [q|] eqn:Hq; [|discriminate].
    eapply IH; [|exact He]. eapply Hstep; eauto.
Qed.

Lemma logged_resume_trace p rest s net disk ledgerOk logs :
  let r := Logged.resume p rest s net disk ledgerOk logs in
  exists new,
    trace r.1 = trace p ++ new
    /\ starts new = []
    /\ settles new = [slotJob s]
    /\ (failedLine (slotJob s) = None ->
        appends new = [] /\ ledger (world r.1) = ledger (world p)
        /\ r.2 <> Some (Logged.Plain LedgerIOError)).
Proof.
  logged_cases s net disk ledgerOk logs; cbn; eexists;
    (split; [reflexivity|]); repeat split; try reflexivity;
    try discriminate; try congruence.
Qed.


Lemma startsInv_step jobs r c r' :
  startsInv jobs r -> Logged.step r c = Some r' -> startsInv jobs r'.
Proof.
  unfold startsInv. intros Hinv Hs.
  destruct c as [|i net disk ledgerOk logs]; cbn [Logged.step] in Hs.
  - destruct (launch (Logged.pass r)) as [p1|] eqn:Hl; [|discriminate].
    injection Hs as <-. cbn [Logged.pass].
    apply launch_inv in Hl as (b & bs & Hp & _ & _ & ->).
    cbn [trace pending]. rewrite Hp in Hinv. cbn [concat] in Hinv.
    now rewrite starts_app, starts_startEvents, <- app_assoc.
  - destruct (flight (Logged.pass r) !! i) as [s|]; [|discriminate].
    destruct (resume_error (Logged.pass r)
                (delete i (flight (Logged.pass r))) s net disk ledgerOk logs)
      as (Hp & _).
    destruct (logged_resume_trace (Logged.pass r)
                (delete i (flight (Logged.pass r))) s net disk ledgerOk logs)
      as (new & Htr & Hst & _).
    destruct (Logged.resume _ _ _ _ _ _ _) as [p1 err].
    injection Hs as <-. cbn [Logged.pass fst] in *.
    now rewrite Hp, Htr, starts_app, Hst, app_nil_r.
Qed.

Lemma startsInv_start jobs c w :
  startsInv jobs (Logged.startRun jobs c w).
Proof. unfold startsInv. simpl. apply batchLoop_concat. Qed.

Lemma loggedRetryInv_step l0 r c r' :
  loggedRetryInv l0 r -> Logged.step r c = Some r' -> loggedRetryInv l0 r'.
Proof.
  intros (Hpe & Hfl & Hl & Ha & Ht) Hs.
  destruct c as [|i net disk ledgerOk logs]; cbn [Logged.step] in Hs.
  - destruct (launch (Logged.pass r)) as [p1|] eqn:Hla; [|discriminate].
    injection Hs as <-. cbn [Logged.pass Logged.thrown].
    apply launch_inv in Hla as (b & bs & Hp & _ & _ & ->).
    unfold loggedRetryInv. cbn [pending flight world trace Logged.pass
                                 Logged.thrown].
    rewrite Hp in Hpe. cbn [concat] in Hpe.
    apply Forall_app in Hpe as [Hb Hbs].
    split; [exact Hbs|]. split; [|split; [exact Hl|split; [|exact Ht]]].
    + clear -Hb. induction b as [|j b IH]; [constructor|].
      apply Forall_cons in Hb as [Hj Hb]. cbn [map]. constructor; [|auto].
      unfold startThunk. now destruct (saveTile_enter _ j).
    + now rewrite appends_app, appends_startEvents, Ha.
  - destruct (flight (Logged.pass r) !! i) as [s|] eqn:Hi; [|discriminate].
    pose proof (proj1 (Forall_lookup _ _) Hfl i s Hi) as Hnone.
    cbn beta in Hnone.
    destruct (resume_error (Logged.pass r)
                (delete i (flight (Logged.pass r))) s net disk ledgerOk logs)
      as (Hp & Hf & _ & Herr).
    destruct (logged_resume_trace (Logged.pass r)
                (delete i (flight (Logged.pass r))) s net disk ledgerOk logs)
      as (new & Htr & _ & _ & Hrest).
    destruct (Hrest Hnone) as (Han & Hled & Hne).
    destruct (Logged.resume _ _ _ _ _ _ _) as [p1 err].
    injection Hs as <-. cbn [Logged.pass Logged.thrown fst snd] in *.
    unfold loggedRetryInv. cbn [Logged.pass Logged.thrown].
    rewrite Hp, Hf, Hled, Htr, appends_app, Ha, Han.
    split; [exact Hpe|]. split; [|split; [exact Hl|split; [reflexivity|]]].
    + apply Forall_forall. intros s' Hs'.
      apply (proj1 (Forall_forall _ _) Hfl).
      rewrite (delete_Permutation _ _ _ Hi). now right.
    + destruct Ht as [->| ->]; [|now right].
      destruct err as [[[]| |]|]; auto; contradiction.
Qed.

Lemma loggedRetryInv_start jobs c w :
  Forall (fun j => failedLine j = None) jobs ->
  loggedRetryInv (ledger w) (Logged.startRun jobs c w).
Proof.
  intros Hj. unfold loggedRetryInv. simpl.
  rewrite batchLoop_concat. repeat split; auto.
Qed.

Section LoggedCalls.
Context `{JsMath}.
Variables (provider : TileProvider) (bounds : option Bounds)
  (maxThreads : Z) (lang : string).

Lemma logged_zoom_threw z st zc e st' :
  Logged.downloadTilesForZoom provider z bounds maxThreads lang st zc
  = Some (Logged.Err e, st') ->
  (e = Logged.LogIOError /\ zoomLogsFine zc = false)
  \/ (e = Logged.Plain LedgerIOError
      /\ forallb ledgerFine (map plainChoice (Logged.zoomChoices zc))
         = false).
Proof.
  unfold Logged.downloadTilesForZoom, zoomLogsFine.
  destruct (Logged.totalLogOk zc); [|intros [= <- _]; auto].
  destruct (Logged.exec _ _) as [r|] eqn:He; [|discriminate].
  destruct (quiescent (Logged.pass r)); [|discriminate].
  destruct (exec_thrown _ _ _ He eq_refl eq_refl) as [Hth _].
  unfold thrownBy in Hth. cbn [andb].
  destruct (Logged.thrown r) as [e0|].
  - intros [= <- _]. destruct e0 as [[]| |]; try contradiction; auto.
    left. now rewrite Hth.
  - destruct (Logged.allLogOk zc); [discriminate|].
    intros [= <- _]. left. now rewrite andb_false_r.
Qed.

Lemma logged_zoomLoop_threw zs : forall st scripts e st',
  Logged.zoomLoop provider zs bounds maxThreads lang st scripts
  = Some (Logged.Err e, st') ->
  (e = Logged.LogIOError /\ forallb levelLogsFine scripts = false)
  \/ (e = Logged.Plain LedgerIOError
      /\ forallb (forallb ledgerFine)
           (map (fun sc => map plainChoice
                             (Logged.zoomChoices (Logged.level sc)))
                scripts) = false).
Proof.
  induction zs as [|z zs IH]; intros st scripts e st' Hrun; [discriminate|].
  destruct scripts as [|sc scs]; [discriminate|].
  cbn [Logged.zoomLoop] in Hrun. cbn [forallb map].
  replace (levelLogsFine sc)
    with (Logged.startingLogOk sc && zoomLogsFine (Logged.level sc)
          && Logged.completedLogOk sc) by reflexivity.
  destruct (Logged.startingLogOk sc); [|injection Hrun as <- _; auto].
  cbn [andb].
  destruct (Logged.downloadTilesForZoom provider z bounds maxThreads lang st
              (Logged.level sc)) as [[[|e1] st1]|] eqn:Hz; [| |discriminate].
  - destruct (Logged.completedLogOk sc).
    + destruct (IH _ _ _ _ Hrun) as [[-> Hl]|[-> Hl]]; [left|right];
        (split; [reflexivity|]); rewrite Hl; apply andb_false_r.
    + injection Hrun as <- _. left. split; [reflexivity|].
      now rewrite andb_false_r.
  - injection Hrun as <- _.
    destruct (logged_zoom_threw _ _ _ _ _ Hz) as [[-> Hl]|[-> Hl]];
      [left|right]; (split; [reflexivity|]); now rewrite Hl.
Qed.

Lemma logged_retry_threw st rs e st' :
  Logged.processFailedTiles provider maxThreads st rs
  = Some (Logged.Err e, st') ->
  (e = Logged.Plain LedgerIOError
   /\ (Logged.readOk rs = false \/ Logged.unlinkOk rs = false))
  \/ (e = Logged.LogIOError /\ retryLogsFine rs = false).
Proof.
  unfold Logged.processFailedTiles, retryLogsFine.
  destruct (ledger st.1) as [content|] eqn:Hl; [|discriminate].
  destruct (Logged.readOk rs); cbn [negb]; [|intros [= <- _]; auto].
  destruct (ledgerLines content) as [|l ls] eqn:Hlines; [discriminate|].
  rewrite <- Hlines.
  destruct (Logged.retryingLogOk rs); cbn [negb andb];
    [|intros [= <- _]; auto].
  destruct (Logged.exec _ _) as [r|] eqn:He; [|discriminate].
  destruct (quiescent (Logged.pass r)); [|discriminate].
  destruct (exec_thrown _ _ _ He eq_refl eq_refl) as [Hth _].
  destruct (logged_exec_invariant _ (loggedRetryInv_step (ledger st.1)) _ _ _
              (loggedRetryInv_start _ maxThreads st.1
                 (retryJob_noLine provider (ledgerLines content))) He)
    as (_ & _ & _ & _ & Ht).
  destruct Ht as [Ht|Ht]; rewrite Ht in *.
  - destruct (Logged.unlinkOk rs); [|intros [= <- _]; auto].
    destruct (Logged.finishedLogOk rs); [discriminate|].
    intros [= <- _]. right. split; [reflexivity|]. apply andb_false_r.
  - intros [= <- _]. right. split; [reflexivity|].
    cbn in Hth. now rewrite Hth.
Qed.

End LoggedCalls.


Lemma plain_logged_choices cs : map plainChoice (map loggedChoice cs) = cs.
Proof.
  induction cs as [|[|i net disk ok] cs IH]; cbn [map]; [reflexivity|..];
    now rewrite IH.
Qed.

Lemma logged_choices_fine cs :
  forallb choiceLogsFine (map loggedChoice cs) = true.
Proof. induction cs as [|[|i net disk ok] cs IH]; auto. Qed.

Lemma plain_logged_retry rs : plainRetry (loggedRetry rs) = rs.
Proof.
  destruct rs as [r cs u]. unfold plainRetry, loggedRetry.
  cbn [Logged.readOk Logged.retryChoices Logged.unlinkOk readOk choices
       unlinkOk].
  f_equal. apply plain_logged_choices.
Qed.

Lemma plain_logged_levels zs :
  map (fun sc => map plainChoice (Logged.zoomChoices (Logged.level sc)))
      (map loggedLevel zs) = zs.
Proof.
  induction zs as [|cs zs IH]; [reflexivity|].
  cbn [map]. rewrite IH. f_equal. apply plain_logged_choices.
Qed.

Lemma plain_logged_main ms : plainMain (loggedMain ms) = ms.
Proof.
  destruct ms as [rb zs ra]. unfold plainMain, loggedMain.
  cbn [Logged.retryBefore Logged.levels Logged.retryAfter retryBefore
       zoomScripts retryAfter].
  now rewrite !plain_logged_retry, plain_logged_levels.
Qed.

Lemma logged_levels_fine zs : forallb levelLogsFine (map loggedLevel zs) = true.
Proof.
  induction zs as [|cs zs IH]; [reflexivity|].
  cbn [map forallb]. rewrite IH, andb_true_r.
  unfold levelLogsFine, zoomLogsFine, loggedLevel.
  cbn [Logged.startingLogOk Logged.level Logged.completedLogOk
       Logged.totalLogOk Logged.zoomChoices Logged.allLogOk].
  now rewrite logged_choices_fine.
Qed.

Lemma logged_retry_fine rs : retryLogsFine (loggedRetry rs) = true.
Proof.
  unfold retryLogsFine, loggedRetry.
  cbn [Logged.retryingLogOk Logged.retryChoices Logged.finishedLogOk].
  now rewrite logged_choices_fine.
Qed.

Lemma logged_main_fine ms : mainLogsFine (loggedMain ms) = true.
Proof.
  unfold mainLogsFine, loggedMain.
  cbn [Logged.retryBefore Logged.levels Logged.retryAfter].
  now rewrite !logged_retry_fine, logged_levels_fine.
Qed.


(** Claim C3, as amended.  A fetch or write error of a tile makes its
    thunk append the tile's line to the ledger and, when the log line
    that follows is written, leaves everything else as it is: the other
    thunks in flight, the batches to come, the state of the pass.
    Whatever network and disk answer, a run of the zoom loop whose ledger
    appends and log lines succeed returns normally after every enumerated
    tile of every zoom level has been started, and such a run exists for
    all answers.  [main] ends early only with [UnsupportedProvider],
    raised by [create] before anything is fetched, with
    [BoundsSyntaxError], raised by [JSON.parse] before anything else is
    done, with [LedgerIOError], when reading, appending to or removing the
    ledger file fails, or with [LogIOError], when a call of [logToFile]
    fails. *)
Theorem failures_are_local `{JsMath} :
  (* [saveTile] throws exactly when the fetch, the disk or its log line
     fails *)
  (forall f j net disk logs,
      (Logged.saveTile_resume f j net disk logs).2 = false
      <-> net = FetchFail \/ disk <> DiskOk
          \/ Logged.saveLogOk logs = false)
  (* a failing tile is written to the ledger and disturbs nothing else *)
  /\ (forall r i j net disk logs line,
      flight (Logged.pass r) !! i = Some (Fetching j) ->
      failedLine j = Some line ->
      (Logged.saveTile_resume (fs (world (Logged.pass r))) j net disk
                              logs).2 = false ->
      Logged.catchLogOk logs = true ->
      exists r',
        Logged.step r (Logged.Settle i net disk true logs) = Some r'
        /\ ledger (world (Logged.pass r'))
           = Some (default "" (ledger (world (Logged.pass r))) +:+ line)
        /\ Logged.thrown r' = Logged.thrown r
        /\ rejected (Logged.pass r') = rejected (Logged.pass r)
        /\ pending (Logged.pass r') = pending (Logged.pass r)
        /\ flight (Logged.pass r') = delete i (flight (Logged.pass r)))
  (* whatever the network and the disk answer, a run of the zoom loop whose
     ledger appends and log lines succeed returns normally, has started
     every enumerated tile of every zoom level once, in order, and has
     added to the ledger the lines of the tiles that failed *)
  /\ (forall provider zs bounds maxThreads lang st scripts r st',
         Logged.zoomLoop provider zs bounds maxThreads lang st scripts
         = Some (r, st') ->
         forallb levelLogsFine scripts = true ->
         forallb (forallb ledgerFine)
           (map (fun sc => map plainChoice
                             (Logged.zoomChoices (Logged.level sc)))
                scripts) = true ->
         r = Logged.Ok
         /\ exists tr,
              st'.2 = st.2 ++ tr
              /\ starts tr
                 = flat_map (fun z => zoomJobs provider z bounds lang) zs
              /\ ledger st'.1
                 = ledgerAfter (ledger st.1) (failureLines tr))
  (* what ends [main] early: the provider name, the bounds argument, the
     ledger file or the log file *)
  /\ (forall JSON_parse argv w ms e st',
         Logged.main JSON_parse argv w ms = Some (Logged.Err e, st') ->
         match e with
         | Logged.Plain (UnsupportedProvider n) =>
             n = default "undefined" (argv !! 2%nat)
             /\ create n (Some (orString (argv !! 6%nat) "ru"))
                = inl (UnsupportedProvider n)
             /\ st' = (w, [])
         | Logged.Plain LedgerIOError => ledgerTrouble (plainMain ms) = true
         | Logged.LogIOError => mainLogsFine ms = false
         | Logged.BoundsSyntaxError =>
             boundsArg JSON_parse (argv !! 5%nat) = JsonSyntaxError
             /\ st' = (w, [])
         end)
  (* and for every answer of the network and the disk there is a run in
     which nothing of this happens *)
  /\ (forall JSON_parse argv w bounds provider
             (env : Job -> FetchResult * DiskResult),
         boundsArg JSON_parse (argv !! 5%nat) = JsonValue bounds ->
         create (default "undefined" (argv !! 2%nat))
                (Some (orString (argv !! 6%nat) "ru")) = inr provider ->
         exists ms st',
           mainLogsFine ms = true
           /\ ledgerTrouble (plainMain ms) = false
           /\ (forall sc, In sc (Logged.levels ms) ->
                 exists z,
                   map plainChoice (Logged.zoomChoices (Logged.level sc))
                   = fifoScript env
                       (batchLoop (orZ (parseIntArg (argv !! 7%nat)) 6)
                          (zoomJobs provider z bounds
                             (orString (argv !! 6%nat) "ru")) []))
           /\ Logged.main JSON_parse argv w ms = Some (Logged.Ok, st')).
Proof.
  split; [|split; [|split; [|split]]].
  - intros f j net disk logs. unfold Logged.saveTile_resume, saveTile_resume.
    destruct logs as [[] pl cl]; cbn [Logged.saveLogOk];
      (destruct net as [|data]; [|destruct disk as [| |[k|]]]); cbn;
      split; intros Hx; try reflexivity; try discriminate; auto;
      destruct Hx as [Hx|[Hx|Hx]]; congruence.
  - intros r i j net disk logs line Hi Hline Hfail Hlog.
    cbn [Logged.step]. rewrite Hi.
    destruct (Logged.resume _ _ _ _ _ _ _) as [p1 err] eqn:Hres.
    eexists. split; [reflexivity|]. cbn [Logged.pass Logged.thrown].
    revert Hres Hfail. unfold Logged.resume. cbn [slotJob].
    destruct (Logged.saveTile_resume _ j net disk logs) as [[f wrote] ok].
    cbn [snd]. intros Hres ->. rewrite Hline, Hlog in Hres.
    injection Hres as <- <-. cbn. rewrite orb_false_r.
    repeat split. now destruct (Logged.thrown r).
  - intros provider zs bounds maxThreads lang st scripts r st' Hrun Hlogs Hled.
    rewrite (zoomLoop_plain _ _ _ _ _ _ _ Hlogs) in Hrun.
    destruct (zoomLoop provider zs bounds maxThreads lang st _)
      as [[r0 st0]|] eqn:Hz; [|discriminate].
    injection Hrun as <- <-.
    destruct (zoomLoop_fine _ _ _ _ _ _ _ _ _ Hz Hled) as [-> Hrest].
    split; [reflexivity|exact Hrest].
  - intros JSON_parse argv w ms e st'. unfold Logged.main. cbv zeta.
    destruct (boundsArg JSON_parse (argv !! 5%nat)) as [|bounds] eqn:Hb;
      [intros [= <- <-]; auto|].
    destruct (create _ _) as [e0|provider] eqn:Hc.
    { intros [= <- <-]. pose proof (create_inl _ _ _ Hc) as He0. subst e0.
      repeat split. exact Hc. }
    unfold ledgerTrouble, mainLogsFine.
    cbn [plainMain retryBefore zoomScripts retryAfter plainRetry readOk
         unlinkOk].
    destruct (Logged.processFailedTiles provider _ (w, [])
                (Logged.retryBefore ms)) as [[[|e1] st1]|] eqn:H1;
      [| |discriminate].
    + destruct (Logged.zoomLoop provider _ bounds _ _ st1 (Logged.levels ms))
        as [[[|e2] st2]|] eqn:H2; [| |discriminate].
      * intros H3.
        destruct (logged_retry_threw _ _ _ _ _ _ H3)
          as [[-> [Hr|Hu]]|[-> Hl]].
        -- rewrite Hr. cbn. now rewrite !orb_true_r.
        -- rewrite Hu. cbn. now rewrite !orb_true_r.
        -- rewrite Hl. apply andb_false_r.
      * intros [= <- <-].
        destruct (logged_zoomLoop_threw _ _ _ _ _ _ _ _ _ H2)
          as [[-> Hl]|[-> Hl]].
        -- rewrite Hl. now rewrite andb_false_r.
        -- rewrite Hl. cbn. now rewrite !orb_true_r.
    + intros [= <- <-].
      destruct (logged_retry_threw _ _ _ _ _ _ H1) as [[-> [Hr|Hu]]|[-> Hl]].
      * now rewrite Hr.
      * rewrite Hu. cbn. now rewrite !orb_true_r.
      * now rewrite Hl.
  - intros JSON_parse argv w bounds provider env Hb Hc.
    set (lang := orString (argv !! 6%nat) "ru") in *.
    set (maxThreads := orZ (parseIntArg (argv !! 7%nat)) 6).
    set (zs := zoomLevelsNum (parseIntArg (argv !! 3%nat))
                 (orNum (parseIntArg (argv !! 4%nat))
                        (parseIntArg (argv !! 3%nat)))).
    destruct (processFailedTiles_fifo env provider maxThreads (w, []))
      as [st1 H1].
    destruct (zoomLoop_fifo provider bounds maxThreads lang env zs st1)
      as [st2 H2].
    destruct (processFailedTiles_fifo env provider maxThreads st2)
      as [st3 H3].
    set (ms0 := {| retryBefore := fifoRetry env provider maxThreads (w, []);
                   zoomScripts :=
                     map (fun z => fifoScript env
                                     (batchLoop maxThreads
                                        (zoomJobs provider z bounds lang) []))
                         zs;
                   retryAfter := fifoRetry env provider maxThreads st2 |}).
    exists (loggedMain ms0), st3.
    split; [apply logged_main_fine|]. rewrite plain_logged_main.
    split; [|split].
    + unfold ledgerTrouble, ms0. simpl.
      rewrite (proj2 (forallb_forall _ _)); [reflexivity|].
      intros sc [z [<- _]]%in_map_iff. apply fifoScript_fine.
    + unfold loggedMain, ms0.
      cbn [Logged.levels zoomScripts].
      intros sc [cs [<- [z [<- _]]%in_map_iff]]%in_map_iff.
      exists z. apply plain_logged_choices.
    + rewrite (main_plain JSON_parse argv bounds w _ Hb
                 (logged_main_fine ms0)), plain_logged_main.
      unfold main_argv, mainLevels. cbv zeta.
      fold lang maxThreads zs. rewrite Hc.
      unfold ms0. cbn [retryBefore zoomScripts retryAfter].
      rewrite H1, H2, H3. reflexivity.
Qed.

(** Claim C3 at the run [mixedRun] of zoom 1, in which a fetch and a write
    fail. *)
Lemma failures_are_local_witness :
  exists r st',
    @Logged.zoomLoop exampleMath google [1] None 3 "ru" (emptyWorld, [])
      [loggedLevel mixedRun] = Some (r, st')
    /\ r = Logged.Ok
    /\ exists tr,
         st'.2 = [] ++ tr
         /\ starts tr
            = flat_map (fun z => @zoomJobs exampleMath google z None "ru") [1]
         /\ ledger st'.1 = ledgerAfter None (failureLines tr).
Proof.
  eexists. eexists. split.
  - vm_compute. reflexivity.
  - apply (proj1 (proj2 (proj2 (@failures_are_local exampleMath)))
             google [1] None 3 "ru" (emptyWorld, [])
             [loggedLevel mixedRun]).
    + vm_compute. reflexivity.
    + reflexivity.
    + reflexivity.
Defined.

(** The claim as stated fails: in the run [logFails] the fetch of the
    first tile fails and its line is appended to the ledger, yet the run
    ends there, with an error that concerns neither the provider name nor
    the ledger file, and the other three tiles of the level are never
    attempted. *)
Lemma log_failure_counterexample :
  exists st',
    @Logged.main exampleMath exampleParse
      ["node"; "index.js"; "google"; "1"; "1"; ""; "ru"; "1"] emptyWorld
      logFails = Some (Logged.Err Logged.LogIOError, st')
    /\ ledger st'.1 = Some ("google,1,0,0,ru" +:+ newline)
    /\ starts st'.2 = [tileJob google 1 "ru" (0, 0)]
    /\ @zoomJobs exampleMath google 1 None "ru"
       = map (tileJob google 1 "ru") [(0, 0); (0, 1); (1, 0); (1, 1)].
Proof.
  eexists. split; [vm_compute; reflexivity|].
  repeat split; vm_compute; reflexivity.
Qed.

(** Property X4. [processFailedTiles] and the ledger file. Without a ledger
    the call returns at once and changes nothing. With a ledger, the file
    stays as it is while the pass runs, whatever the thunks meet: none of
    them appends to it, and one rejects only when its log line cannot be
    written. The call ends in one of these ways. It returns, after every
    record has been tried (at least one, also for a blank file), and the
    ledger is gone. Reading or removing the file throws, and the ledger is
    still what it was. A log line fails before or during the pass, and the
    ledger is still what it was. Or the last log line fails, after the
    file was removed: the call throws although every record has been
    tried and the ledger is gone. *)
Theorem retry_keeps_or_removes_ledger (provider : TileProvider)
    (maxThreads : Z) (st : State) (rs : Logged.RetryScript) :
  (ledger st.1 = None ->
   Logged.processFailedTiles provider maxThreads st rs
   = Some (Logged.Ok, st))
  /\ (forall content script r,
         ledger st.1 = Some content ->
         Logged.exec
           (Logged.startRun (map (retryJob provider) (ledgerLines content))
                            maxThreads st.1) script = Some r ->
         ledger (world (Logged.pass r)) = Some content
         /\ appends (trace (Logged.pass r)) = []
         /\ (Logged.thrown r = None
             \/ Logged.thrown r = Some Logged.LogIOError
                /\ forallb choiceLogsFine script = false))
  /\ (forall content r st',
         ledger st.1 = Some content ->
         Logged.processFailedTiles provider maxThreads st rs
         = Some (r, st') ->
         let jobs := map (retryJob provider) (ledgerLines content) in
         let tried := exists tr, st'.2 = st.2 ++ tr /\ starts tr = jobs in
         jobs <> []
         /\ match r with
            | Logged.Ok => ledger st'.1 = None /\ tried
            | Logged.Err (Logged.Plain LedgerIOError) =>
                (Logged.readOk rs = false \/ Logged.unlinkOk rs = false)
                /\ ledger st'.1 = Some content
            | Logged.Err Logged.LogIOError =>
                retryLogsFine rs = false
                /\ (ledger st'.1 = Some content
                    \/ ledger st'.1 = None
                       /\ Logged.finishedLogOk rs = false /\ tried)
            | Logged.Err _ => False
            end).
Proof.
  assert (Hpass : forall content script r,
             ledger st.1 = Some content ->
             Logged.exec
               (Logged.startRun
                  (map (retryJob provider) (ledgerLines content))
                  maxThreads st.1) script = Some r ->
             ledger (world (Logged.pass r)) = Some content
             /\ appends (trace (Logged.pass r)) = []
             /\ (Logged.thrown r = None
                 \/ Logged.thrown r = Some Logged.LogIOError
                    /\ forallb choiceLogsFine script = false)).
  { intros content script r Hl He.
    destruct (logged_exec_invariant _ (loggedRetryInv_step (ledger st.1))
                _ _ _
                (loggedRetryInv_start _ maxThreads st.1
                   (retryJob_noLine provider (ledgerLines content))) He)
      as (_ & _ & Hled & Ha & Ht).
    split; [congruence|]. split; [exact Ha|].
    destruct Ht as [Ht|Ht]; [now left|right].
    split; [exact Ht|].
    destruct (exec_thrown _ _ _ He eq_refl eq_refl) as [Hth _].
    rewrite Ht in Hth. exact Hth. }
  split; [|split; [exact Hpass|]].
  - intros Hl. unfold Logged.processFailedTiles. now rewrite Hl.
  - intros content r st' Hl Hrun jobs tried.
    assert (Hne : jobs <> []).
    { unfold jobs, ledgerLines.
      pose proof (split_nonempty LF (trim content)).
      destruct (split LF (trim content)); [contradiction|discriminate]. }
    split; [exact Hne|].
    unfold Logged.processFailedTiles in Hrun. rewrite Hl in Hrun.
    unfold retryLogsFine.
    destruct (Logged.readOk rs); cbn [negb] in Hrun;
      [|injection Hrun as <- <-; auto].
    destruct (ledgerLines content) as [|l ls] eqn:Hlines;
      [now destruct Hne|].
    rewrite <- Hlines in Hrun.
    destruct (Logged.retryingLogOk rs); cbn [negb andb] in *;
      [|injection Hrun as <- <-; auto].
    destruct (Logged.exec _ _) as [q|] eqn:He; [|discriminate].
    destruct (quiescent (Logged.pass q)) eqn:Hq; [|discriminate].
    destruct (Hpass _ _ _ Hl He) as (Hled & _ & Ht).
    destruct (exec_thrown _ _ _ He eq_refl eq_refl) as [_ Hrej].
    pose proof (logged_exec_invariant _ (startsInv_step _) _ _ _
                  (startsInv_start _ maxThreads st.1) He) as Hst.
    unfold startsInv in Hst.
    destruct Ht as [Ht|[Ht Hlogs]]; rewrite Ht in *.
    + assert (Htried : tried).
      { exists (trace (Logged.pass q)).
        destruct (Logged.unlinkOk rs);
          [destruct (Logged.finishedLogOk rs)|];
          injection Hrun as _ <-; (split; [reflexivity|]);
          apply quiescent_fine in Hq; [|exact Hrej| |exact Hrej| |exact Hrej];
          apply finished_inv in Hq as [Hp _];
          rewrite Hp, app_nil_r in Hst; unfold jobs; rewrite <- Hlines;
          exact Hst. }
      destruct (Logged.unlinkOk rs).
      * destruct (Logged.finishedLogOk rs); injection Hrun as <- <-.
        -- split; [reflexivity|exact Htried].
        -- split; [apply andb_false_r|]. right.
           split; [reflexivity|]. split; [reflexivity|exact Htried].
      * injection Hrun as <- <-. split; [auto|exact Hled].
    + injection Hrun as <- <-. split; [|left; exact Hled].
      now rewrite Hlogs.
Qed.


(** The retry pass over the one record of [oneFailure], when the last log
    line cannot be written: the call throws, the record has been tried
    and the ledger is gone. *)
Lemma retry_keeps_or_removes_ledger_witness :
  exists st',
    Logged.processFailedTiles google 6 (oneFailure, []) lastLogFails
    = Some (Logged.Err Logged.LogIOError, st')
    /\ ledger st'.1 = None
    /\ exists tr,
         st'.2 = [] ++ tr
         /\ starts tr
            = map (retryJob google)
                  (ledgerLines ("google,1,0,0,ru" +:+ newline)).
Proof.
  eexists. split; [vm_compute; reflexivity|].
  destruct (proj2 (proj2 (retry_keeps_or_removes_ledger google 6
                            (oneFailure, []) lastLogFails))
              ("google,1,0,0,ru" +:+ newline) _ _ eq_refl
              ltac:(vm_compute; reflexivity))
    as (_ & _ & [Hl|(Hl & _ & Htr)]).
  - vm_compute in Hl. discriminate.
  - split; [exact Hl|exact Htr].
Defined.


(** ** What the zoom loop changes, with its log file *)









Section LoopChanges.
Context `{JsMath}.
Variables (provider : TileProvider) (bounds : option Bounds) (lang : string).







End LoopChanges.


